(** * Turbidity classifier: preprocessing pipeline and deterministic scorer

    A shallow embedding of [src/services/preprocessing.ts] and
    [src/services/classifier.ts] together with the static tables of
    [src/types/turbidity.ts] and the error constructor of
    [src/types/errors.ts]; at the end, of the error handler
    ([src/middleware/error-handler.ts]), of the route's handler
    ([src/routes/predict.ts]) and of the base64 schema
    ([src/middleware/validation.ts]).

    Conventions of the embedding

    - a JavaScript [number] that holds a fractional quantity is a binary64
      value of the kernel ([PrimFloat.float]); its operations are the IEEE
      operations the kernel computes, so every definition below can be run;
    - a JavaScript [number] that the program uses as an integer (loop
      counters, offsets, byte sums, the 32-bit hash and generator state) is
      a [Z]; the 32-bit conversions [| 0], [>>> 0], [<<], [Math.imul] are the
      wrap-arounds written out below;
    - [Buffer] is a list of bytes, [Float32Array] a list of binary64 values
      that have gone through the binary32 rounding of a typed-array store;
    - the generator [createRng] returns is a closure over a variable it
      updates: it is modelled twice, by passing the state along and, for
      the determinism of the pipeline, as an address in a store of such
      variables;
    - the two things the program takes from outside are parameters: the
      image decoder ([sharp]) and the approximation [Math.exp] computes away
      from its special cases. *)

From Stdlib.Strings Require Import String Byte.
From Stdlib Require Import ZArith List Bool Lia.
From Stdlib Require Import Uint63.
From Stdlib Require Import Floats.
From Stdlib Require Import Reals Lra Znumtheory.
Import ListNotations.

#[local] Set Warnings "-inexact-float".
#[local] Open Scope Z_scope.

(* ================================================================== *)
(** ** JavaScript numbers *)
(* ================================================================== *)

Module JS.

(** Conversion of a mathematical integer to the nearest binary64 value
    (exact whenever [|z| <= 2^53]). *)
Definition of_Z (z : Z) : float :=
  SF2Prim (binary_normalize prec emax z 0 false).

(** The mathematical integer part (truncation towards zero) of a finite
    value; [None] for NaN and the infinities. *)
Definition trunc (x : float) : option Z :=
  match Prim2SF x with
  | S754_zero _ => Some 0
  | S754_finite s m e =>
      let a := match e with
               | Zneg k => Z.shiftr (Zpos m) (Zpos k)
               | _ => Z.shiftl (Zpos m) e
               end in
      Some (if s then - a else a)
  | _ => None
  end.

(** [ToInt32] and [ToUint32] on integers: reduction modulo [2^32]. *)
Definition wrap32 (z : Z) : Z := (z + 2147483648) mod 4294967296 - 2147483648.
Definition uwrap32 (z : Z) : Z := z mod 4294967296.

(** [x | 0] for a number [x]: NaN and the infinities become 0, anything
    else is truncated and wrapped. *)
Definition ToInt32 (x : float) : Z :=
  match trunc x with
  | Some z => wrap32 z
  | None => 0
  end.

(** [Math.round]: the nearest integer, ties towards +infinity; values
    without a fractional part (and NaN, the infinities) are returned as
    they are; results in [-0.5, 0) are the negative zero. *)
Definition Math_round (x : float) : float :=
  match Prim2SF x with
  | S754_finite s m (Zneg k) =>
      let n := if s then Zneg m else Zpos m in
      let r := (2 * n + Z.shiftl 1 (Zpos k)) / Z.shiftl 1 (Zpos k + 1) in
      if r =? 0 then (if s then neg_zero else zero) else of_Z r
  | _ => x
  end.

Definition is_neg_zero (x : float) : bool :=
  match Prim2SF x with
  | S754_zero true => true
  | _ => false
  end.

(** [Math.max(a, b)] and [Math.min(a, b)]: NaN if either is NaN, and
    [+0] counts as larger than [-0]. *)
Definition Math_max (a b : float) : float :=
  if is_nan a || is_nan b then nan
  else if PrimFloat.ltb a b then b
  else if PrimFloat.ltb b a then a
  else if is_neg_zero a then b else a.

Definition Math_min (a b : float) : float :=
  if is_nan a || is_nan b then nan
  else if PrimFloat.ltb a b then a
  else if PrimFloat.ltb b a then b
  else if is_neg_zero a then a else b.

(** [Math.max(...xs)]: the fold the language defines, from [-Infinity]. *)
Definition Math_max_list (xs : list float) : float :=
  fold_left Math_max xs neg_infinity.

(** [Math.fround]: what a store into a [Float32Array] keeps of a number,
    the nearest binary32 value, read back as a binary64. *)
Definition fround (x : float) : float :=
  match Prim2SF x with
  | S754_finite s m e => SF2Prim (binary_normalize 24 128 (if s then Zneg m else Zpos m) e s)
  | _ => x
  end.

(** A store of a number into a [Buffer] (a [Uint8Array]): [ToUint8], the
    integer part modulo 256; NaN and the infinities store 0. *)
Definition byte_of_Z (z : Z) : byte :=
  match Byte.of_N (Z.to_N (z mod 256)) with
  | Some b => b
  | None => x00
  end.

Definition ToUint8 (x : float) : byte :=
  match trunc x with
  | Some z => byte_of_Z z
  | None => x00
  end.

Definition Z_of_byte (b : byte) : Z := Z.of_N (Byte.to_N b).

Definition of_byte (b : byte) : float := of_Z (Z_of_byte b).

(** [Math.exp]: the special cases the language fixes, and otherwise the
    implementation-approximated value, which is a parameter. *)
Definition Math_exp (exp_impl : float -> float) (x : float) : float :=
  if is_nan x then nan
  else if PrimFloat.eqb x zero then one
  else if PrimFloat.eqb x infinity then infinity
  else if PrimFloat.eqb x neg_infinity then zero
  else exp_impl x.

End JS.

(* ================================================================== *)
(** ** [src/types/turbidity.ts]: classes, labels, NTU ranges *)
(* ================================================================== *)

Inductive TurbidityClass : Type :=
  | ultra_cloudy
  | very_cloudy
  | cloudy
  | lightly_cloudy
  | lightly_clear
  | clear.

(** The canonical order: the index of a class in this list is the index
    used for logits and probabilities. *)
Definition TURBIDITY_CLASSES : list TurbidityClass :=
  [ultra_cloudy; very_cloudy; cloudy; lightly_cloudy; lightly_clear; clear].

Definition TURBIDITY_LABELS (c : TurbidityClass) : String.string :=
  match c with
  | ultra_cloudy => "Ultra Cloudy"%string
  | very_cloudy => "Very Cloudy"%string
  | cloudy => "Cloudy"%string
  | lightly_cloudy => "Lightly Cloudy"%string
  | lightly_clear => "Lightly Clear"%string
  | clear => "Clear"%string
  end.

Record NtuRange : Type := { ntu_min : float; ntu_max : float }.

Definition NTU_RANGES (c : TurbidityClass) : NtuRange :=
  match c with
  | ultra_cloudy => {| ntu_min := 3336.0; ntu_max := 3844.0 |}
  | very_cloudy => {| ntu_min := 1300.0; ntu_max := 2520.0 |}
  | cloudy => {| ntu_min := 600.0; ntu_max := 1200.0 |}
  | lightly_cloudy => {| ntu_min := 150.0; ntu_max := 450.0 |}
  | lightly_clear => {| ntu_min := 25.0; ntu_max := 90.0 |}
  | clear => {| ntu_min := 1.47; ntu_max := 17.13 |}
  end.

Record ClassProbability : Type := {
  className : TurbidityClass;
  cp_label : String.string;
  probability : float
}.

Record PredictionResult : Type := {
  predictedClass : TurbidityClass;
  label : String.string;
  confidence : float;
  ntuRange : NtuRange;
  probabilities : list ClassProbability
}.

(* ================================================================== *)
(** ** [src/types/errors.ts]: the application error *)
(* ================================================================== *)

Inductive ErrorCode : Type :=
  | VALIDATION_ERROR
  | INFERENCE_FAILED
  | IMAGE_PROCESSING_FAILED
  | INTERNAL_ERROR.

Record AppError : Type := {
  message : String.string;
  statusCode : Z;
  code : ErrorCode;
  isOperational : bool
}.

Module AppErrors.

Definition validation (msg : String.string) : AppError :=
  {| message := msg; statusCode := 400; code := VALIDATION_ERROR;
     isOperational := true |}.

Definition inferenceFailed (detail : String.string) : AppError :=
  {| message := String.append "Inference failed: "%string detail; statusCode := 500;
     code := INFERENCE_FAILED; isOperational := true |}.

Definition imageProcessing (detail : String.string) : AppError :=
  {| message := String.append "Image processing failed: "%string detail;
     statusCode := 422; code := IMAGE_PROCESSING_FAILED;
     isOperational := true |}.

End AppErrors.

(** What a JavaScript [throw] can carry, as far as the [catch] of
    [preprocessImage] tells values apart: an [AppError], another [Error]
    with its message, or a value that is no [Error] at all. *)
Inductive Thrown : Type :=
  | ThrownAppError (e : AppError)
  | ThrownError (msg : String.string)
  | ThrownOther.

Inductive Result (E A : Type) : Type :=
  | Ok (a : A)
  | Throw (e : E).
Arguments Ok {E A} a.
Arguments Throw {E A} e.

Definition bind {E A B : Type} (r : Result E A) (k : A -> Result E B) : Result E B :=
  match r with
  | Ok a => k a
  | Throw e => Throw e
  end.

Notation "x <- r ;; k" := (bind r (fun x => k))
  (at level 61, r at next level, right associativity).

(* ================================================================== *)
(** ** [src/services/preprocessing.ts] *)
(* ================================================================== *)

Definition Buffer : Type := list byte.
Definition Float32Array : Type := list float.

Definition len {A : Type} (l : list A) : Z := Z.of_nat (List.length l).

Definition TARGET_SIZE : Z := 224.
Definition RESIZE_SIZE : Z := 256.

(** [IMAGENET_MEAN[c]] and [IMAGENET_STD[c]], channels R, G, B. *)
Definition IMAGENET_MEAN (c : nat) : float :=
  match c with
  | O => 0.485
  | S O => 0.456
  | _ => 0.406
  end.

Definition IMAGENET_STD (c : nat) : float :=
  match c with
  | O => 0.229
  | S O => 0.224
  | _ => 0.225
  end.

Record PreprocessedImage : Type := {
  data : Float32Array;
  channels : Z;
  height : Z;
  width : Z
}.

(** What [sharp(...).raw().toBuffer({ resolveWithObject: true })] resolves
    to: the pixel bytes and the [info] fields the program reads. *)
Record RawImage : Type := {
  raw_data : Buffer;
  info_width : Z;
  info_height : Z
}.

(** [Buffer.alloc(n)]: [n] zero bytes. *)
Definition Buffer_alloc (n : Z) : Buffer := repeat x00 (Z.to_nat n).

(** The message of Node's [ERR_OUT_OF_RANGE] (its text names the argument
    and the value received; only the fact that it is an [Error] with a
    message matters here). *)
Definition ERR_OUT_OF_RANGE : String.string := "The value is out of range."%string.

(** Node's [source.copy(target, targetStart, sourceStart, sourceEnd)]:
    a negative start or end, or a [sourceStart] beyond the source, throws
    a [RangeError]; otherwise the bytes [sourceStart .. sourceEnd) that
    exist in the source and fit in the target are written at
    [targetStart], and the target is returned here as updated. *)
Definition Buffer_copy (source target : Buffer)
    (targetStart sourceStart sourceEnd : Z) : Result Thrown Buffer :=
  if (targetStart <? 0) || (sourceStart <? 0) || (len source <? sourceStart)
     || (sourceEnd <? 0)
  then Throw (ThrownError ERR_OUT_OF_RANGE)
  else if (len target <=? targetStart) || (sourceEnd <=? sourceStart)
  then Ok target
  else
    let nb := Z.min (Z.min sourceEnd (len source) - sourceStart)
                    (len target - targetStart) in
    Ok (firstn (Z.to_nat targetStart) target
        ++ firstn (Z.to_nat nb) (skipn (Z.to_nat sourceStart) source)
        ++ skipn (Z.to_nat (targetStart + nb)) target).

(** The row loop of the centre crop: [for (let y = 0; y < TARGET_SIZE; y++)],
    with [rows] the iterations still to run. *)
Fixpoint crop_rows (rows : nat) (y : Z) (source : Buffer)
    (width cropLeft cropTop : Z) (cropped : Buffer) : Result Thrown Buffer :=
  match rows with
  | O => Ok cropped
  | S rows' =>
      let srcOffset := ((cropTop + y) * width + cropLeft) * 3 in
      let dstOffset := y * TARGET_SIZE * 3 in
      cropped' <- Buffer_copy source cropped dstOffset srcOffset
                    (srcOffset + TARGET_SIZE * 3) ;;
      crop_rows rows' (y + 1) source width cropLeft cropTop cropped'
  end.

Definition cropLeft_of (width : Z) : Z := (width - TARGET_SIZE) / 2.
Definition cropTop_of (height : Z) : Z := (height - TARGET_SIZE) / 2.

Definition center_crop (resized : RawImage) : Result Thrown Buffer :=
  let width := info_width resized in
  let height := info_height resized in
  let cropLeft := cropLeft_of width in
  let cropTop := cropTop_of height in
  crop_rows (Z.to_nat TARGET_SIZE) 0 (raw_data resized) width cropLeft cropTop
    (Buffer_alloc (TARGET_SIZE * TARGET_SIZE * 3)).

(** *** Gray-world balancing *)

(** A byte sum as the program holds it: an integer, or NaN once an
    [undefined] (a read past the end of the buffer) was added. *)
Definition add_read (sum : option Z) (read : option byte) : option Z :=
  match sum, read with
  | Some s, Some b => Some (s + JS.Z_of_byte b)
  | _, _ => None
  end.

Definition number_of_sum (sum : option Z) : float :=
  match sum with
  | Some s => JS.of_Z s
  | None => nan
  end.

(** The first loop, [for (let i = 0; i < length; i += 3)], where [length]
    is the length of [pixels] (the only caller passes [cropped.length]):
    the three reads [pixels[i]], [pixels[i + 1]], [pixels[i + 2]] are the
    head of what is left of the buffer. *)
Fixpoint sum_channels (pixels : Buffer) (sumR sumG sumB : option Z)
    : option Z * option Z * option Z :=
  match pixels with
  | [] => (sumR, sumG, sumB)
  | r :: [] => (add_read sumR (Some r), add_read sumG None, add_read sumB None)
  | r :: g :: [] =>
      (add_read sumR (Some r), add_read sumG (Some g), add_read sumB None)
  | r :: g :: b :: rest =>
      sum_channels rest (add_read sumR (Some r)) (add_read sumG (Some g))
        (add_read sumB (Some b))
  end.

(** [Math.min(255, Math.max(0, Math.round(p * scale)))] stored in [out]. *)
Definition balance_pixel (p : byte) (scale : float) : byte :=
  JS.ToUint8
    (JS.Math_min 255 (JS.Math_max 0 (JS.Math_round (JS.of_byte p * scale)))).

(** The second loop: three stores per iteration; a store past the end of
    [out] is dropped. *)
Fixpoint scale_channels (pixels : Buffer) (scaleR scaleG scaleB : float) : Buffer :=
  match pixels with
  | [] => []
  | r :: [] => [balance_pixel r scaleR]
  | r :: g :: [] => [balance_pixel r scaleR; balance_pixel g scaleG]
  | r :: g :: b :: rest =>
      balance_pixel r scaleR :: balance_pixel g scaleG :: balance_pixel b scaleB
      :: scale_channels rest scaleR scaleG scaleB
  end.

Definition epsilon : float := 1e-6.

(** The three scale factors [(scaleR, scaleG, scaleB)] of a buffer. *)
Definition gray_world_scales (pixels : Buffer) : float * float * float :=
  let length := len pixels in
  let pixelCount := (JS.of_Z length / 3)%float in
  let '(sumR, sumG, sumB) := sum_channels pixels (Some 0) (Some 0) (Some 0) in
  let meanR := (number_of_sum sumR / pixelCount + epsilon)%float in
  let meanG := (number_of_sum sumG / pixelCount + epsilon)%float in
  let meanB := (number_of_sum sumB / pixelCount + epsilon)%float in
  let overallMean := ((meanR + meanG + meanB) / 3)%float in
  ((overallMean / meanR)%float, (overallMean / meanG)%float,
   (overallMean / meanB)%float).

Definition applyGrayWorld (pixels : Buffer) : Buffer :=
  let '(scaleR, scaleG, scaleB) := gray_world_scales pixels in
  scale_channels pixels scaleR scaleG scaleB.

(** *** Normalisation into the channel-first tensor *)

Definition number_of_read (read : option byte) : float :=
  match read with
  | Some b => JS.of_byte b
  | None => nan
  end.

(** [tensor[c * totalPixels + i] = (balanced[i * 3 + c] / 255 - MEAN[c]) / STD[c]],
    the right-hand side as the [Float32Array] keeps it. *)
Definition normalized (c : nat) (read : option byte) : float :=
  JS.fround ((number_of_read read / 255 - IMAGENET_MEAN c) / IMAGENET_STD c)%float.

(** The loop [for (let i = 0; i < totalPixels; i++)]: iteration [i] reads
    [balanced[i*3 .. i*3+2]] and stores one value in each of the three
    planes of the tensor. *)
Fixpoint planes (n : nat) (balanced : Buffer)
    : list float * list float * list float :=
  match n with
  | O => ([], [], [])
  | S n' =>
      let '(pR, pG, pB) := planes n' (skipn 3 balanced) in
      (normalized 0 (nth_error balanced 0) :: pR,
       normalized 1 (nth_error balanced 1) :: pG,
       normalized 2 (nth_error balanced 2) :: pB)
  end.

Definition to_tensor (balanced : Buffer) : Float32Array :=
  let totalPixels := TARGET_SIZE * TARGET_SIZE in
  let '(pR, pG, pB) := planes (Z.to_nat totalPixels) balanced in
  pR ++ pG ++ pB.

Section Preprocess.

(** [sharp(imageBuffer).rotate().resize(256, 256, cover).removeAlpha().raw()
    .toBuffer(...)]: the decoded and resized image, or what the decoder
    throws. *)
Variable sharp : Buffer -> Result Thrown RawImage.

(** The body of the [try] block. *)
Definition preprocess_body (imageBuffer : Buffer) : Result Thrown PreprocessedImage :=
  resized <- sharp imageBuffer ;;
  cropped <- center_crop resized ;;
  let balanced := applyGrayWorld cropped in
  Ok {| data := to_tensor balanced; channels := 3;
        height := TARGET_SIZE; width := TARGET_SIZE |}.

(** The [catch]: an [AppError] is thrown again as it is; anything else is
    wrapped by [AppError.imageProcessing]. *)
Definition preprocessImage (imageBuffer : Buffer) : Result AppError PreprocessedImage :=
  match preprocess_body imageBuffer with
  | Ok image => Ok image
  | Throw (ThrownAppError e) => Throw e
  | Throw (ThrownError msg) => Throw (AppErrors.imageProcessing msg)
  | Throw ThrownOther => Throw (AppErrors.imageProcessing "Unknown error"%string)
  end.

End Preprocess.

(* ================================================================== *)
(** ** [src/services/classifier.ts] *)
(* ================================================================== *)

(** *** 32-bit integer operators *)

(** [a << n], [a >>> n], [a ^ b], [a | b] and [Math.imul(a, b)] on
    integers; the signed results are in [[-2^31, 2^31)]. *)
Definition shl32 (a n : Z) : Z := JS.wrap32 (Z.shiftl (JS.wrap32 a) n).
Definition ushr32 (a n : Z) : Z := Z.shiftr (JS.uwrap32 a) n.
Definition xor32 (a b : Z) : Z := Z.lxor (JS.wrap32 a) (JS.wrap32 b).
Definition or32 (a b : Z) : Z := Z.lor (JS.wrap32 a) (JS.wrap32 b).
Definition imul (a b : Z) : Z := JS.wrap32 (JS.wrap32 a * JS.wrap32 b).

(** *** [hashTensor] *)

(** One pass of the loop body:
    [hash = ((hash << 5) - hash + Math.round((tensor[i] + 3) * 10000)) | 0]. *)
Definition hash_step (hash : Z) (value : float) : Z :=
  JS.ToInt32
    (JS.of_Z (shl32 hash 5) - JS.of_Z hash
     + JS.Math_round ((value + 3) * 10000))%float.

(** [for (let i = 0; i < tensor.length; i += step)], with [fuel] a bound on
    the iterations left. *)
Fixpoint hash_loop (fuel : nat) (tensor : Float32Array) (step i hash : Z) : Z :=
  match fuel with
  | O => hash
  | S fuel' =>
      if i <? len tensor
      then hash_loop fuel' tensor step (i + step)
             (hash_step hash (nth (Z.to_nat i) tensor nan))
      else hash
  end.

Definition hash_stride (tensor : Float32Array) : Z :=
  Z.max 1 (len tensor / 256).

Definition hashTensor (tensor : Float32Array) : Z :=
  let step := hash_stride tensor in
  Z.abs (hash_loop (List.length tensor) tensor step 0 0).

(** *** [createRng]: mulberry32 *)

(** The closure's variable [s] is the state; a call of the closure is
    [rng_call], which returns the number and the state it leaves. *)
Definition createRng (seed : Z) : Z := JS.wrap32 seed.

Definition rng_call (s : Z) : float * Z :=
  let s1 := JS.wrap32 (s + 0x6d2b79f5) in
  let t1 := imul (xor32 s1 (ushr32 s1 15)) (or32 1 s1) in
  let t2 := xor32 (t1 + imul (xor32 t1 (ushr32 t1 7)) (or32 61 t1)) t1 in
  ((JS.of_Z (JS.uwrap32 (xor32 t2 (ushr32 t2 14))) / 4294967296)%float, s1).

(** *** [softmax] *)

Section Scorer.

(** The value [Math.exp] returns away from its special cases. *)
Variable exp_impl : float -> float.

Definition softmax (logits : list float) : list float :=
  let max := JS.Math_max_list logits in
  let exps := map (fun v => JS.Math_exp exp_impl (v - max)%float) logits in
  let sum := fold_left (fun a b => (a + b)%float) exps 0%float in
  map (fun v => (v / sum)%float) exps.

(** *** [buildResult] *)

(** The callback of [TURBIDITY_CLASSES.map((cls, i) => ...)], run over the
    classes from index [i] on, with the two variables [maxIdx] and
    [maxProb] it updates. *)
Fixpoint build_loop (classes : list TurbidityClass) (i : nat)
    (probs : list float) (maxIdx : nat) (maxProb : float)
    : list ClassProbability * nat * float :=
  match classes with
  | [] => ([], maxIdx, maxProb)
  | cls :: rest =>
      let p := match nth_error probs i with
               | Some v => v
               | None => 0%float
               end in
      let '(maxIdx', maxProb') :=
        if PrimFloat.ltb maxProb p then (i, p) else (maxIdx, maxProb) in
      let '(entries, idx, prob) := build_loop rest (S i) probs maxIdx' maxProb' in
      ({| className := cls; cp_label := TURBIDITY_LABELS cls; probability := p |}
         :: entries, idx, prob)
  end.

Definition buildResult (probs : list float) : PredictionResult :=
  let '(entries, maxIdx, maxProb) :=
    build_loop TURBIDITY_CLASSES 0 probs 0 neg_infinity in
  let predicted := nth maxIdx TURBIDITY_CLASSES ultra_cloudy in
  {| predictedClass := predicted;
     label := TURBIDITY_LABELS predicted;
     confidence := maxProb;
     ntuRange := NTU_RANGES predicted;
     probabilities := entries |}.

(** *** [predict] *)

Definition means (c : nat) : float :=
  match c with
  | O => 0.485
  | S O => 0.456
  | _ => 0.406
  end.

Definition stds (c : nat) : float :=
  match c with
  | O => 0.229
  | S O => 0.224
  | _ => 0.225
  end.

(** [n] consecutive reads of a typed array from its head on; a read past
    the end is [undefined], NaN in arithmetic. *)
Fixpoint reads (n : nat) (l : Float32Array) : list float :=
  match n with
  | O => []
  | S n' =>
      match l with
      | [] => nan :: reads n' []
      | v :: rest => v :: reads n' rest
      end
  end.

(** The inner loop for channel [c]: [channelSum] after
    [for (let i = 0; i < totalPixels; i++)
       channelSum += image.data[offset + i] * stds[c] + means[c]]. *)
Definition channel_sum (image : PreprocessedImage) (c : nat) : float :=
  let totalPixels := height image * width image in
  let offset := Z.of_nat c * totalPixels in
  fold_left (fun channelSum v => (channelSum + (v * stds c + means c))%float)
    (reads (Z.to_nat totalPixels) (skipn (Z.to_nat offset) (data image)))
    0%float.

Definition brightness_of (image : PreprocessedImage) : float :=
  let totalPixels := JS.of_Z (height image * width image) in
  let brightness :=
    fold_left (fun brightness c => (brightness + channel_sum image c / totalPixels)%float)
      [0%nat; 1%nat; 2%nat] 0%float in
  (brightness / 3)%float.

Definition classCount : Z := len TURBIDITY_CLASSES.

(** [Math.min(classCount - 1,
              Math.max(0, Math.round((1 - brightness) * (classCount - 1))))]. *)
Definition center_of (brightness : float) : float :=
  JS.Math_min (JS.of_Z (classCount - 1))
    (JS.Math_max 0 (JS.Math_round ((1 - brightness) * JS.of_Z (classCount - 1))%float)).

(** The callback of [TURBIDITY_CLASSES.map((_, i) => ...)] for index [i]
    under generator state [s]. *)
Definition logit_at (center : float) (i : Z) (s : Z) : float * Z :=
  let distance := abs (JS.of_Z i - center) in
  let '(u, s') := rng_call s in
  ((- distance * 1.8 + (u - 0.5) * 0.3)%float, s').

Fixpoint logits_loop (classes : list TurbidityClass) (i : Z) (center : float)
    (s : Z) : list float * Z :=
  match classes with
  | [] => ([], s)
  | _ :: rest =>
      let '(logit, s') := logit_at center i s in
      let '(more, s'') := logits_loop rest (i + 1) center s' in
      (logit :: more, s'')
  end.

Definition predict_logits (image : PreprocessedImage) : list float * Z :=
  let center := center_of (brightness_of image) in
  let rng := createRng (hashTensor (data image)) in
  logits_loop TURBIDITY_CLASSES 0 center rng.

Definition predict (image : PreprocessedImage) : PredictionResult :=
  buildResult (softmax (fst (predict_logits image))).

(** *** The request handler's pipeline: [predict(await preprocessImage(buf))] *)

Variable sharp : Buffer -> Result Thrown RawImage.

Definition classify (imageBuffer : Buffer) : Result AppError PredictionResult :=
  image <- preprocessImage sharp imageBuffer ;;
  Ok (predict image).

End Scorer.

(** *** The generator as a closure over a mutable variable *)

(** [createRng] returns a closure that owns a variable [s] and updates it
    at every call.  The store holds the variable of every closure made so
    far; a closure is the address of its variable. *)
Definition Store : Type := list Z.
Definition Rng : Type := nat.

Fixpoint store_set (h : Store) (g : Rng) (s : Z) : Store :=
  match h, g with
  | [], _ => []
  | _ :: rest, O => s :: rest
  | x :: rest, S g' => x :: store_set rest g' s
  end.

(** [let s = seed | 0; return () => ...]: a new variable, and the closure
    over it. *)
Definition createRng_st (seed : Z) (h : Store) : Rng * Store :=
  (length h, h ++ [createRng seed]).

(** [rng()]: the body of the closure, run on its own variable. *)
Definition rng_st (g : Rng) (h : Store) : float * Store :=
  let '(u, s') := rng_call (nth g h 0) in
  (u, store_set h g s').

Definition logit_at_st (center : float) (i : Z) (g : Rng) (h : Store)
    : float * Store :=
  let distance := abs (JS.of_Z i - center) in
  let '(u, h') := rng_st g h in
  ((- distance * 1.8 + (u - 0.5) * 0.3)%float, h').

Fixpoint logits_loop_st (classes : list TurbidityClass) (i : Z) (center : float)
    (g : Rng) (h : Store) : list float * Store :=
  match classes with
  | [] => ([], h)
  | _ :: rest =>
      let '(logit, h') := logit_at_st center i g h in
      let '(more, h'') := logits_loop_st rest (i + 1) center g h' in
      (logit :: more, h'')
  end.

Section ScorerState.

Variable exp_impl : float -> float.

(** [predict], run in a store. *)
Definition predict_st (image : PreprocessedImage) (h : Store)
    : PredictionResult * Store :=
  let center := center_of (brightness_of image) in
  let '(rng, h1) := createRng_st (hashTensor (data image)) h in
  let '(logits, h2) := logits_loop_st TURBIDITY_CLASSES 0 center rng h1 in
  (buildResult (softmax exp_impl logits), h2).

Variable sharp : Buffer -> Result Thrown RawImage.

(** [predict(await preprocessImage(buf))], run in a store. *)
Definition classify_st (imageBuffer : Buffer) (h : Store)
    : Result AppError PredictionResult * Store :=
  match preprocessImage sharp imageBuffer with
  | Ok image => let '(result, h') := predict_st image h in (Ok result, h')
  | Throw e => (Throw e, h)
  end.

End ScorerState.

(* ================================================================== *)
(** ** A reference [Math.exp] for running examples *)
(* ================================================================== *)

(** Argument reduction by multiples of [ln 2] and a degree-13 Taylor
    polynomial, evaluated in binary64.  It stands for the engine's
    [Math.exp] wherever an example has to be run. *)
Definition exp_taylor (r : float) : float :=
  fold_right (fun c acc => (c + r * acc)%float) 0%float
    [1; 1; 0.5; 0.16666666666666666; 0.041666666666666664;
     0.008333333333333333; 0.001388888888888889; 0.0001984126984126984;
     2.48015873015873e-05; 2.7557319223985893e-06; 2.755731922398589e-07;
     2.505210838544172e-08; 2.08767569878681e-09; 1.6059043836821613e-10]%float.

Definition exp_ref (x : float) : float :=
  let k := JS.Math_round (x * 1.4426950408889634)%float in
  let r := (x - k * 0.6931471803691238 - k * 1.9082149292705877e-10)%float in
  match JS.trunc k with
  | Some kz => Z.ldexp (exp_taylor r) kz
  | None => nan
  end.

(* ================================================================== *)
(** * Properties *)
(* ================================================================== *)

(** ** Lists as buffers: reads by index *)

(** [buf[i]] for an integer index: [None] stands for [undefined]. *)
Definition elem {A : Type} (l : list A) (i : Z) : option A :=
  if i <? 0 then None else nth_error l (Z.to_nat i).

(** The byte of channel [c] of pixel [(x, y)] in an interleaved RGB buffer
    that is [w] pixels wide. *)
Definition pixel_at (buf : Buffer) (w x y c : Z) : option byte :=
  elem buf ((y * w + x) * 3 + c).

Lemma len_app {A : Type} (l1 l2 : list A) : len (l1 ++ l2) = len l1 + len l2.
Proof. unfold len. rewrite length_app. lia. Qed.

Lemma len_nonneg {A : Type} (l : list A) : 0 <= len l.
Proof. unfold len. lia. Qed.

Lemma len_repeat {A : Type} (a : A) (n : nat) : len (repeat a n) = Z.of_nat n.
Proof. unfold len. now rewrite repeat_length. Qed.

Lemma elem_nth_error {A : Type} (l : list A) (i : Z) :
  0 <= i -> elem l i = nth_error l (Z.to_nat i).
Proof. intros H. unfold elem. destruct (Z.ltb_spec i 0); [lia | reflexivity]. Qed.

(** The three pieces a copy assembles, and what a read of the result
    returns. *)
Definition splice {A : Type} (target source : list A) (t s n : nat) : list A :=
  firstn t target ++ firstn n (skipn s source) ++ skipn (t + n) target.

Lemma splice_length {A : Type} (target source : list A) (t s n : nat) :
  (t + n <= length target)%nat -> (s + n <= length source)%nat ->
  length (splice target source t s n) = length target.
Proof.
  intros Ht Hs. unfold splice.
  rewrite !length_app, !length_firstn, !length_skipn. lia.
Qed.

Lemma splice_nth_error {A : Type} (target source : list A) (t s n k : nat) :
  (t + n <= length target)%nat -> (s + n <= length source)%nat ->
  nth_error (splice target source t s n) k =
    if (k <? t)%nat then nth_error target k
    else if (k <? t + n)%nat then nth_error source (s + (k - t))
    else nth_error target k.
Proof.
  intros Ht Hs. unfold splice.
  destruct (Nat.ltb_spec k t) as [Hk | Hk].
  - rewrite nth_error_app1 by (rewrite length_firstn; lia).
    rewrite nth_error_firstn.
    destruct (Nat.ltb_spec k t); [reflexivity | lia].
  - rewrite nth_error_app2 by (rewrite length_firstn; lia).
    rewrite length_firstn, Nat.min_l by lia.
    destruct (Nat.ltb_spec k (t + n)) as [Hk' | Hk'].
    + rewrite nth_error_app1 by (rewrite length_firstn, length_skipn; lia).
      rewrite nth_error_firstn.
      destruct (Nat.ltb_spec (k - t) n); [| lia].
      now rewrite nth_error_skipn.
    + rewrite nth_error_app2 by (rewrite length_firstn, length_skipn; lia).
      rewrite length_firstn, length_skipn, Nat.min_l by lia.
      rewrite nth_error_skipn. f_equal. lia.
Qed.

(** A copy whose source range exists and whose target range fits does
    not throw and is the splice. *)
Lemma Buffer_copy_in_range (source target : Buffer) (t s n : Z) :
  0 <= t -> 0 <= s -> 0 < n ->
  s + n <= len source -> t + n <= len target ->
  Buffer_copy source target t s (s + n) =
    Ok (splice target source (Z.to_nat t) (Z.to_nat s) (Z.to_nat n)).
Proof.
  intros Ht Hs Hn Hsrc Htgt. unfold Buffer_copy.
  replace ((t <? 0) || (s <? 0) || (len source <? s) || (s + n <? 0)) with false
    by (symmetry; repeat (apply orb_false_intro); apply Z.ltb_ge; lia).
  replace ((len target <=? t) || (s + n <=? s)) with false
    by (symmetry; apply orb_false_intro; apply Z.leb_gt; lia).
  unfold splice. do 4 f_equal.
  - rewrite Z.min_l by lia. rewrite Z.min_l by lia. lia.
  - rewrite Z.min_l by lia. rewrite Z.min_l by lia.
    replace (s + n - s) with n by lia. lia.
Qed.

(** ** Centre crop *)

Lemma crop_rows_spec (source : Buffer) :
  len source = RESIZE_SIZE * RESIZE_SIZE * 3 ->
  forall (rows : nat) (y : Z) (cropped : Buffer),
    0 <= y -> y + Z.of_nat rows = TARGET_SIZE ->
    len cropped = TARGET_SIZE * TARGET_SIZE * 3 ->
    exists out,
      crop_rows rows y source RESIZE_SIZE 16 16 cropped = Ok out
      /\ len out = TARGET_SIZE * TARGET_SIZE * 3
      /\ (forall k, 0 <= k < y * (TARGET_SIZE * 3) -> elem out k = elem cropped k)
      /\ (forall y' j, y <= y' < TARGET_SIZE -> 0 <= j < TARGET_SIZE * 3 ->
            elem out (y' * (TARGET_SIZE * 3) + j)
            = elem source (((16 + y') * RESIZE_SIZE + 16) * 3 + j)).
Proof.
  unfold RESIZE_SIZE, TARGET_SIZE. intros Hsrc.
  induction rows as [| rows IH]; intros y cropped Hy Hrows Hlen.
  - exists cropped. simpl. repeat split; auto. intros; lia.
  - cbn [crop_rows]. unfold TARGET_SIZE.
    replace (((16 + y) * 256 + 16) * 3 + 224 * 3)
      with (((16 + y) * 256 + 16) * 3 + 672) by lia.
    rewrite Buffer_copy_in_range by lia.
    cbn [bind].
    set (mid := splice cropped source _ _ _).
    assert (Hmid_len : len mid = 224 * 224 * 3).
    { unfold len, mid. rewrite splice_length; unfold len in *; lia. }
    assert (Hmid : forall k, 0 <= k ->
              elem mid k =
                if k <? y * 224 * 3 then elem cropped k
                else if k <? y * 224 * 3 + 672
                then elem source (((16 + y) * 256 + 16) * 3 + (k - y * 224 * 3))
                else elem cropped k).
    { intros k Hk. rewrite !elem_nth_error by lia. unfold mid.
      rewrite splice_nth_error by (unfold len in *; lia).
      destruct (Z.ltb_spec k (y * 224 * 3)), (Nat.ltb_spec (Z.to_nat k) (Z.to_nat (y * 224 * 3)));
        try lia; try reflexivity.
      destruct (Z.ltb_spec k (y * 224 * 3 + 672)),
        (Nat.ltb_spec (Z.to_nat k) (Z.to_nat (y * 224 * 3) + Z.to_nat 672));
        try lia; try reflexivity.
      f_equal. lia. }
    destruct (IH (y + 1) mid) as (out & Hout & Hlen' & Hlow & Hrowsout); try lia.
    exists out. split; [exact Hout |]. split; [exact Hlen' |]. split.
    + intros k Hk. rewrite Hlow by lia. rewrite Hmid by lia.
      destruct (Z.ltb_spec k (y * 224 * 3)); [reflexivity | lia].
    + intros y' j Hy' Hj.
      destruct (Z.eq_dec y' y) as [-> | Hne].
      * rewrite Hlow by lia. rewrite Hmid by lia.
        destruct (Z.ltb_spec (y * (224 * 3) + j) (y * 224 * 3)); [lia |].
        destruct (Z.ltb_spec (y * (224 * 3) + j) (y * 224 * 3 + 672)); [| lia].
        f_equal. lia.
      * apply Hrowsout; lia.
Qed.

(** C9: the centre crop of a 256x256x3 buffer uses the offsets (16, 16),
    does not throw, and is a copy: byte [c] of output pixel [(x, y)] is byte
    [c] of source pixel [(x + 16, y + 16)] for all [x], [y] in [[0, 224)];
    in particular output pixel (0, 0) is source pixel (16, 16). *)
Theorem center_crop_correct (resized : RawImage) :
  info_width resized = RESIZE_SIZE ->
  info_height resized = RESIZE_SIZE ->
  len (raw_data resized) = RESIZE_SIZE * RESIZE_SIZE * 3 ->
  cropLeft_of (info_width resized) = 16
  /\ cropTop_of (info_height resized) = 16
  /\ exists cropped,
       center_crop resized = Ok cropped
       /\ len cropped = TARGET_SIZE * TARGET_SIZE * 3
       /\ (forall x y c, 0 <= x < TARGET_SIZE -> 0 <= y < TARGET_SIZE -> 0 <= c < 3 ->
             pixel_at cropped TARGET_SIZE x y c
             = pixel_at (raw_data resized) RESIZE_SIZE (x + 16) (y + 16) c)
       /\ (forall c, 0 <= c < 3 ->
             pixel_at cropped TARGET_SIZE 0 0 c
             = pixel_at (raw_data resized) RESIZE_SIZE 16 16 c).
Proof.
  intros Hw Hh Hlen.
  assert (HL : cropLeft_of (info_width resized) = 16) by (rewrite Hw; reflexivity).
  assert (HT : cropTop_of (info_height resized) = 16) by (rewrite Hh; reflexivity).
  split; [exact HL |]. split; [exact HT |].
  unfold center_crop. rewrite HL, HT, Hw.
  destruct (crop_rows_spec (raw_data resized) Hlen (Z.to_nat TARGET_SIZE) 0
              (Buffer_alloc (TARGET_SIZE * TARGET_SIZE * 3)))
    as (out & Hout & Hlen' & _ & Hrows).
  - lia.
  - unfold TARGET_SIZE. lia.
  - unfold Buffer_alloc, TARGET_SIZE. rewrite len_repeat. lia.
  - exists out. split; [exact Hout |]. split; [exact Hlen' |].
    assert (Hpix : forall x y c, 0 <= x < TARGET_SIZE -> 0 <= y < TARGET_SIZE -> 0 <= c < 3 ->
             pixel_at out TARGET_SIZE x y c
             = pixel_at (raw_data resized) RESIZE_SIZE (x + 16) (y + 16) c).
    { intros x y c Hx Hy Hc. unfold pixel_at. unfold TARGET_SIZE, RESIZE_SIZE in *.
      replace ((y * 224 + x) * 3 + c) with (y * (224 * 3) + (x * 3 + c)) by lia.
      rewrite Hrows by lia. f_equal. lia. }
    split; [exact Hpix |].
    intros c Hc. apply (Hpix 0 0 c); unfold TARGET_SIZE; lia.
Qed.

(** ** The tensor layout *)

Lemma planes_spec (n : nat) :
  forall balanced : Buffer,
    let '(pR, pG, pB) := planes n balanced in
    length pR = n /\ length pG = n /\ length pB = n
    /\ forall i, (i < n)%nat ->
         nth_error pR i = Some (normalized 0 (nth_error balanced (3 * i)))
         /\ nth_error pG i = Some (normalized 1 (nth_error balanced (3 * i + 1)))
         /\ nth_error pB i = Some (normalized 2 (nth_error balanced (3 * i + 2))).
Proof.
  induction n as [| n IH]; intros balanced.
  - cbn. repeat split; auto; intros; lia.
  - cbn [planes]. specialize (IH (skipn 3 balanced)).
    destruct (planes n (skipn 3 balanced)) as [[pR pG] pB].
    destruct IH as (HR & HG & HB & Hnth).
    cbn [length]. repeat split; try congruence.
    all: destruct i as [| i]; [reflexivity |].
    all: cbn [nth_error]; destruct (Hnth i ltac:(lia)) as (H1 & H2 & H3).
    all: rewrite ?H1, ?H2, ?H3; do 2 f_equal; rewrite nth_error_skipn; f_equal; lia.
Qed.

(** The tensor has [3 * 224 * 224] entries, and entry [c * 224 * 224 + i]
    is the normalised byte [balanced[i * 3 + c]]. *)
Lemma to_tensor_layout (balanced : Buffer) :
  len (to_tensor balanced) = 3 * TARGET_SIZE * TARGET_SIZE
  /\ forall c i, 0 <= c < 3 -> 0 <= i < TARGET_SIZE * TARGET_SIZE ->
       elem (to_tensor balanced) (c * TARGET_SIZE * TARGET_SIZE + i)
       = Some (normalized (Z.to_nat c) (elem balanced (i * 3 + c))).
Proof.
  unfold to_tensor.
  pose proof (planes_spec (Z.to_nat (TARGET_SIZE * TARGET_SIZE)) balanced) as H.
  destruct (planes (Z.to_nat (TARGET_SIZE * TARGET_SIZE)) balanced) as [[pR pG] pB].
  destruct H as (HR & HG & HB & Hnth).
  unfold TARGET_SIZE in *. split.
  - rewrite !len_app. unfold len. lia.
  - intros c i Hc Hi. rewrite !elem_nth_error by lia.
    destruct (Hnth (Z.to_nat i) ltac:(lia)) as (H0 & H1 & H2).
    assert (Hc' : c = 0 \/ c = 1 \/ c = 2) by lia.
    destruct Hc' as [-> | [-> | ->]].
    + rewrite nth_error_app1 by lia.
      replace (Z.to_nat (0 * 224 * 224 + i)) with (Z.to_nat i) by lia.
      rewrite H0. do 2 f_equal. f_equal. lia.
    + rewrite nth_error_app2 by lia. rewrite nth_error_app1 by lia.
      replace (Z.to_nat (1 * 224 * 224 + i) - length pR)%nat with (Z.to_nat i) by lia.
      rewrite H1. do 2 f_equal. f_equal. lia.
    + rewrite nth_error_app2 by lia. rewrite nth_error_app2 by lia.
      replace (Z.to_nat (2 * 224 * 224 + i) - length pR - length pG)%nat
        with (Z.to_nat i) by lia.
      rewrite H2. do 2 f_equal. f_equal. lia.
Qed.

(** ** Gray-world: structure *)

Lemma scale_channels_length (sR sG sB : float) :
  forall pixels, length (scale_channels pixels sR sG sB) = length pixels.
Proof.
  fix IH 1. intros [| r [| g [| b rest]]]; cbn; try reflexivity.
  now rewrite IH.
Qed.

Lemma applyGrayWorld_length (pixels : Buffer) :
  len (applyGrayWorld pixels) = len pixels.
Proof.
  unfold applyGrayWorld. destruct (gray_world_scales pixels) as [[sR sG] sB].
  unfold len. now rewrite scale_channels_length.
Qed.

(** ** [hashTensor]: the loop as a fold over the sampled positions *)

(** The positions the loop visits: [0, step, 2 * step, ...] below [n]. *)
Definition sampled_indices (n step : Z) : list Z :=
  map (fun k => Z.of_nat k * step) (seq 0 (Z.to_nat ((n + step - 1) / step))).

(** The seed as the specification words it: a fold of the accumulation
    step over the sampled values, then the absolute value. *)
Definition hash_spec (tensor : Float32Array) : Z :=
  let step := Z.max 1 (len tensor / 256) in
  Z.abs
    (fold_left (fun hash i => hash_step hash (nth (Z.to_nat i) tensor nan))
       (sampled_indices (len tensor) step) 0).

Lemma wrap32_range (z : Z) : -2147483648 <= JS.wrap32 z < 2147483648.
Proof.
  unfold JS.wrap32.
  pose proof (Z.mod_pos_bound (z + 2147483648) 4294967296 eq_refl). lia.
Qed.

Lemma ToInt32_range (x : float) : -2147483648 <= JS.ToInt32 x < 2147483648.
Proof.
  unfold JS.ToInt32. destruct (JS.trunc x); [apply wrap32_range | lia].
Qed.

Lemma hash_step_range (hash : Z) (value : float) :
  -2147483648 <= hash_step hash value < 2147483648.
Proof. apply ToInt32_range. Qed.

Lemma hash_loop_fold (tensor : Float32Array) (step : Z) :
  1 <= step ->
  forall (fuel : nat) (i hash : Z),
    0 <= i ->
    (Z.to_nat ((len tensor - i + step - 1) / step) <= fuel)%nat ->
    hash_loop fuel tensor step i hash =
      fold_left (fun h j => hash_step h (nth (Z.to_nat j) tensor nan))
        (map (fun k => i + Z.of_nat k * step)
           (seq 0 (Z.to_nat ((len tensor - i + step - 1) / step))))
        hash.
Proof.
  intros Hstep. induction fuel as [| fuel IH]; intros i hash Hi Hfuel.
  - replace (Z.to_nat ((len tensor - i + step - 1) / step)) with 0%nat by lia.
    reflexivity.
  - cbn [hash_loop]. destruct (Z.ltb_spec i (len tensor)) as [Hlt | Hge].
    + assert (Hcnt : (len tensor - i + step - 1) / step
                     = (len tensor - (i + step) + step - 1) / step + 1).
      { rewrite <- Z.div_add by lia. f_equal. lia. }
      assert (Hpos : 0 <= (len tensor - (i + step) + step - 1) / step).
      { apply Z.div_pos; lia. }
      rewrite IH by lia.
      rewrite Hcnt, Z2Nat.inj_add, Nat.add_comm by lia.
      change (Z.to_nat 1) with 1%nat. cbn [Nat.add seq map fold_left].
      replace (i + Z.of_nat 0 * step) with i by lia.
      rewrite <- seq_shift, map_map. f_equal.
      apply map_ext. intros k. lia.
    + assert (Hz : (len tensor - i + step - 1) / step <= 0).
      { destruct (Z.eq_dec (len tensor - i + step - 1) (step - 1)) as [E | E].
        - rewrite E. rewrite Z.div_small by lia. lia.
        - apply Z.lt_succ_r. apply Z.div_lt_upper_bound; lia. }
      replace (Z.to_nat ((len tensor - i + step - 1) / step)) with 0%nat by lia.
      reflexivity.
Qed.

Lemma hash_stride_pos (tensor : Float32Array) : 1 <= hash_stride tensor.
Proof. unfold hash_stride. lia. Qed.

Lemma hashTensor_eq_spec (tensor : Float32Array) : hashTensor tensor = hash_spec tensor.
Proof.
  unfold hashTensor, hash_spec, sampled_indices.
  fold (hash_stride tensor). cbv zeta.
  pose proof (hash_stride_pos tensor) as Hs.
  rewrite (hash_loop_fold tensor (hash_stride tensor) Hs); try lia.
  - rewrite Z.sub_0_r. reflexivity.
  - replace (len tensor - 0 + hash_stride tensor - 1)
      with (len tensor + (hash_stride tensor - 1)) by lia.
    assert ((len tensor + (hash_stride tensor - 1)) / hash_stride tensor <= len tensor).
    { pose proof (len_nonneg tensor).
      apply Z.lt_succ_r. apply Z.div_lt_upper_bound; nia. }
    unfold len in *. lia.
Qed.

Lemma fold_hash_range (l : list Z) (f : Z -> float) :
  forall h, -2147483648 <= h < 2147483648 ->
    -2147483648 <= fold_left (fun hash i => hash_step hash (f i)) l h < 2147483648.
Proof.
  induction l as [| a l IH]; intros h Hh; cbn [fold_left]; [exact Hh |].
  apply IH, hash_step_range.
Qed.

(** The entries the loop reads, in order. *)
Definition sampled_values (tensor : Float32Array) : list float :=
  map (fun i => nth (Z.to_nat i) tensor nan)
    (sampled_indices (len tensor) (Z.max 1 (len tensor / 256))).

Lemma hashTensor_sampled (tensor : Float32Array) :
  hashTensor tensor = Z.abs (fold_left hash_step (sampled_values tensor) 0).
Proof.
  rewrite hashTensor_eq_spec. unfold hash_spec, sampled_values. cbv zeta.
  f_equal.
  assert (H : forall (g : Z -> float) (l : list Z) (h : Z),
             fold_left (fun hash i => hash_step hash (g i)) l h
             = fold_left hash_step (map g l) h).
  { intros g. induction l as [| i l IH]; intros h; cbn [map fold_left];
      [reflexivity | apply IH]. }
  apply H.
Qed.

Lemma sampled_indices_range (n step i : Z) :
  1 <= step -> In i (sampled_indices n step) -> 0 <= i < n.
Proof.
  intros Hs Hin. unfold sampled_indices in Hin. apply in_map_iff in Hin.
  destruct Hin as (k & <- & Hk). apply in_seq in Hk.
  destruct (Z.le_gt_cases n 0) as [Hn | Hn].
  - assert ((n + step - 1) / step <= 0).
    { apply Z.lt_succ_r. apply Z.div_lt_upper_bound; lia. }
    lia.
  - assert (Hq : Z.of_nat k < (n + step - 1) / step) by lia.
    assert (Hmul : step * ((n + step - 1) / step) <= n + step - 1).
    { apply Z.mul_div_le. lia. }
    nia.
Qed.


(** ** The generator: state after [k] calls *)

Definition MULBERRY_INCREMENT : Z := 0x6d2b79f5.

(** The state of the generator created from [seed] after [k] calls. *)
Definition state_after (seed k : Z) : Z :=
  JS.wrap32 (seed + k * MULBERRY_INCREMENT).

(** The number the call made in state [s] returns. *)
Definition rng_output (s : Z) : float := fst (rng_call s).

Lemma wrap32_idem_add (a b : Z) : JS.wrap32 (JS.wrap32 a + b) = JS.wrap32 (a + b).
Proof.
  unfold JS.wrap32. f_equal.
  replace ((a + 2147483648) mod 4294967296 - 2147483648 + b + 2147483648)
    with ((a + 2147483648) mod 4294967296 + b) by lia.
  rewrite Z.add_mod_idemp_l by lia. f_equal. lia.
Qed.

Lemma rng_call_state (s : Z) : snd (rng_call s) = JS.wrap32 (s + MULBERRY_INCREMENT).
Proof. reflexivity. Qed.

Lemma state_after_0 (seed : Z) : state_after seed 0 = createRng seed.
Proof. unfold state_after, createRng. f_equal. lia. Qed.

Lemma state_after_succ (seed k : Z) :
  snd (rng_call (state_after seed k)) = state_after seed (k + 1).
Proof.
  rewrite rng_call_state. unfold state_after.
  rewrite wrap32_idem_add. f_equal. lia.
Qed.

(** ** [predict]: brightness, centre and logits as the specification words them *)

Definition float_sum (l : list float) : float :=
  fold_left (fun a b => (a + b)%float) l 0%float.

(** [image.data[c * 224 * 224 + i] * std[c] + mean[c]]. *)
Definition unnormalized (tensor : Float32Array) (c : nat) (i : nat) : float :=
  (nth (c * (224 * 224) + i) tensor nan * stds c + means c)%float.

(** The mean over the [224 * 224] positions of channel [c]. *)
Definition channel_mean (tensor : Float32Array) (c : nat) : float :=
  (float_sum (map (unnormalized tensor c) (seq 0 (224 * 224))) / 50176)%float.

(** The mean over the three channels of the channel means. *)
Definition brightness_spec (tensor : Float32Array) : float :=
  (float_sum (map (channel_mean tensor) [0; 1; 2]%nat) / 3)%float.

Definition clamp (lo hi x : float) : float := JS.Math_min hi (JS.Math_max lo x).

Definition center_spec (brightness : float) : float :=
  clamp 0 5 (JS.Math_round ((1 - brightness) * 5)%float).

(** [logit_i = -|i - center| * 1.8 + (u - 0.5) * 0.3]. *)
Definition logit_spec (center : float) (i : Z) (u : float) : float :=
  (- abs (JS.of_Z i - center) * 1.8 + (u - 0.5) * 0.3)%float.

Lemma reads_nth (n : nat) :
  forall (l : Float32Array),
    reads n l = map (fun i => nth i l nan) (seq 0 n).
Proof.
  induction n as [| n IH]; intros l; [reflexivity |].
  cbn [reads seq map]. rewrite <- seq_shift, map_map.
  destruct l as [| v rest].
  - rewrite IH. cbn [nth]. f_equal. apply map_ext. intros [| k]; reflexivity.
  - rewrite IH. reflexivity.
Qed.

Lemma nth_skipn {A : Type} (l : list A) (k i : nat) (d : A) :
  nth i (skipn k l) d = nth (k + i) l d.
Proof.
  revert l. induction k as [| k IH]; intros l; [reflexivity |].
  destruct l as [| a l]; cbn [skipn Nat.add nth].
  - destruct i; reflexivity.
  - apply IH.
Qed.

Lemma fold_left_map_add (f : float -> float) (l : list float) :
  forall acc,
    fold_left (fun a v => (a + f v)%float) l acc
    = fold_left (fun a b => (a + b)%float) (map f l) acc.
Proof. induction l as [| v l IH]; intros acc; [reflexivity | apply IH]. Qed.

Lemma channel_sum_spec (image : PreprocessedImage) (c : nat) :
  height image = 224 -> width image = 224 ->
  channel_sum image c
  = float_sum (map (unnormalized (data image) c) (seq 0 (224 * 224))).
Proof.
  intros Hh Hw. unfold channel_sum, float_sum. rewrite Hh, Hw.
  rewrite fold_left_map_add, reads_nth, map_map.
  replace (Z.to_nat (224 * 224)) with (224 * 224)%nat by lia.
  f_equal. apply map_ext. intros i. unfold unnormalized.
  rewrite nth_skipn. do 3 f_equal. lia.
Qed.

Lemma of_Z_50176 : JS.of_Z (224 * 224) = 50176%float.
Proof. vm_compute. reflexivity. Qed.

Lemma of_Z_5 : JS.of_Z (classCount - 1) = 5%float.
Proof. vm_compute. reflexivity. Qed.

Lemma brightness_of_spec (image : PreprocessedImage) :
  height image = 224 -> width image = 224 ->
  brightness_of image = brightness_spec (data image).
Proof.
  intros Hh Hw. unfold brightness_of, brightness_spec, float_sum, channel_mean.
  cbn [fold_left map].
  rewrite !channel_sum_spec by assumption.
  rewrite Hh, Hw, of_Z_50176. reflexivity.
Qed.

Lemma center_of_spec (brightness : float) : center_of brightness = center_spec brightness.
Proof. unfold center_of, center_spec, clamp. rewrite of_Z_5. reflexivity. Qed.

Lemma logits_loop_spec (center : float) (seed : Z) :
  forall (classes : list TurbidityClass) (i : Z),
    0 <= i ->
    logits_loop classes i center (state_after seed i)
    = (map (fun k => logit_spec center (i + Z.of_nat k)
                       (rng_output (state_after seed (i + Z.of_nat k))))
         (seq 0 (length classes)),
       state_after seed (i + len classes)).
Proof.
  induction classes as [| cls rest IH]; intros i Hi.
  - cbn. unfold len. cbn. now rewrite Z.add_0_r.
  - cbn [logits_loop]. unfold logit_at.
    pose proof (state_after_succ seed i) as Hs.
    unfold rng_output.
    destruct (rng_call (state_after seed i)) as [u s'] eqn:Hcall.
    cbn [snd] in Hs. subst s'.
    rewrite IH by lia.
    cbn [length seq map]. f_equal.
    + f_equal.
      * unfold logit_spec. rewrite Z.add_0_r, Hcall. reflexivity.
      * rewrite <- seq_shift, map_map. apply map_ext. intros k.
        replace (i + 1 + Z.of_nat k) with (i + Z.of_nat (S k)) by lia.
        reflexivity.
    + f_equal. unfold len. cbn [length]. lia.
Qed.

(** C4: for a 224x224 image, [predict] scores the logits
    [-|i - center| * 1.8 + (u_i - 0.5) * 0.3] for [i = 0 .. 5] in canonical
    order, where [center = clamp(round((1 - brightness) * 5), 0, 5)],
    [brightness] is the mean over the three channels of the means over
    the [224 * 224] positions of [value * std[c] + mean[c]], and [u_i] is
    the number the generator seeded with [hashTensor] returns on its
    [(i + 1)]-th call; the generator is left in the state after exactly
    six calls. *)
Theorem predict_logits_spec (exp_impl : float -> float) (image : PreprocessedImage) :
  height image = 224 -> width image = 224 ->
  let center := center_spec (brightness_spec (data image)) in
  let seed := hashTensor (data image) in
  let logits :=
    map (fun i => logit_spec center i (rng_output (state_after seed i)))
      [0; 1; 2; 3; 4; 5] in
  predict_logits image = (logits, state_after seed 6)
  /\ predict exp_impl image = buildResult (softmax exp_impl logits).
Proof.
  intros Hh Hw center seed logits.
  assert (H : predict_logits image = (logits, state_after seed 6)).
  { unfold predict_logits.
    rewrite brightness_of_spec, center_of_spec by assumption.
    fold center. fold seed. rewrite <- state_after_0.
    rewrite (logits_loop_spec center seed TURBIDITY_CLASSES 0) by lia.
    reflexivity. }
  split; [exact H |].
  unfold predict. rewrite H. reflexivity.
Qed.

(** ** The order of binary64 values *)

(** [a < b] and [a <= b] as JavaScript compares numbers. *)
Definition flt (a b : float) : Prop := PrimFloat.ltb a b = true.
Definition fle (a b : float) : Prop := PrimFloat.leb a b = true.

(** A key that orders the values other than NaN: class (infinities,
    signs, zero), then exponent, then mantissa. *)
Definition rank (x : spec_float) : Z * Z * Z :=
  match x with
  | S754_infinity true => (-2, 0, 0)
  | S754_finite true m e => (-1, - e, - Zpos m)
  | S754_zero _ => (0, 0, 0)
  | S754_nan => (0, 0, 0)
  | S754_finite false m e => (1, e, Zpos m)
  | S754_infinity false => (2, 0, 0)
  end.

Definition lex_lt (p q : Z * Z * Z) : Prop :=
  let '(a, b, c) := p in
  let '(a', b', c') := q in
  a < a' \/ (a = a' /\ (b < b' \/ (b = b' /\ c < c'))).

Definition lex_le (p q : Z * Z * Z) : Prop :=
  let '(a, b, c) := p in
  let '(a', b', c') := q in
  a < a' \/ (a = a' /\ (b < b' \/ (b = b' /\ c <= c'))).

Definition not_nan (x : spec_float) : Prop := x <> S754_nan.

Ltac float_cases :=
  repeat match goal with
         | s : bool |- _ => destruct s
         end;
  cbn;
  repeat match goal with
         | |- context [Z.compare ?a ?b] =>
             destruct (Z.compare_spec a b); cbn
         | |- context [Pos.compare_cont Eq ?a ?b] =>
             change (Pos.compare_cont Eq a b) with (Pos.compare a b);
             destruct (Pos.compare_spec a b); cbn
         end;
  split; intros; try discriminate; try reflexivity; try lia.

Lemma SFltb_rank (x y : spec_float) :
  not_nan x -> not_nan y ->
  (SFltb x y = true <-> lex_lt (rank x) (rank y)).
Proof.
  unfold not_nan, SFltb, SFcompare, lex_lt, rank. intros Hx Hy.
  destruct x as [sx | sx | | sx mx ex], y as [sy | sy | | sy my ey];
    try congruence; float_cases.
Qed.

Lemma SFleb_rank (x y : spec_float) :
  not_nan x -> not_nan y ->
  (SFleb x y = true <-> lex_le (rank x) (rank y)).
Proof.
  unfold not_nan, SFleb, SFcompare, lex_le, rank. intros Hx Hy.
  destruct x as [sx | sx | | sx mx ex], y as [sy | sy | | sy my ey];
    try congruence; float_cases.
Qed.

Lemma is_nan_false (x : float) : is_nan x = false <-> not_nan (Prim2SF x).
Proof.
  unfold is_nan, not_nan. rewrite eqb_spec. unfold SFeqb, SFcompare.
  destruct (Prim2SF x) as [s | s | | s m e]; cbn.
  - split; [discriminate | reflexivity].
  - destruct s; (split; [discriminate | reflexivity]).
  - split; [discriminate | congruence].
  - rewrite Z.compare_refl.
    change (Pos.compare_cont Eq m m) with (Pos.compare m m).
    rewrite Pos.compare_refl. destruct s; (split; [discriminate | reflexivity]).
Qed.

Lemma flt_rank (a b : float) :
  is_nan a = false -> is_nan b = false ->
  (flt a b <-> lex_lt (rank (Prim2SF a)) (rank (Prim2SF b))).
Proof.
  intros Ha Hb. unfold flt. rewrite ltb_spec.
  apply SFltb_rank; now apply is_nan_false.
Qed.

Lemma fle_rank (a b : float) :
  is_nan a = false -> is_nan b = false ->
  (fle a b <-> lex_le (rank (Prim2SF a)) (rank (Prim2SF b))).
Proof.
  intros Ha Hb. unfold fle. rewrite leb_spec.
  apply SFleb_rank; now apply is_nan_false.
Qed.

Ltac rank_order :=
  repeat match goal with
         | H : flt _ _ |- _ => apply flt_rank in H; [| assumption ..]
         | H : fle _ _ |- _ => apply fle_rank in H; [| assumption ..]
         | H : ~ flt _ _ |- _ => rewrite flt_rank in H by assumption
         | H : ~ fle _ _ |- _ => rewrite fle_rank in H by assumption
         | |- flt _ _ => apply flt_rank; [assumption .. |]
         | |- fle _ _ => apply fle_rank; [assumption .. |]
         end;
  repeat match goal with
         | |- context [rank ?x] =>
             let a := fresh "a" in let b := fresh "b" in let c := fresh "c" in
             destruct (rank x) as [[a b] c]
         | H : context [rank ?x] |- _ =>
             let a := fresh "a" in let b := fresh "b" in let c := fresh "c" in
             destruct (rank x) as [[a b] c]
         end;
  unfold lex_lt, lex_le in *; lia.

Section FloatOrder.

Variables a b c : float.
Hypothesis Ha : is_nan a = false.
Hypothesis Hb : is_nan b = false.
Hypothesis Hc : is_nan c = false.

Lemma fle_refl : fle a a.
Proof. rank_order. Qed.

Lemma flt_fle : flt a b -> fle a b.
Proof. intros H. rank_order. Qed.

Lemma not_flt_fle : ~ flt a b -> fle b a.
Proof. intros H. rank_order. Qed.

Lemma fle_trans : fle a b -> fle b c -> fle a c.
Proof. intros H1 H2. rank_order. Qed.

Lemma fle_flt_trans : fle a b -> flt b c -> flt a c.
Proof. intros H1 H2. rank_order. Qed.

Lemma flt_fle_trans : flt a b -> fle b c -> flt a c.
Proof. intros H1 H2. rank_order. Qed.

Lemma flt_not_fle : flt a b -> ~ fle b a.
Proof. intros H1 H2. rank_order. Qed.

End FloatOrder.

Lemma flt_dec (a b : float) : {flt a b} + {~ flt a b}.
Proof.
  unfold flt. destruct (PrimFloat.ltb a b); [left | right]; congruence.
Qed.

(** Nothing but [-Infinity] is at most [-Infinity]. *)
Lemma fle_neg_infinity (a : float) :
  is_nan a = false -> fle a neg_infinity -> a = neg_infinity.
Proof.
  intros Ha H. apply Prim2SF_inj.
  apply fle_rank in H; [| assumption | reflexivity].
  apply is_nan_false in Ha. unfold not_nan in Ha.
  change (Prim2SF neg_infinity) with (S754_infinity true) in *.
  destruct (Prim2SF a) as [s | s | | s m e]; try congruence;
    try destruct s; cbn in H; try lia; reflexivity.
Qed.

(** ** [buildResult] *)

Definition class_entry (cp : TurbidityClass * float) : ClassProbability :=
  {| className := fst cp; cp_label := TURBIDITY_LABELS (fst cp); probability := snd cp |}.

(** What the loop has established once the indices below [i] are done:
    [maxProb] is at least every probability seen, strictly above those
    before [maxIdx], and (once something was seen) it is the probability at
    [maxIdx]. *)
Definition argmax_inv (probs : list float) (i maxIdx : nat) (maxProb : float) : Prop :=
  is_nan maxProb = false
  /\ (forall j p, (j < i)%nat -> nth_error probs j = Some p -> fle p maxProb)
  /\ (forall j p, (j < maxIdx)%nat -> nth_error probs j = Some p -> flt p maxProb)
  /\ (i = 0%nat -> maxIdx = 0%nat /\ maxProb = neg_infinity)
  /\ ((0 < i)%nat -> (maxIdx < i)%nat /\ nth_error probs maxIdx = Some maxProb).

Lemma build_loop_spec (probs : list float) :
  Forall (fun p => is_nan p = false) probs ->
  forall (classes : list TurbidityClass) (i maxIdx : nat) (maxProb : float),
    (i + length classes <= length probs)%nat ->
    argmax_inv probs i maxIdx maxProb ->
    exists maxIdx' maxProb',
      build_loop classes i probs maxIdx maxProb
      = (map class_entry (combine classes (skipn i probs)), maxIdx', maxProb')
      /\ argmax_inv probs (i + length classes) maxIdx' maxProb'.
Proof.
  intros Hnan. induction classes as [| cls rest IH]; intros i maxIdx maxProb Hlen Hinv.
  - exists maxIdx, maxProb. cbn. rewrite Nat.add_0_r. auto.
  - cbn [length] in Hlen. cbn [build_loop].
    destruct (nth_error probs i) as [p |] eqn:Hp;
      [| apply nth_error_None in Hp; lia].
    assert (Hpn : is_nan p = false).
    { rewrite Forall_forall in Hnan. apply Hnan. eapply nth_error_In; eauto. }
    assert (Hskip : skipn i probs = p :: skipn (S i) probs).
    { clear - Hp. revert i Hp. induction probs as [| q probs IHp]; intros [| i] Hp;
        cbn in *; try discriminate.
      - now inversion Hp.
      - now apply IHp. }
    destruct Hinv as (Hmn & Hle & Hlt & H0 & Hpos).
    set (st := if PrimFloat.ltb maxProb p then (i, p) else (maxIdx, maxProb)).
    assert (Hst : argmax_inv probs (S i) (fst st) (snd st)).
    { unfold st. destruct (flt_dec maxProb p) as [Hgt | Hngt].
      - unfold flt in Hgt. rewrite Hgt. cbn [fst snd].
        split; [exact Hpn |]. split; [| split; [| split]].
        + intros j q Hj Hq.
          assert (Hqn : is_nan q = false).
          { rewrite Forall_forall in Hnan. apply Hnan. eapply nth_error_In; eauto. }
          destruct (Nat.eq_dec j i) as [-> | Hne].
          * rewrite Hp in Hq. inversion Hq; subst. now apply fle_refl.
          * apply flt_fle; try assumption.
            apply (fle_flt_trans q maxProb p); try assumption.
            apply (Hle j); [lia | assumption].
        + intros j q Hj Hq.
          assert (Hqn : is_nan q = false).
          { rewrite Forall_forall in Hnan. apply Hnan. eapply nth_error_In; eauto. }
          apply (fle_flt_trans q maxProb p); try assumption.
          apply (Hle j); [lia | assumption].
        + intros; lia.
        + intros _. split; [lia | exact Hp].
      - assert (Hf : PrimFloat.ltb maxProb p = false).
        { unfold flt in Hngt. destruct (PrimFloat.ltb maxProb p); congruence. }
        rewrite Hf. cbn [fst snd].
        assert (Hpm : fle p maxProb) by (apply not_flt_fle; assumption).
        split; [exact Hmn |]. split; [| split; [| split]].
        + intros j q Hj Hq.
          destruct (Nat.eq_dec j i) as [-> | Hne].
          * rewrite Hp in Hq. inversion Hq; subst. exact Hpm.
          * apply (Hle j); [lia | assumption].
        + exact Hlt.
        + intros; lia.
        + intros _. destruct (Nat.eq_dec i 0) as [-> | Hi].
          * destruct (H0 eq_refl) as [-> ->].
            split; [lia |]. rewrite Hp. f_equal. now apply fle_neg_infinity.
          * destruct (Hpos ltac:(lia)). split; [lia | assumption]. }
    destruct st as [mi mp] eqn:Est. cbn [fst snd] in Hst.
    destruct (IH (S i) mi mp ltac:(lia) Hst) as (mi' & mp' & Hloop & Hinv').
    exists mi', mp'. cbv beta iota. rewrite Hloop. split.
    + rewrite Hskip. reflexivity.
    + cbn [length]. replace (i + S (length rest))%nat with (S i + length rest)%nat by lia.
      exact Hinv'.
Qed.

(** C7: for six probabilities none of which is NaN, the predicted class is
    the class at the first index [m] that carries the largest
    probability (every probability is at most it, those before [m] are
    strictly below), the confidence is that probability, label and NTU
    range are those of the predicted class, and the probability list is in
    canonical class order. *)
Theorem buildResult_argmax (probs : list float) :
  length probs = 6%nat ->
  Forall (fun p => is_nan p = false) probs ->
  let r := buildResult probs in
  exists m : nat,
    (m < 6)%nat
    /\ nth_error TURBIDITY_CLASSES m = Some (predictedClass r)
    /\ nth_error probs m = Some (confidence r)
    /\ (forall j p, nth_error probs j = Some p -> fle p (confidence r))
    /\ (forall j p, (j < m)%nat -> nth_error probs j = Some p -> flt p (confidence r))
    /\ label r = TURBIDITY_LABELS (predictedClass r)
    /\ ntuRange r = NTU_RANGES (predictedClass r)
    /\ probabilities r = map class_entry (combine TURBIDITY_CLASSES probs).
Proof.
  intros Hlen Hnan r.
  assert (Hinit : argmax_inv probs 0 0 neg_infinity).
  { repeat split; try reflexivity; intros; lia. }
  destruct (build_loop_spec probs Hnan TURBIDITY_CLASSES 0 0 neg_infinity
              ltac:(cbn [length TURBIDITY_CLASSES]; lia) Hinit)
    as (m & mp & Hloop & Hinv).
  cbn [length TURBIDITY_CLASSES Nat.add] in Hinv. cbn [skipn] in Hloop.
  destruct Hinv as (_ & Hle & Hlt & _ & Hpos).
  destruct (Hpos ltac:(lia)) as [Hm Hmp].
  unfold r, buildResult. rewrite Hloop. cbn [predictedClass confidence label ntuRange probabilities].
  exists m. split; [exact Hm |]. split.
  { clear - Hm. do 6 (destruct m as [| m]; [reflexivity |]). lia. }
  split; [exact Hmp |]. split.
  { intros j p Hj. apply (Hle j); [| exact Hj].
    rewrite <- Hlen. apply nth_error_Some. congruence. }
  split; [exact Hlt |]. repeat split.
Qed.

(** ** Example inputs *)

(** The 256x256 image every pixel of which is mid-gray (128, 128, 128). *)
Definition gray_raw : RawImage :=
  {| raw_data := repeat x80 (Z.to_nat (256 * 256 * 3));
     info_width := 256; info_height := 256 |}.

(** A stand-in for the decoder: it rejects the empty buffer as [sharp]
    does, and decodes anything else to the mid-gray image. *)
Definition sharp_gray (buf : Buffer) : Result Thrown RawImage :=
  match buf with
  | [] => Throw (ThrownError "Input Buffer is empty"%string)
  | _ => Ok gray_raw
  end.

Lemma sharp_gray_shape (buf : Buffer) (raw : RawImage) :
  sharp_gray buf = Ok raw ->
  info_width raw = RESIZE_SIZE /\ info_height raw = RESIZE_SIZE
  /\ len (raw_data raw) = RESIZE_SIZE * RESIZE_SIZE * 3.
Proof.
  destruct buf; intros H; inversion H; subst.
  split; [reflexivity |]. split; [reflexivity |].
  unfold gray_raw, RESIZE_SIZE. cbn [raw_data].
  rewrite len_repeat. lia.
Defined.

Lemma sharp_gray_throws (buf : Buffer) (t : Thrown) :
  sharp_gray buf = Throw t -> forall e, t <> ThrownAppError e.
Proof.
  destruct buf; intros H; inversion H; subst. intros e He. discriminate He.
Defined.

(** The centre crop of a 256x256x3 buffer goes through and fills the
    whole 224x224x3 buffer. *)
Lemma center_crop_ok (resized : RawImage) :
  info_width resized = RESIZE_SIZE ->
  info_height resized = RESIZE_SIZE ->
  len (raw_data resized) = RESIZE_SIZE * RESIZE_SIZE * 3 ->
  exists cropped,
    center_crop resized = Ok cropped
    /\ len cropped = TARGET_SIZE * TARGET_SIZE * 3.
Proof.
  intros Hw Hh Hlen. unfold center_crop. rewrite Hw, Hh.
  change (cropLeft_of RESIZE_SIZE) with 16. change (cropTop_of RESIZE_SIZE) with 16.
  destruct (crop_rows_spec (raw_data resized) Hlen (Z.to_nat TARGET_SIZE) 0
              (Buffer_alloc (TARGET_SIZE * TARGET_SIZE * 3)))
    as (out & Hout & Hlen' & _).
  - lia.
  - unfold TARGET_SIZE. lia.
  - unfold Buffer_alloc, TARGET_SIZE. rewrite len_repeat. lia.
  - exists out. split; assumption.
Qed.

(** ** Error behaviour of [preprocessImage] *)

Section ErrorBehaviour.

Variable sharp : Buffer -> Result Thrown RawImage.

(** What [resize(256, 256, { fit: "cover" })], [removeAlpha()] and [raw()]
    guarantee of a decoded image. *)
Hypothesis sharp_shape : forall buf raw,
  sharp buf = Ok raw ->
  info_width raw = RESIZE_SIZE /\ info_height raw = RESIZE_SIZE
  /\ len (raw_data raw) = RESIZE_SIZE * RESIZE_SIZE * 3.

(** The decoder knows nothing of [AppError]: it never throws one. *)
Hypothesis sharp_throws : forall buf t,
  sharp buf = Throw t -> forall e, t <> ThrownAppError e.

Lemma preprocess_body_ok (buf : Buffer) (raw : RawImage) :
  sharp buf = Ok raw ->
  exists cropped,
    center_crop raw = Ok cropped
    /\ len cropped = TARGET_SIZE * TARGET_SIZE * 3
    /\ preprocessImage sharp buf
       = Ok {| data := to_tensor (applyGrayWorld cropped); channels := 3;
               height := TARGET_SIZE; width := TARGET_SIZE |}.
Proof.
  intros Hraw. destruct (sharp_shape buf raw Hraw) as (Hw & Hh & Hlen).
  destruct (center_crop_ok raw Hw Hh Hlen) as (cropped & Hc & Hl).
  exists cropped. split; [exact Hc |]. split; [exact Hl |].
  unfold preprocessImage, preprocess_body. rewrite Hraw. cbn [bind].
  rewrite Hc. reflexivity.
Qed.

Lemma preprocess_throw (buf : Buffer) (t : Thrown) :
  sharp buf = Throw t ->
  preprocessImage sharp buf =
    Throw match t with
          | ThrownAppError e => e
          | ThrownError msg => AppErrors.imageProcessing msg
          | ThrownOther => AppErrors.imageProcessing "Unknown error"%string
          end.
Proof.
  intros Ht. unfold preprocessImage, preprocess_body. rewrite Ht. cbn [bind].
  destruct t; reflexivity.
Qed.

(** C10: [preprocessImage] fails exactly when the decoder fails; the error
    is then of the single kind [IMAGE_PROCESSING_FAILED] and carries the
    decoder's message; once an image is decoded, cropping, balancing,
    normalising, scoring and result building go through, with a full
    tensor of [3 * 224 * 224] values. *)
Theorem preprocessImage_errors (buf : Buffer) :
  ((exists e, preprocessImage sharp buf = Throw e) <-> (exists t, sharp buf = Throw t))
  /\ (forall e, preprocessImage sharp buf = Throw e -> code e = IMAGE_PROCESSING_FAILED)
  /\ (forall msg, sharp buf = Throw (ThrownError msg) ->
        preprocessImage sharp buf = Throw (AppErrors.imageProcessing msg)
        /\ message (AppErrors.imageProcessing msg)
           = String.append "Image processing failed: "%string msg)
  /\ (forall raw, sharp buf = Ok raw ->
        exists image,
          preprocessImage sharp buf = Ok image
          /\ len (data image) = 3 * TARGET_SIZE * TARGET_SIZE
          /\ forall exp_impl,
               classify exp_impl sharp buf = Ok (predict exp_impl image)).
Proof.
  destruct (sharp buf) as [raw | t] eqn:Hs.
  - destruct (preprocess_body_ok buf raw Hs) as (cropped & Hc & Hl & Hp).
    split; [| split; [| split]].
    + split; intros [x Hx]; [rewrite Hp in Hx |]; discriminate Hx.
    + intros e He. rewrite Hp in He. discriminate He.
    + intros msg Hm. discriminate Hm.
    + intros raw' Hraw'. inversion Hraw'; subst raw'.
      eexists. split; [exact Hp |]. split.
      * cbn [data]. apply to_tensor_layout.
      * intros exp_impl. unfold classify. rewrite Hp. reflexivity.
  - pose proof (preprocess_throw buf t Hs) as Hp.
    split; [| split; [| split]].
    + split; intros _; eauto.
    + intros e He. rewrite Hp in He. inversion He; subst e.
      destruct t as [e' | msg |]; try reflexivity.
      exfalso. exact (sharp_throws buf _ Hs e' eq_refl).
    + intros msg Hm. inversion Hm; subst t. split; [exact Hp | reflexivity].
    + intros raw Hraw. discriminate Hraw.
Qed.

End ErrorBehaviour.

Lemma preprocessImage_errors_witness :
  ((exists e, preprocessImage sharp_gray [] = Throw e)
   <-> (exists t, sharp_gray [] = Throw t))
  /\ (forall e, preprocessImage sharp_gray [] = Throw e -> code e = IMAGE_PROCESSING_FAILED)
  /\ (forall msg, sharp_gray [] = Throw (ThrownError msg) ->
        preprocessImage sharp_gray [] = Throw (AppErrors.imageProcessing msg)
        /\ message (AppErrors.imageProcessing msg)
           = String.append "Image processing failed: "%string msg)
  /\ (forall raw, sharp_gray [] = Ok raw ->
        exists image,
          preprocessImage sharp_gray [] = Ok image
          /\ len (data image) = 3 * TARGET_SIZE * TARGET_SIZE
          /\ forall exp_impl,
               classify exp_impl sharp_gray [] = Ok (predict exp_impl image)).
Proof.
  exact (preprocessImage_errors sharp_gray sharp_gray_shape sharp_gray_throws []).
Defined.

(** ** Determinism *)

Lemma store_set_last (h : Store) (s s' : Z) :
  store_set (h ++ [s]) (length h) s' = h ++ [s'].
Proof. induction h as [| x h IH]; cbn; [reflexivity | now rewrite IH]. Qed.

Lemma rng_st_own (h : Store) (s : Z) :
  rng_st (length h) (h ++ [s]) = (fst (rng_call s), h ++ [snd (rng_call s)]).
Proof.
  unfold rng_st. rewrite nth_middle.
  destruct (rng_call s) as [u s'] eqn:E. cbn [fst snd].
  now rewrite store_set_last.
Qed.

(** The loop run on the newest closure reads and writes that closure's
    variable only: the logits are those of the state-passing loop and the
    rest of the store is as it was. *)
Lemma logits_loop_st_own (center : float) (h : Store) :
  forall (classes : list TurbidityClass) (i s : Z),
    logits_loop_st classes i center (length h) (h ++ [s])
    = (fst (logits_loop classes i center s),
       h ++ [snd (logits_loop classes i center s)]).
Proof.
  induction classes as [| c classes IH]; intros i s; [reflexivity |].
  cbn [logits_loop_st logits_loop]. unfold logit_at_st, logit_at.
  rewrite rng_st_own. destruct (rng_call s) as [u s'] eqn:E. cbn [fst snd].
  rewrite IH. destruct (logits_loop classes (i + 1) center s') as [more s''].
  reflexivity.
Qed.

Lemma predict_st_spec (exp_impl : float -> float) (image : PreprocessedImage)
    (h : Store) :
  predict_st exp_impl image h
  = (predict exp_impl image, h ++ [snd (predict_logits image)]).
Proof.
  unfold predict_st, createRng_st, predict, predict_logits.
  rewrite logits_loop_st_own. reflexivity.
Qed.

Lemma predict_logits_state (image : PreprocessedImage) :
  snd (predict_logits image) = state_after (hashTensor (data image)) 6.
Proof.
  unfold predict_logits. rewrite <- state_after_0.
  rewrite (logits_loop_spec _ (hashTensor (data image)) TURBIDITY_CLASSES 0) by lia.
  reflexivity.
Qed.

Lemma softmax_ext (exp_impl exp_impl' : float -> float) (logits : list float) :
  (forall x, exp_impl x = exp_impl' x) ->
  softmax exp_impl logits = softmax exp_impl' logits.
Proof.
  intros H. unfold softmax.
  assert (E : map (fun v => JS.Math_exp exp_impl (v - JS.Math_max_list logits)%float) logits
              = map (fun v => JS.Math_exp exp_impl' (v - JS.Math_max_list logits)%float) logits).
  { apply map_ext. intros v. unfold JS.Math_exp. now rewrite H. }
  cbv zeta. now rewrite E.
Qed.

Lemma predict_ext (exp_impl exp_impl' : float -> float) (image image' : PreprocessedImage) :
  (forall x, exp_impl x = exp_impl' x) ->
  data image = data image' -> height image = height image' ->
  width image = width image' ->
  predict exp_impl image = predict exp_impl' image'.
Proof.
  intros He Hd Hh Hw.
  unfold predict, predict_logits, brightness_of, channel_sum.
  rewrite Hd, Hh, Hw. f_equal. now apply softmax_ext.
Qed.

(** C1: the pipeline run twice on the same bytes returns the same result,
    every field of the [PredictionResult] and every probability: whatever
    the store of generator variables at the two runs (the second run
    starts in the store the first one leaves), as long as the decoder
    returns the same image for the same bytes and [Math.exp] the same
    number for the same argument.  [predict] leaves every variable of the
    store as it found it and adds one, its own generator's; its result is
    a function of the tensor and its dimensions, the seed being
    [hashTensor] of the tensor. *)
Theorem pipeline_deterministic (exp_impl exp_impl' : float -> float)
    (sharp sharp' : Buffer -> Result Thrown RawImage) (buf : Buffer)
    (h h' : Store) :
  sharp buf = sharp' buf ->
  (forall x, exp_impl x = exp_impl' x) ->
  fst (classify_st exp_impl sharp buf h) = fst (classify_st exp_impl' sharp' buf h')
  /\ fst (classify_st exp_impl' sharp' buf (snd (classify_st exp_impl sharp buf h)))
     = fst (classify_st exp_impl sharp buf h)
  /\ (forall image g,
        exists s,
          predict_st exp_impl image g = (predict exp_impl image, g ++ [s])
          /\ s = state_after (hashTensor (data image)) 6)
  /\ (forall image image' g g',
        data image = data image' -> height image = height image' ->
        width image = width image' ->
        fst (predict_st exp_impl image g) = fst (predict_st exp_impl' image' g')).
Proof.
  intros Hs He.
  assert (Hpre : preprocessImage sharp buf = preprocessImage sharp' buf).
  { unfold preprocessImage, preprocess_body. now rewrite Hs. }
  assert (Hrun : forall g g',
             fst (classify_st exp_impl sharp buf g)
             = fst (classify_st exp_impl' sharp' buf g')).
  { intros g g'. unfold classify_st. rewrite <- Hpre.
    destruct (preprocessImage sharp buf) as [image | e]; [| reflexivity].
    rewrite !predict_st_spec. cbn [fst]. f_equal. now apply predict_ext. }
  split; [apply Hrun |]. split; [symmetry; apply Hrun |]. split.
  - intros image g. eexists. split; [apply predict_st_spec |].
    apply predict_logits_state.
  - intros image image' g g' Hd Hh Hw. rewrite !predict_st_spec. cbn [fst].
    now apply predict_ext.
Qed.

Lemma pipeline_deterministic_witness :
  fst (classify_st exp_ref sharp_gray [x00] [])
  = fst (classify_st exp_ref sharp_gray [x00] [7])
  /\ fst (classify_st exp_ref sharp_gray [x00]
            (snd (classify_st exp_ref sharp_gray [x00] [])))
     = fst (classify_st exp_ref sharp_gray [x00] [])
  /\ (forall image g,
        exists s,
          predict_st exp_ref image g = (predict exp_ref image, g ++ [s])
          /\ s = state_after (hashTensor (data image)) 6)
  /\ (forall image image' g g',
        data image = data image' -> height image = height image' ->
        width image = width image' ->
        fst (predict_st exp_ref image g) = fst (predict_st exp_ref image' g')).
Proof.
  exact (pipeline_deterministic exp_ref exp_ref sharp_gray sharp_gray [x00] [] [7]
           eq_refl (fun x => eq_refl)).
Defined.

(** ** The claims at concrete inputs *)

(** The tensor of the mid-gray image, as a 224x224 image. *)
Definition gray_image : PreprocessedImage :=
  {| data := to_tensor (repeat x80 (Z.to_nat (224 * 224 * 3)));
     channels := 3; height := 224; width := 224 |}.

Lemma gray_raw_len : len (raw_data gray_raw) = RESIZE_SIZE * RESIZE_SIZE * 3.
Proof.
  unfold gray_raw, RESIZE_SIZE. cbn [raw_data]. rewrite len_repeat. lia.
Defined.

Lemma center_crop_correct_witness :
  cropLeft_of (info_width gray_raw) = 16
  /\ cropTop_of (info_height gray_raw) = 16
  /\ exists cropped,
       center_crop gray_raw = Ok cropped
       /\ len cropped = TARGET_SIZE * TARGET_SIZE * 3
       /\ (forall x y c, 0 <= x < TARGET_SIZE -> 0 <= y < TARGET_SIZE -> 0 <= c < 3 ->
             pixel_at cropped TARGET_SIZE x y c
             = pixel_at (raw_data gray_raw) RESIZE_SIZE (x + 16) (y + 16) c)
       /\ (forall c, 0 <= c < 3 ->
             pixel_at cropped TARGET_SIZE 0 0 c
             = pixel_at (raw_data gray_raw) RESIZE_SIZE 16 16 c).
Proof.
  exact (center_crop_correct gray_raw eq_refl eq_refl gray_raw_len).
Defined.

Lemma predict_logits_spec_witness :
  let center := center_spec (brightness_spec (data gray_image)) in
  let seed := hashTensor (data gray_image) in
  let logits :=
    map (fun i => logit_spec center i (rng_output (state_after seed i)))
      [0; 1; 2; 3; 4; 5] in
  predict_logits gray_image = (logits, state_after seed 6)
  /\ predict exp_ref gray_image = buildResult (softmax exp_ref logits).
Proof.
  exact (predict_logits_spec exp_ref gray_image eq_refl eq_refl).
Defined.

(** Two classes tie for the largest probability: the earlier one wins. *)
Definition tied_probs : list float := [0.1; 0.4; 0.4; 0.05; 0.03; 0.02]%float.

Lemma buildResult_argmax_witness :
  let r := buildResult tied_probs in
  exists m : nat,
    (m < 6)%nat
    /\ nth_error TURBIDITY_CLASSES m = Some (predictedClass r)
    /\ nth_error tied_probs m = Some (confidence r)
    /\ (forall j p, nth_error tied_probs j = Some p -> fle p (confidence r))
    /\ (forall j p, (j < m)%nat -> nth_error tied_probs j = Some p -> flt p (confidence r))
    /\ label r = TURBIDITY_LABELS (predictedClass r)
    /\ ntuRange r = NTU_RANGES (predictedClass r)
    /\ probabilities r = map class_entry (combine TURBIDITY_CLASSES tied_probs).
Proof.
  apply (buildResult_argmax tied_probs); [reflexivity |].
  repeat constructor.
Defined.

Example tie_goes_to_the_earlier_class :
  predictedClass (buildResult tied_probs) = very_cloudy
  /\ confidence (buildResult tied_probs) = 0.4%float.
Proof. vm_compute. split; reflexivity. Qed.

(** ** Gray-world balancing of a gray image *)

(** The scale factor the balancer computes for a channel when the three
    channel sums of a 224x224 image all equal [sum]:
    [mean = sum / pixelCount + epsilon], [overallMean = (mean + mean + mean) / 3],
    [scale = overallMean / mean]. *)
Definition gray_scale (sum : float) : float :=
  let mean := (sum / 50176 + epsilon)%float in
  let overallMean := ((mean + mean + mean) / 3)%float in
  (overallMean / mean)%float.

(** One unit in the last place above and half a unit below 1. *)
Definition one_up : float := 0x1.0000000000001p+0%float.
Definition one_down : float := 0x1.fffffffffffffp-1%float.

Definition near_one (scale : float) : bool :=
  PrimFloat.Leibniz.eqb scale 1 || PrimFloat.Leibniz.eqb scale one_up
  || PrimFloat.Leibniz.eqb scale one_down.

Lemma near_one_cases (scale : float) :
  near_one scale = true -> scale = 1%float \/ scale = one_up \/ scale = one_down.
Proof.
  unfold near_one. intros H.
  apply orb_true_iff in H. destruct H as [H | H].
  - apply orb_true_iff in H. destruct H as [H | H];
      apply FloatAxioms.Leibniz.eqb_spec in H; auto.
  - apply FloatAxioms.Leibniz.eqb_spec in H; auto.
Qed.

(** The check over a range of sums, counted with machine integers. *)
Fixpoint scales_near_one (n : nat) (sum : int) : bool :=
  match n with
  | O => true
  | S n' =>
      if near_one (gray_scale (of_uint63 sum))
      then scales_near_one n' (sum + 1)%uint63
      else false
  end.

Lemma of_Z_of_uint63 (i : int) : JS.of_Z (Uint63.to_Z i) = of_uint63 i.
Proof.
  unfold JS.of_Z. rewrite <- of_uint63_spec. apply SF2Prim_Prim2SF.
Qed.

Lemma scales_near_one_sound :
  forall (n : nat) (i : int),
    scales_near_one n i = true ->
    Uint63.to_Z i + Z.of_nat n <= Uint63.wB ->
    forall z, Uint63.to_Z i <= z < Uint63.to_Z i + Z.of_nat n ->
      near_one (gray_scale (JS.of_Z z)) = true.
Proof.
  induction n as [| n IH]; intros i Hrun Hbound z Hz; [lia |].
  cbn [scales_near_one] in Hrun.
  destruct (near_one (gray_scale (of_uint63 i))) eqn:Hi; [| discriminate].
  destruct (Z.eq_dec z (Uint63.to_Z i)) as [-> | Hne].
  - rewrite of_Z_of_uint63. exact Hi.
  - assert (Hsucc : Uint63.to_Z (i + 1)%uint63 = Uint63.to_Z i + 1).
    { rewrite Uint63.add_spec. change (Uint63.to_Z 1) with 1.
      pose proof (Uint63.to_Z_bounded i).
      apply Z.mod_small. lia. }
    apply (IH (i + 1)%uint63 Hrun); rewrite Hsucc; lia.
Qed.

(** Every sum a 224x224 channel of bytes can have. *)
Definition MAX_CHANNEL_SUM : Z := 255 * 50176.

Lemma all_scales_near_one :
  scales_near_one (Z.to_nat (MAX_CHANNEL_SUM + 1)) 0%uint63 = true.
Proof. vm_compute. reflexivity. Qed.

Lemma gray_scale_near_one (s : Z) :
  0 <= s <= MAX_CHANNEL_SUM -> near_one (gray_scale (JS.of_Z s)) = true.
Proof.
  intros Hs.
  apply (scales_near_one_sound (Z.to_nat (MAX_CHANNEL_SUM + 1)) 0%uint63
           all_scales_near_one).
  - change (Uint63.to_Z 0) with 0. unfold MAX_CHANNEL_SUM.
    change Uint63.wB with 9223372036854775808. lia.
  - change (Uint63.to_Z 0) with 0. unfold MAX_CHANNEL_SUM in *. lia.
Qed.

(** A scale within a rounding unit of 1 leaves every byte as it is. *)
Lemma balance_pixel_near_one (scale : float) (p : byte) :
  scale = 1%float \/ scale = one_up \/ scale = one_down ->
  balance_pixel p scale = p.
Proof.
  intros [-> | [-> | ->]]; destruct p; vm_compute; reflexivity.
Qed.

Lemma scale_channels_id (sR sG sB : float) :
  (forall p, balance_pixel p sR = p) ->
  (forall p, balance_pixel p sG = p) ->
  (forall p, balance_pixel p sB = p) ->
  forall pixels, scale_channels pixels sR sG sB = pixels.
Proof.
  intros HR HG HB. fix IH 1.
  intros [| r [| g [| b rest]]]; cbn [scale_channels];
    rewrite ?HR, ?HG, ?HB; try reflexivity.
  now rewrite IH.
Qed.

(** The sums of a buffer of whole pixels are integers between 0 and 255
    times the number of pixels. *)
Lemma sum_channels_whole :
  forall (n : nat) (pixels : Buffer) (a b c : Z),
    length pixels = (3 * n)%nat ->
    exists a' b' c',
      sum_channels pixels (Some a) (Some b) (Some c) = (Some a', Some b', Some c')
      /\ a <= a' <= a + 255 * Z.of_nat n
      /\ b <= b' <= b + 255 * Z.of_nat n
      /\ c <= c' <= c + 255 * Z.of_nat n.
Proof.
  assert (Hbyte : forall p : byte, 0 <= JS.Z_of_byte p <= 255).
  { intros p. destruct p; vm_compute; split; discriminate. }
  induction n as [| n IH]; intros pixels a b c Hlen.
  - destruct pixels; [| discriminate]. exists a, b, c. cbn. repeat split; lia.
  - destruct pixels as [| r [| g [| bl rest]]]; cbn [length] in Hlen; try lia.
    cbn [sum_channels add_read].
    destruct (IH rest (a + JS.Z_of_byte r) (b + JS.Z_of_byte g) (c + JS.Z_of_byte bl)
                ltac:(lia)) as (a' & b' & c' & Hs & Ha & Hb & Hc).
    exists a', b', c'. split; [exact Hs |].
    pose proof (Hbyte r). pose proof (Hbyte g). pose proof (Hbyte bl). lia.
Qed.

Lemma pixel_count_224 : (JS.of_Z (224 * 224 * 3) / 3)%float = 50176%float.
Proof. vm_compute. reflexivity. Qed.

Lemma gray_world_scales_gray (pixels : Buffer) (s : Z) :
  len pixels = TARGET_SIZE * TARGET_SIZE * 3 ->
  sum_channels pixels (Some 0) (Some 0) (Some 0) = (Some s, Some s, Some s) ->
  gray_world_scales pixels
  = (gray_scale (JS.of_Z s), gray_scale (JS.of_Z s), gray_scale (JS.of_Z s)).
Proof.
  intros Hlen Hsum. unfold gray_world_scales.
  rewrite Hsum, Hlen. unfold TARGET_SIZE. rewrite pixel_count_224.
  reflexivity.
Qed.

(** C8 (amended): for every 224x224x3 buffer whose three channel sums,
    hence means, are equal, the three scale factors are equal and within
    one rounding unit of 1.0 (they are 1.0, its successor or its
    predecessor), and the output buffer equals the input buffer. *)
Theorem gray_world_identity (pixels : Buffer) (s : Z) :
  len pixels = TARGET_SIZE * TARGET_SIZE * 3 ->
  sum_channels pixels (Some 0) (Some 0) (Some 0) = (Some s, Some s, Some s) ->
  (exists scale,
     gray_world_scales pixels = (scale, scale, scale)
     /\ (scale = 1%float \/ scale = one_up \/ scale = one_down))
  /\ applyGrayWorld pixels = pixels.
Proof.
  intros Hlen Hsum.
  assert (Hs : 0 <= s <= MAX_CHANNEL_SUM).
  { destruct (sum_channels_whole (Z.to_nat (224 * 224)) pixels 0 0 0)
      as (a' & b' & c' & Hs & Ha & _).
    - unfold len, TARGET_SIZE in Hlen. lia.
    - rewrite Hsum in Hs. inversion Hs; subst. unfold MAX_CHANNEL_SUM. lia. }
  pose proof (near_one_cases _ (gray_scale_near_one s Hs)) as Hnear.
  pose proof (gray_world_scales_gray pixels s Hlen Hsum) as Hscales.
  split.
  - exists (gray_scale (JS.of_Z s)). split; assumption.
  - unfold applyGrayWorld. rewrite Hscales.
    apply scale_channels_id; intros p; now apply balance_pixel_near_one.
Qed.

(** A gray image with one pixel (1, 1, 1) on black: the three channel
    sums are 1. *)
Definition faint_gray : Buffer :=
  [x01; x01; x01] ++ repeat x00 (Z.to_nat (224 * 224 * 3 - 3)).

Lemma faint_gray_len : len faint_gray = TARGET_SIZE * TARGET_SIZE * 3.
Proof.
  unfold faint_gray, TARGET_SIZE. rewrite len_app, len_repeat.
  change (len [x01; x01; x01]) with 3. lia.
Defined.

Lemma faint_gray_sums :
  sum_channels faint_gray (Some 0) (Some 0) (Some 0) = (Some 1, Some 1, Some 1).
Proof. vm_compute. reflexivity. Defined.

Lemma gray_world_identity_witness :
  (exists scale,
     gray_world_scales faint_gray = (scale, scale, scale)
     /\ (scale = 1%float \/ scale = one_up \/ scale = one_down))
  /\ applyGrayWorld faint_gray = faint_gray.
Proof.
  exact (gray_world_identity faint_gray 1 faint_gray_len faint_gray_sums).
Defined.

(** The claim as stated fails there: the means are equal, the scale
    factors are not 1.0. *)
Lemma gray_world_scales_not_one :
  len faint_gray = TARGET_SIZE * TARGET_SIZE * 3
  /\ sum_channels faint_gray (Some 0) (Some 0) (Some 0) = (Some 1, Some 1, Some 1)
  /\ gray_world_scales faint_gray = (one_up, one_up, one_up)
  /\ one_up <> 1%float
  /\ PrimFloat.eqb one_up 1 = false.
Proof.
  split; [exact faint_gray_len |]. split; [exact faint_gray_sums |].
  split; [vm_compute; reflexivity |]. split; [| reflexivity].
  intros H. apply (f_equal Prim2SF) in H. vm_compute in H. discriminate H.
Qed.

(** ** Brightness and the class index: the code at a dark and a bright image *)

(** The tensor of a 224x224 image all of whose pixels are the byte [p] in
    every channel: plane [c] holds the normalised byte throughout. *)
Definition flat_tensor (p : byte) : Float32Array :=
  repeat (normalized 0 (Some p)) (224 * 224)
  ++ repeat (normalized 1 (Some p)) (224 * 224)
  ++ repeat (normalized 2 (Some p)) (224 * 224).

(** The tensors of the all-black and the all-white 224x224 image. *)
Definition black_image : PreprocessedImage :=
  {| data := flat_tensor x00; channels := 3; height := 224; width := 224 |}.

Definition white_image : PreprocessedImage :=
  {| data := flat_tensor xff; channels := 3; height := 224; width := 224 |}.

Lemma plane_size : Z.of_nat (224 * 224) = 50176.
Proof. rewrite Nat2Z.inj_mul. reflexivity. Qed.

Lemma flat_tensor_len (p : byte) : len (flat_tensor p) = 150528.
Proof.
  unfold len, flat_tensor. rewrite !length_app, !repeat_length, !Nat2Z.inj_add.
  rewrite plane_size. reflexivity.
Qed.

(** Position [i] of the flat tensor is in plane [i / (224 * 224)]. *)
Lemma flat_tensor_nth (p : byte) (i : Z) :
  0 <= i < 150528 ->
  nth (Z.to_nat i) (flat_tensor p) nan
  = normalized (Z.to_nat (i / 50176)) (Some p).
Proof.
  intros Hi. unfold flat_tensor. pose proof plane_size as HN.
  set (N := (224 * 224)%nat) in *.
  destruct (Z_lt_dec i 50176) as [H0 | H0].
  - rewrite app_nth1 by (rewrite repeat_length; lia).
    rewrite nth_repeat_lt by lia.
    rewrite Z.div_small by lia. reflexivity.
  - rewrite app_nth2 by (rewrite repeat_length; lia). rewrite repeat_length.
    destruct (Z_lt_dec i 100352) as [H1 | H1].
    + rewrite app_nth1 by (rewrite repeat_length; lia).
      rewrite nth_repeat_lt by lia.
      replace (i / 50176) with 1; [reflexivity |].
      apply Z.div_unique with (i - 50176). lia. lia.
    + rewrite app_nth2 by (rewrite repeat_length; lia). rewrite repeat_length.
      rewrite nth_repeat_lt by lia.
      replace (i / 50176) with 2; [reflexivity |].
      apply Z.div_unique with (i - 100352). lia. lia.
Qed.

(** The 256 entries [hashTensor] reads of a flat tensor. *)
Definition flat_samples (p : byte) : list float :=
  map (fun i => normalized (Z.to_nat (i / 50176)) (Some p))
    (sampled_indices 150528 588).

Lemma flat_tensor_seed (p : byte) :
  hashTensor (flat_tensor p) = Z.abs (fold_left hash_step (flat_samples p) 0).
Proof.
  rewrite hashTensor_sampled. unfold sampled_values, flat_samples.
  rewrite flat_tensor_len. change (Z.max 1 (150528 / 256)) with 588.
  apply (f_equal Z.abs). apply (f_equal (fun l => fold_left hash_step l 0)).
  apply map_ext_in. intros i Hi.
  apply sampled_indices_range in Hi; [| lia].
  now apply flat_tensor_nth.
Qed.

Lemma black_seed : hashTensor (data black_image) = 1266010231.
Proof.
  cbn [data black_image white_image]. rewrite flat_tensor_seed.
  vm_compute. reflexivity.
Qed.

Lemma white_seed : hashTensor (data white_image) = 2025399010.
Proof.
  cbn [data black_image white_image]. rewrite flat_tensor_seed.
  vm_compute. reflexivity.
Qed.

Lemma black_center : center_of (brightness_of black_image) = 5%float.
Proof. vm_compute. reflexivity. Qed.

Lemma white_center : center_of (brightness_of white_image) = 0%float.
Proof. vm_compute. reflexivity. Qed.

Lemma black_white_brightness :
  flt (brightness_of black_image) (brightness_of white_image).
Proof. vm_compute. reflexivity. Qed.

(** C3 (the code at the failing input): the black image has the lower
    brightness and gets the *higher* centre index, 5 (class [clear]); the
    white image gets index 0 (class [ultra_cloudy]). *)
Theorem darker_image_gets_higher_index :
  flt (brightness_of black_image) (brightness_of white_image)
  /\ center_of (brightness_of black_image) = 5%float
  /\ center_of (brightness_of white_image) = 0%float
  /\ flt (center_of (brightness_of white_image)) (center_of (brightness_of black_image))
  /\ predictedClass (predict exp_ref black_image) = clear
  /\ predictedClass (predict exp_ref white_image) = ultra_cloudy.
Proof.
  split; [exact black_white_brightness |].
  split; [exact black_center |]. split; [exact white_center |].
  split; [rewrite black_center, white_center; reflexivity |].
  unfold predict, predict_logits. rewrite black_center, white_center.
  rewrite black_seed, white_seed.
  split; vm_compute; reflexivity.
Qed.

(* ================================================================== *)
(** * Binary64 arithmetic: values and rounding *)
(* ================================================================== *)

(** The operations of the kernel's floats are specified by the functions
    of [SpecFloat]; this part relates those functions to real numbers:
    every operation returns the exact result up to one unit in the last
    place. *)

(** ** Powers of two *)

Definition pow2 (e : Z) : R := powerRZ 2 e.

Lemma pow2_pos (e : Z) : (0 < pow2 e)%R.
Proof. apply powerRZ_lt. lra. Qed.

Lemma pow2_add (a b : Z) : pow2 (a + b) = (pow2 a * pow2 b)%R.
Proof. apply powerRZ_add. lra. Qed.

Lemma pow2_0 : pow2 0 = 1%R.
Proof. reflexivity. Qed.

Lemma pow2_nonneg_IZR (e : Z) : 0 <= e -> pow2 e = IZR (2 ^ e).
Proof.
  intros He. unfold pow2. destruct e as [| p | p]; [reflexivity | | lia].
  cbn [powerRZ]. rewrite pow_IZR. f_equal.
  rewrite positive_nat_Z. reflexivity.
Qed.

Lemma pow2_le (a b : Z) : a <= b -> (pow2 a <= pow2 b)%R.
Proof.
  intros H. replace b with (a + (b - a)) by lia. rewrite pow2_add.
  rewrite (pow2_nonneg_IZR (b - a)) by lia.
  assert (1 <= 2 ^ (b - a)) by (pose proof (Z.pow_pos_nonneg 2 (b - a)); lia).
  apply IZR_le in H0. pose proof (pow2_pos a). nra.
Qed.

Lemma pow2_lt (a b : Z) : a < b -> (pow2 a < pow2 b)%R.
Proof.
  intros H. replace b with (a + (b - a)) by lia. rewrite pow2_add.
  rewrite (pow2_nonneg_IZR (b - a)) by lia.
  assert (2 <= 2 ^ (b - a)).
  { replace (b - a) with (1 + (b - a - 1)) by lia.
    rewrite Z.pow_add_r by lia.
    assert (1 <= 2 ^ (b - a - 1)) by (pose proof (Z.pow_pos_nonneg 2 (b - a - 1)); lia).
    lia. }
  apply IZR_le in H0. pose proof (pow2_pos a). nra.
Qed.

Lemma pow2_succ (e : Z) : pow2 (e + 1) = (2 * pow2 e)%R.
Proof.
  rewrite pow2_add, (pow2_nonneg_IZR 1) by lia. change (2 ^ 1) with 2. lra.
Qed.

(** ** Digits *)

Lemma digits2_size (p : positive) : digits2_pos p = Pos.size p.
Proof. induction p; cbn; congruence. Qed.

Lemma Zdigits2_bounds (m : Z) :
  0 < m -> 2 ^ (Zdigits2 m - 1) <= m < 2 ^ Zdigits2 m.
Proof.
  intros Hm. destruct m as [| p | p]; try lia.
  cbn [Zdigits2]. rewrite digits2_size.
  pose proof (Pos.size_gt p) as Hgt. pose proof (Pos.size_le p) as Hle.
  split.
  - assert (H2 : 2 ^ Z.pos (Pos.size p) <= 2 * Z.pos p).
    { change (2 * Z.pos p) with (Z.pos p~0). rewrite <- Pos2Z.inj_pow. lia. }
    replace (Z.pos (Pos.size p)) with (1 + (Z.pos (Pos.size p) - 1)) in H2 by lia.
    rewrite Z.pow_add_r in H2 by lia. lia.
  - rewrite <- Pos2Z.inj_pow. lia.
Qed.

Lemma Zdigits2_nonneg (m : Z) : 0 <= Zdigits2 m.
Proof. destruct m; cbn; lia. Qed.

Lemma Zdigits2_unique (m k : Z) :
  2 ^ (k - 1) <= m < 2 ^ k -> 0 < m -> Zdigits2 m = k.
Proof.
  intros [Hlo Hhi] Hm. pose proof (Zdigits2_bounds m Hm) as [Dlo Dhi].
  pose proof (Zdigits2_nonneg m).
  assert (0 <= k).
  { destruct (Z.lt_ge_cases k 0); [| lia]. rewrite Z.pow_neg_r in Hhi; lia. }
  destruct (Z.lt_trichotomy (Zdigits2 m) k) as [Hlt | [Heq | Hgt]]; [| exact Heq |].
  - assert (2 ^ Zdigits2 m <= 2 ^ (k - 1)) by (apply Z.pow_le_mono_r; lia). lia.
  - assert (2 ^ k <= 2 ^ (Zdigits2 m - 1)) by (apply Z.pow_le_mono_r; lia). lia.
Qed.

(** ** Shifting right *)

Lemma shr_1_m (mrs : shr_record) :
  0 <= shr_m mrs -> shr_m (shr_1 mrs) = shr_m mrs / 2.
Proof.
  destruct mrs as [m r s]. cbn [shr_m]. intros Hm.
  destruct m as [| p | p]; [reflexivity | | lia].
  destruct p as [p | p |]; cbn [shr_1 shr_m].
  - rewrite Pos2Z.inj_xI. apply (Z.div_unique _ 2 (Z.pos p) 1); lia.
  - rewrite Pos2Z.inj_xO. apply (Z.div_unique _ 2 (Z.pos p) 0); lia.
  - reflexivity.
Qed.

Lemma shr_1_nonneg (mrs : shr_record) : 0 <= shr_m mrs -> 0 <= shr_m (shr_1 mrs).
Proof. intros H. rewrite shr_1_m by assumption. apply Z.div_pos; lia. Qed.

Lemma pow2_xO (p : positive) : 2 ^ Z.pos p~0 = 2 ^ Z.pos p * 2 ^ Z.pos p.
Proof. rewrite Pos2Z.inj_xO, <- Z.pow_add_r by lia. f_equal. lia. Qed.

Lemma pow2_xI (p : positive) : 2 ^ Z.pos p~1 = 2 * (2 ^ Z.pos p * 2 ^ Z.pos p).
Proof.
  rewrite Pos2Z.inj_xI, <- Z.pow_add_r by lia.
  replace (2 * Z.pos p + 1) with (1 + (Z.pos p + Z.pos p)) by lia.
  rewrite Z.pow_add_r by lia. reflexivity.
Qed.

Lemma iter_shr_m (p : positive) :
  forall mrs, 0 <= shr_m mrs ->
    shr_m (SpecFloat.iter_pos shr_1 p mrs) = shr_m mrs / 2 ^ Z.pos p.
Proof.
  induction p as [p IH | p IH |]; intros mrs Hm; cbn [SpecFloat.iter_pos].
  - assert (H1 : 0 <= shr_m (shr_1 mrs)) by now apply shr_1_nonneg.
    assert (H2 : 0 <= shr_m (SpecFloat.iter_pos shr_1 p (shr_1 mrs))).
    { rewrite IH by assumption. apply Z.div_pos; lia. }
    rewrite IH, IH, shr_1_m by assumption.
    rewrite !Z.div_div by lia. rewrite pow2_xI. reflexivity.
  - assert (H2 : 0 <= shr_m (SpecFloat.iter_pos shr_1 p mrs)).
    { rewrite IH by assumption. apply Z.div_pos; lia. }
    rewrite IH, IH by assumption.
    rewrite Z.div_div by lia. rewrite pow2_xO. reflexivity.
  - rewrite shr_1_m by assumption. reflexivity.
Qed.

Lemma shr_record_of_loc_m (m : Z) (l : location) : shr_m (shr_record_of_loc m l) = m.
Proof. destruct l as [| []]; reflexivity. Qed.

(** The mantissa and exponent [shr] returns for a shift by [n]. *)
Lemma shr_m_e (mrs : shr_record) (e n : Z) :
  0 <= shr_m mrs ->
  shr_m (fst (shr mrs e n)) = shr_m mrs / 2 ^ Z.max 0 n
  /\ snd (shr mrs e n) = e + Z.max 0 n.
Proof.
  intros Hm. destruct n as [| p | p]; cbn [shr fst snd].
  - cbn. rewrite Z.div_1_r. split; [reflexivity | lia].
  - rewrite iter_shr_m by assumption. split; [reflexivity | lia].
  - cbn. rewrite Z.div_1_r. split; [reflexivity | lia].
Qed.

Lemma round_nearest_even_cases (m : Z) (l : location) :
  (round_nearest_even m l = m \/ round_nearest_even m l = m + 1)
  /\ (l = loc_Exact -> round_nearest_even m l = m).
Proof.
  destruct l as [| []]; cbn [round_nearest_even]; try destruct (Z.even m); auto.
  all: split; auto; discriminate.
Qed.

(** ** Values *)

Definition signed (s : bool) (v : R) : R := if s then (- v)%R else v.

(** The real number a finite value stands for (0 for the others). *)
Definition SFR (x : spec_float) : R :=
  match x with
  | S754_finite s m e => signed s (IZR (Z.pos m) * pow2 e)
  | _ => 0%R
  end.

Definition is_fin (x : spec_float) : bool :=
  match x with
  | S754_zero _ | S754_finite _ _ _ => true
  | _ => false
  end.

Lemma fexp64 (e : Z) : fexp prec emax e = Z.max (e - 53) (-1074).
Proof. reflexivity. Qed.

(** ** Rounding *)

(** What [binary_round_aux] returns for a mantissa [m >= 0] at an
    exponent [e] that is fine enough ([e <= fexp (digits m + e)]) and a
    magnitude below [2^1023]: the mantissa is shifted to the exponent
    [e1 = fexp (digits m + e)] and the result is [m1 * 2^e1] with [m1] the
    shifted mantissa or its successor. *)
Lemma round_aux_spec (s : bool) (m e : Z) (l : location) :
  0 <= m ->
  e <= fexp prec emax (Zdigits2 m + e) ->
  Zdigits2 m + e <= 1023 ->
  let e1 := fexp prec emax (Zdigits2 m + e) in
  let r := binary_round_aux prec emax s m e l in
  exists m1 : Z,
    (m1 = m / 2 ^ (e1 - e) \/ m1 = m / 2 ^ (e1 - e) + 1)
    /\ (l = loc_Exact -> e1 = e -> m1 = m)
    /\ is_fin r = true
    /\ SFR r = signed s (IZR m1 * pow2 e1).
Proof.
  intros Hm Hfine Hmag e1 r.
  pose proof (Zdigits2_nonneg m) as Hd0.
  assert (He1 : e1 = Z.max (Zdigits2 m + e - 53) (-1074)) by reflexivity.
  assert (He1lo : -1074 <= e1) by lia.
  assert (He1hi : e1 <= 970) by lia.
  unfold r, binary_round_aux, shr_fexp. fold e1.
  pose proof (shr_m_e (shr_record_of_loc m l) e (e1 - e)) as Hshr.
  rewrite shr_record_of_loc_m in Hshr. specialize (Hshr Hm).
  destruct (shr (shr_record_of_loc m l) e (e1 - e)) as [mrs' e'] eqn:Eshr.
  cbn [fst snd] in Hshr. destruct Hshr as [Hm' He'].
  rewrite Z.max_r in Hm', He' by lia.
  assert (He'1 : e' = e1) by lia. clear He'. subst e'.
  set (m1 := round_nearest_even (shr_m mrs') (loc_of_shr_record mrs')).
  destruct (round_nearest_even_cases (shr_m mrs') (loc_of_shr_record mrs'))
    as [Hcases Hexact].
  fold m1 in Hcases, Hexact. rewrite Hm' in Hcases.
  assert (Hq0 : 0 <= m / 2 ^ (e1 - e)) by (apply Z.div_pos; lia).
  assert (Hm1 : 0 <= m1) by lia.
  (* the shifted mantissa has at most 53 digits *)
  assert (Hq53 : m / 2 ^ (e1 - e) < 2 ^ 53).
  { destruct (Z.eq_dec m 0) as [-> | Hne].
    - rewrite Z.div_0_l by lia. lia.
    - pose proof (Zdigits2_bounds m ltac:(lia)) as [_ Hhi].
      apply Z.div_lt_upper_bound; [lia |].
      rewrite <- Z.pow_add_r by lia.
      eapply Z.lt_le_trans; [exact Hhi |].
      apply Z.pow_le_mono_r; lia. }
  assert (Hex : l = loc_Exact -> e1 = e -> m1 = m).
  { intros Hl He. rewrite Hexact.
    - rewrite Hm'. replace (e1 - e) with 0 by lia. apply Z.div_1_r.
    - replace (e1 - e) with 0 in Eshr by lia. cbn [shr] in Eshr.
      inversion Eshr; subst mrs'. rewrite Hl. reflexivity. }
  clearbody m1.
  exists m1. split; [exact Hcases |]. split; [exact Hex |].
  (* the second normalisation *)
  pose proof (shr_m_e (shr_record_of_loc m1 loc_Exact) e1
                (fexp prec emax (Zdigits2 m1 + e1) - e1)) as Hshr2.
  rewrite shr_record_of_loc_m in Hshr2. specialize (Hshr2 Hm1).
  destruct (shr (shr_record_of_loc m1 loc_Exact) e1
              (fexp prec emax (Zdigits2 m1 + e1) - e1)) as [mrs'' e''] eqn:Eshr2.
  cbn [fst snd] in Hshr2.
  destruct Hshr2 as [Hm'' He''].
  rewrite fexp64 in Hm'', He''.
  destruct (Z.eq_dec m1 0) as [Hz | Hnz].
  - (* the result is zero *)
    rewrite Hz in Hm''. rewrite Z.div_0_l in Hm''
      by (apply Z.pow_nonzero; lia).
    rewrite Hm''. split; [reflexivity |].
    rewrite Hz. cbn [SFR]. destruct s; cbn [signed]; lra.
  - destruct (Z.eq_dec m1 (2 ^ 53)) as [Hcarry | Hnc].
    + (* the mantissa was rounded up to 2^53 *)
      assert (Hd : Zdigits2 m1 = 54).
      { apply Zdigits2_unique; rewrite Hcarry; [split |]; cbn; lia. }
      rewrite Hd in Hm'', He''.
      replace (Z.max 0 (Z.max (54 + e1 - 53) (-1074) - e1)) with 1 in Hm'', He'' by lia.
      rewrite Hcarry in Hm''. change (2 ^ 53 / 2 ^ 1) with (2 ^ 52) in Hm''.
      rewrite Hm''. change (2 ^ 52) with (Z.pos (2 ^ 52)).
      replace (e'' <=? emax - prec) with true
        by (symmetry; apply Z.leb_le; unfold emax, prec; lia).
      split; [reflexivity |].
      cbn [SFR]. rewrite He'', pow2_succ, Hcarry.
      change (IZR (Z.pos (2 ^ 52))) with (IZR (2 ^ 52)).
      replace (IZR (2 ^ 53)) with (2 * IZR (2 ^ 52))%R
        by (rewrite <- mult_IZR; reflexivity).
      destruct s; cbn [signed]; lra.
    + (* no carry: the second shift does nothing *)
      assert (Hlt : m1 < 2 ^ 53) by lia.
      assert (Hd : Zdigits2 m1 <= 53).
      { pose proof (Zdigits2_bounds m1 ltac:(lia)) as [Hlo _].
        destruct (Z_le_gt_dec (Zdigits2 m1) 53) as [|Hgt]; [assumption |].
        assert (2 ^ 53 <= 2 ^ (Zdigits2 m1 - 1)) by (apply Z.pow_le_mono_r; lia).
        lia. }
      replace (Z.max 0 (Z.max (Zdigits2 m1 + e1 - 53) (-1074) - e1)) with 0
        in Hm'', He'' by lia.
      rewrite Z.div_1_r in Hm''. rewrite Hm''.
      destruct m1 as [| p | p]; try lia.
      replace (e'' <=? emax - prec) with true
        by (symmetry; apply Z.leb_le; unfold emax, prec; lia).
      split; [reflexivity |].
      cbn [SFR]. replace e'' with e1 by lia. reflexivity.
Qed.

(** ** The error of one rounding *)

(** The unit roundoff used throughout: one unit in the last place,
    relative ([2^-52]) and absolute for the subnormal range ([2^-1074]). *)
Definition ulp_rel : R := pow2 (-52).
Definition ulp_abs : R := pow2 (-1074).

(** [v] is [X] up to one unit in the last place. *)
Definition approx (X v : R) : Prop :=
  (Rabs (v - X) <= ulp_rel * Rabs X + ulp_abs)%R.

Lemma ulp_rel_pos : (0 < ulp_rel)%R.
Proof. apply pow2_pos. Qed.

Lemma ulp_abs_pos : (0 < ulp_abs)%R.
Proof. apply pow2_pos. Qed.

Lemma approx_refl (X : R) : approx X X.
Proof.
  unfold approx. replace (X - X)%R with 0%R by lra. rewrite Rabs_R0.
  pose proof ulp_rel_pos. pose proof ulp_abs_pos. pose proof (Rabs_pos X). nra.
Qed.

Lemma approx_signed (s : bool) (X v : R) :
  approx X v -> approx (signed s X) (signed s v).
Proof.
  unfold approx. destruct s; cbn [signed]; [| auto].
  replace (- v - - X)%R with (- (v - X))%R by lra.
  now rewrite !Rabs_Ropp.
Qed.

Lemma pow2_lt_inv (a b : Z) : (pow2 a < pow2 b)%R -> a < b.
Proof.
  intros H. destruct (Z_lt_le_dec a b) as [|Hle]; [assumption |].
  apply pow2_le in Hle. lra.
Qed.

Lemma IZR_pow2_digits (m : Z) :
  0 < m -> (pow2 (Zdigits2 m - 1) <= IZR m < pow2 (Zdigits2 m))%R.
Proof.
  intros Hm. pose proof (Zdigits2_bounds m Hm) as [Hlo Hhi].
  pose proof (Zdigits2_nonneg m).
  assert (0 < Zdigits2 m).
  { destruct (Z.eq_dec (Zdigits2 m) 0) as [E | E]; [| lia].
    rewrite E in Hhi. cbn in Hhi. lia. }
  rewrite !pow2_nonneg_IZR by lia. split; [apply IZR_le | apply IZR_lt]; assumption.
Qed.

Lemma round_aux_error (s : bool) (m e : Z) (l : location) (X : R) :
  0 <= m ->
  e <= fexp prec emax (Zdigits2 m + e) ->
  Zdigits2 m + e <= 1023 ->
  (IZR m * pow2 e <= X < IZR (m + 1) * pow2 e)%R ->
  let r := binary_round_aux prec emax s m e l in
  is_fin r = true /\ approx (signed s X) (SFR r).
Proof.
  intros Hm Hfine Hmag HX r.
  destruct (round_aux_spec s m e l Hm Hfine Hmag) as (m1 & Hcases & _ & Hfin & Hval).
  fold r in Hfin, Hval. split; [exact Hfin |].
  rewrite Hval. apply approx_signed.
  set (e1 := fexp prec emax (Zdigits2 m + e)) in *.
  set (n := e1 - e) in *.
  assert (Hn : 0 <= n) by (unfold n; lia).
  assert (Hp : 0 < 2 ^ n) by (apply Z.pow_pos_nonneg; lia).
  pose proof (Z.div_mod m (2 ^ n) ltac:(lia)) as Hdm.
  pose proof (Z.mod_pos_bound m (2 ^ n) Hp) as Hmod.
  set (q := m / 2 ^ n) in *.
  assert (He1 : pow2 e1 = (pow2 e * IZR (2 ^ n))%R).
  { replace e1 with (e + n) by (unfold n; lia).
    rewrite pow2_add, (pow2_nonneg_IZR n) by lia. reflexivity. }
  pose proof (pow2_pos e) as Hpe. pose proof (pow2_pos e1) as Hpe1.
  (* X lies between q * 2^e1 and (q + 1) * 2^e1 *)
  assert (Hlo : (IZR q * pow2 e1 <= X)%R).
  { rewrite He1. apply Rle_trans with (IZR m * pow2 e)%R; [| lra].
    assert (q * 2 ^ n <= m) by lia. apply IZR_le in H.
    rewrite mult_IZR in H. nra. }
  assert (Hhi : (X <= IZR (q + 1) * pow2 e1)%R).
  { rewrite He1. apply Rle_trans with (IZR (m + 1) * pow2 e)%R; [lra |].
    assert (m + 1 <= (q + 1) * 2 ^ n) by lia. apply IZR_le in H.
    rewrite mult_IZR in H. nra. }
  rewrite plus_IZR in Hhi.
  assert (HX0 : (0 <= X)%R).
  { apply Rle_trans with (IZR m * pow2 e)%R; [| lra].
    apply IZR_le in Hm. nra. }
  (* one unit at e1 is at most the tolerance *)
  assert (Hulp : (pow2 e1 <= ulp_rel * X + ulp_abs)%R).
  { pose proof ulp_rel_pos. pose proof ulp_abs_pos.
    destruct (Z.eq_dec e1 (-1074)) as [E | E].
    - rewrite E. unfold ulp_abs. nra.
    - assert (Hmpos : 0 < m).
      { destruct (Z.eq_dec m 0) as [-> | ]; [| lia].
        unfold e1 in E, Hfine. rewrite fexp64 in *. cbn [Zdigits2] in *. lia. }
      assert (E1 : e1 = Zdigits2 m + e - 53) by (unfold e1 in *; rewrite fexp64 in *; lia).
      pose proof (IZR_pow2_digits m Hmpos) as [Hdl _].
      assert (Hge : (pow2 (e1 + 52) <= X)%R).
      { replace (e1 + 52) with ((Zdigits2 m - 1) + e) by lia.
        rewrite pow2_add. nra. }
      unfold ulp_rel.
      replace (pow2 e1) with (pow2 (-52) * pow2 (e1 + 52))%R
        by (rewrite <- pow2_add; f_equal; lia).
      pose proof (pow2_pos (-52)). nra. }
  unfold approx. rewrite (Rabs_right X) by lra.
  apply Rabs_le.
  destruct Hcases as [-> | ->]; fold q; rewrite ?plus_IZR; split; nra.
Qed.

(** ** Canonical representations *)

Lemma valid_finite (s : bool) (m : positive) (e : Z) :
  valid_binary (S754_finite s m e) = true ->
  fexp prec emax (Zdigits2 (Z.pos m) + e) = e /\ e <= 971.
Proof.
  cbn [SpecFloat.valid_binary]. unfold bounded, canonical_mantissa.
  intros H. apply andb_true_iff in H. destruct H as [H1 H2].
  apply Z.eqb_eq in H1. apply Z.leb_le in H2. split; [exact H1 |].
  unfold emax, prec in H2. lia.
Qed.

(** A canonical mantissa has at most 53 digits, exactly 53 unless the
    exponent is the least one. *)
Lemma valid_digits (s : bool) (m : positive) (e : Z) :
  valid_binary (S754_finite s m e) = true ->
  1 <= Zdigits2 (Z.pos m) <= 53 /\ -1074 <= e <= 971
  /\ (Zdigits2 (Z.pos m) < 53 -> e = -1074).
Proof.
  intros H. destruct (valid_finite s m e H) as [Hc He].
  rewrite fexp64 in Hc.
  pose proof (Zdigits2_bounds (Z.pos m) ltac:(lia)) as [Hlo Hhi].
  assert (1 <= Zdigits2 (Z.pos m)).
  { pose proof (Zdigits2_nonneg (Z.pos m)).
    destruct (Z.eq_dec (Zdigits2 (Z.pos m)) 0) as [E | E]; [| lia].
    rewrite E in Hhi. cbn in Hhi. lia. }
  lia.
Qed.

Lemma signed_mult (s1 s2 : bool) (a b : R) :
  (signed s1 a * signed s2 b = signed (xorb s1 s2) (a * b))%R.
Proof. destruct s1, s2; cbn [signed xorb]; lra. Qed.

Lemma Rabs_signed (s : bool) (a : R) : (0 <= a)%R -> Rabs (signed s a) = a.
Proof.
  intros Ha. destruct s; cbn [signed].
  - rewrite Rabs_Ropp. now apply Rabs_right, Rle_ge.
  - now apply Rabs_right, Rle_ge.
Qed.

Lemma digits_mag (m e : Z) :
  0 < m -> (IZR m * pow2 e < pow2 1023)%R -> Zdigits2 m + e <= 1023.
Proof.
  intros Hm H. pose proof (IZR_pow2_digits m Hm) as [Hlo _].
  pose proof (pow2_pos e).
  assert (pow2 (Zdigits2 m - 1 + e) < pow2 1023)%R.
  { rewrite pow2_add. nra. }
  apply pow2_lt_inv in H1. lia.
Qed.

(** ** Multiplication *)

Lemma Zdigits2_mul_lower (a b : positive) :
  Zdigits2 (Z.pos a) + Zdigits2 (Z.pos b) - 1 <= Zdigits2 (Z.pos (a * b)).
Proof.
  pose proof (Zdigits2_bounds (Z.pos a) ltac:(lia)) as [Alo _].
  pose proof (Zdigits2_bounds (Z.pos b) ltac:(lia)) as [Blo _].
  pose proof (Zdigits2_bounds (Z.pos (a * b)) ltac:(lia)) as [_ Phi].
  pose proof (Zdigits2_nonneg (Z.pos (a * b))).
  destruct (Z_le_gt_dec (Zdigits2 (Z.pos a) + Zdigits2 (Z.pos b) - 1)
              (Zdigits2 (Z.pos (a * b)))) as [| Hgt]; [assumption | exfalso].
  assert (Ha1 : 1 <= Zdigits2 (Z.pos a)).
  { destruct (Z_le_gt_dec 1 (Zdigits2 (Z.pos a))); [assumption |].
    pose proof (Zdigits2_nonneg (Z.pos a)).
    pose proof (Zdigits2_bounds (Z.pos a) ltac:(lia)) as [_ Ahi].
    replace (Zdigits2 (Z.pos a)) with 0 in Ahi by lia. cbn in Ahi. lia. }
  assert (Hb1 : 1 <= Zdigits2 (Z.pos b)).
  { destruct (Z_le_gt_dec 1 (Zdigits2 (Z.pos b))); [assumption |].
    pose proof (Zdigits2_nonneg (Z.pos b)).
    pose proof (Zdigits2_bounds (Z.pos b) ltac:(lia)) as [_ Bhi].
    replace (Zdigits2 (Z.pos b)) with 0 in Bhi by lia. cbn in Bhi. lia. }
  assert (Hp : 2 ^ (Zdigits2 (Z.pos a) - 1) * 2 ^ (Zdigits2 (Z.pos b) - 1)
               <= Z.pos a * Z.pos b).
  { apply Z.mul_le_mono_nonneg; try assumption; apply Z.pow_nonneg; lia. }
  rewrite <- Z.pow_add_r in Hp by lia.
  assert (2 ^ Zdigits2 (Z.pos (a * b))
          <= 2 ^ (Zdigits2 (Z.pos a) - 1 + (Zdigits2 (Z.pos b) - 1)))
    by (apply Z.pow_le_mono_r; lia).
  pose proof (Pos2Z.inj_mul a b) as E. rewrite E in Phi at 1. lia.
Qed.

Lemma SFmul_approx (x y : spec_float) :
  valid_binary x = true -> valid_binary y = true ->
  is_fin x = true -> is_fin y = true ->
  (Rabs (SFR x * SFR y) < pow2 1023)%R ->
  is_fin (SFmul prec emax x y) = true
  /\ approx (SFR x * SFR y) (SFR (SFmul prec emax x y)).
Proof.
  intros Vx Vy Fx Fy Hmag.
  destruct x as [sx | sx | | sx mx ex], y as [sy | sy | | sy my ey];
    try discriminate; cbn [SFmul SFR is_fin];
    try (split; [reflexivity |]; rewrite ?Rmult_0_l, ?Rmult_0_r; apply approx_refl).
  cbn [SFR] in Hmag. rewrite signed_mult in *.
  pose proof (pow2_pos ex). pose proof (pow2_pos ey).
  assert (Hprod : (IZR (Z.pos mx) * pow2 ex * (IZR (Z.pos my) * pow2 ey)
                   = IZR (Z.pos (mx * my)) * pow2 (ex + ey))%R).
  { rewrite Pos2Z.inj_mul, mult_IZR, pow2_add. ring. }
  rewrite Hprod in *.
  assert (Hnn : (0 <= IZR (Z.pos (mx * my)) * pow2 (ex + ey))%R).
  { pose proof (pow2_pos (ex + ey)).
    assert (0 <= IZR (Z.pos (mx * my)))%R by (apply IZR_le; lia). nra. }
  rewrite Rabs_signed in Hmag by assumption.
  destruct (valid_digits sx mx ex Vx) as (Dx & Ex & Sx).
  destruct (valid_digits sy my ey Vy) as (Dy & Ey & Sy).
  pose proof (Zdigits2_mul_lower mx my) as Hd.
  apply round_aux_error.
  - lia.
  - rewrite fexp64. lia.
  - apply digits_mag; [lia | assumption].
  - split; [lra |]. rewrite plus_IZR. pose proof (pow2_pos (ex + ey)). nra.
Qed.

(** ** Normalisation of an integer mantissa *)

Lemma iter_xO (d m : positive) : Z.pos (Pos.iter xO m d) = Z.pos m * 2 ^ Z.pos d.
Proof.
  induction d as [| d IH] using Pos.peano_ind.
  - cbn [Pos.iter]. rewrite Pos2Z.inj_xO. change (2 ^ 1) with 2. lia.
  - rewrite Pos.iter_succ, Pos2Z.inj_xO, IH, Pos2Z.inj_succ, Z.pow_succ_r by lia. lia.
Qed.

Lemma Zdigits2_shift (m d : Z) :
  0 < m -> 0 <= d -> Zdigits2 (m * 2 ^ d) = Zdigits2 m + d.
Proof.
  intros Hm Hd. pose proof (Zdigits2_bounds m Hm) as [Hlo Hhi].
  pose proof (Zdigits2_nonneg m).
  assert (0 < Zdigits2 m).
  { destruct (Z.eq_dec (Zdigits2 m) 0) as [E | E]; [| lia].
    rewrite E in Hhi. cbn in Hhi. lia. }
  assert (0 < 2 ^ d) by (apply Z.pow_pos_nonneg; lia).
  apply Zdigits2_unique; [| nia].
  replace (Zdigits2 m + d - 1) with (Zdigits2 m - 1 + d) by lia.
  rewrite !Z.pow_add_r by lia. split; nia.
Qed.

(** [shl_align] keeps the value and the position of the leading digit, and
    lowers the exponent to the requested one when that is smaller. *)
Lemma shl_align_spec (m : positive) (e e' : Z) :
  let r := shl_align m e e' in
  (IZR (Z.pos (fst r)) * pow2 (snd r) = IZR (Z.pos m) * pow2 e)%R
  /\ snd r = Z.min e e'
  /\ Zdigits2 (Z.pos (fst r)) + snd r = Zdigits2 (Z.pos m) + e.
Proof.
  unfold shl_align. destruct (e' - e) as [| p | p] eqn:E; cbn [fst snd].
  - split; [reflexivity |]. split; lia.
  - split; [reflexivity |]. split; lia.
  - rewrite iter_xO. split; [| split; [lia |]].
    + rewrite mult_IZR, <- pow2_nonneg_IZR by lia.
      replace e with (Z.pos p + e') by lia. rewrite pow2_add. ring.
    + rewrite Zdigits2_shift by lia. lia.
Qed.

Lemma binary_round_error (s : bool) (m : positive) (e : Z) :
  (IZR (Z.pos m) * pow2 e < pow2 1023)%R ->
  is_fin (binary_round prec emax s m e) = true
  /\ approx (signed s (IZR (Z.pos m) * pow2 e)) (SFR (binary_round prec emax s m e)).
Proof.
  intros Hmag. unfold binary_round.
  pose proof (shl_align_spec m e (fexp prec emax (Z.pos (digits2_pos m) + e)))
    as (Hv & He & Hd).
  destruct (shl_align m e (fexp prec emax (Z.pos (digits2_pos m) + e)))
    as [mz ez] eqn:Es.
  cbn [fst snd] in Hv, He, Hd.
  change (Z.pos (digits2_pos m)) with (Zdigits2 (Z.pos m)) in He.
  rewrite <- Hv in *.
  apply round_aux_error.
  - lia.
  - rewrite Hd. lia.
  - apply digits_mag; [lia | assumption].
  - split; [lra |]. rewrite plus_IZR. pose proof (pow2_pos ez). nra.
Qed.

(** Below [2^53] the mantissa fits and nothing is rounded. *)
Lemma binary_round_exact (s : bool) (m : positive) (e : Z) :
  Z.pos m < 2 ^ 53 -> -1074 <= e -> Zdigits2 (Z.pos m) + e <= 1023 ->
  is_fin (binary_round prec emax s m e) = true
  /\ SFR (binary_round prec emax s m e) = signed s (IZR (Z.pos m) * pow2 e).
Proof.
  intros Hm He Hmag. unfold binary_round.
  pose proof (shl_align_spec m e (fexp prec emax (Z.pos (digits2_pos m) + e)))
    as (Hv & Hez & Hd).
  destruct (shl_align m e (fexp prec emax (Z.pos (digits2_pos m) + e)))
    as [mz ez] eqn:Es.
  cbn [fst snd] in Hv, Hez, Hd.
  change (Z.pos (digits2_pos m)) with (Zdigits2 (Z.pos m)) in Hez.
  assert (Hdm : Zdigits2 (Z.pos m) <= 53).
  { pose proof (Zdigits2_bounds (Z.pos m) ltac:(lia)) as [Hlo _].
    destruct (Z_le_gt_dec (Zdigits2 (Z.pos m)) 53) as [| Hgt]; [assumption |].
    assert (2 ^ 53 <= 2 ^ (Zdigits2 (Z.pos m) - 1)) by (apply Z.pow_le_mono_r; lia).
    lia. }
  rewrite fexp64 in Hez.
  assert (Hfix : fexp prec emax (Zdigits2 (Z.pos mz) + ez) = ez).
  { rewrite Hd, fexp64. lia. }
  destruct (round_aux_spec s (Z.pos mz) ez loc_Exact) as (m1 & _ & Hex & Hfin & Hval).
  - lia.
  - lia.
  - lia.
  - split; [exact Hfin |]. rewrite Hval, Hfix, (Hex eq_refl Hfix), Hv. reflexivity.
Qed.

Lemma binary_normalize_error (z e : Z) (sz : bool) :
  (Rabs (IZR z * pow2 e) < pow2 1023)%R ->
  is_fin (binary_normalize prec emax z e sz) = true
  /\ approx (IZR z * pow2 e) (SFR (binary_normalize prec emax z e sz)).
Proof.
  intros Hmag. pose proof (pow2_pos e) as Hp.
  destruct z as [| p | p]; cbn [binary_normalize].
  - split; [reflexivity |]. cbn [SFR]. rewrite Rmult_0_l. apply approx_refl.
  - assert (0 < IZR (Z.pos p))%R by (apply IZR_lt; lia).
    rewrite Rabs_right in Hmag by nra.
    apply (binary_round_error false p e Hmag).
  - assert (0 < IZR (Z.pos p))%R by (apply IZR_lt; lia).
    assert (E : (IZR (Z.neg p) * pow2 e = - (IZR (Z.pos p) * pow2 e))%R).
    { change (Z.neg p) with (- Z.pos p). rewrite opp_IZR. ring. }
    rewrite E in *. rewrite Rabs_Ropp, Rabs_right in Hmag by nra.
    apply (binary_round_error true p e Hmag).
Qed.

Lemma binary_normalize_exact (z e : Z) (sz : bool) :
  Z.abs z < 2 ^ 53 -> -1074 <= e -> Zdigits2 (Z.abs z) + e <= 1023 ->
  is_fin (binary_normalize prec emax z e sz) = true
  /\ SFR (binary_normalize prec emax z e sz) = (IZR z * pow2 e)%R.
Proof.
  intros Hz He Hmag.
  destruct z as [| p | p]; cbn [binary_normalize].
  - split; [reflexivity |]. cbn [SFR]. ring.
  - apply (binary_round_exact false p e); assumption.
  - destruct (binary_round_exact true p e) as [Hf Hv]; try assumption.
    split; [exact Hf |]. rewrite Hv. cbn [signed].
    change (Z.neg p) with (- Z.pos p). rewrite opp_IZR. ring.
Qed.

(** ** Addition and subtraction *)

Lemma cond_Zopp_IZR (s : bool) (m : Z) : IZR (cond_Zopp s m) = signed s (IZR m).
Proof. destruct s; cbn [cond_Zopp signed]; [apply opp_IZR | reflexivity]. Qed.

Lemma signed_scale (s : bool) (a b : R) : (signed s a * b = signed s (a * b))%R.
Proof. destruct s; cbn [signed]; ring. Qed.

(** The aligned sum of two finite values is their sum. *)
Lemma aligned_sum (s1 s2 : bool) (m1 m2 : positive) (e1 e2 : Z) :
  let ez := Z.min e1 e2 in
  (IZR (cond_Zopp s1 (Z.pos (fst (shl_align m1 e1 ez)))
        + cond_Zopp s2 (Z.pos (fst (shl_align m2 e2 ez)))) * pow2 ez
   = signed s1 (IZR (Z.pos m1) * pow2 e1) + signed s2 (IZR (Z.pos m2) * pow2 e2))%R.
Proof.
  intros ez.
  pose proof (shl_align_spec m1 e1 ez) as (Hv1 & He1 & _).
  pose proof (shl_align_spec m2 e2 ez) as (Hv2 & He2 & _).
  cbn zeta in *.
  replace (snd (shl_align m1 e1 ez)) with ez in Hv1 by (unfold ez in *; lia).
  replace (snd (shl_align m2 e2 ez)) with ez in Hv2 by (unfold ez in *; lia).
  rewrite plus_IZR, !cond_Zopp_IZR, Rmult_plus_distr_r, !signed_scale, Hv1, Hv2.
  reflexivity.
Qed.

Lemma SFadd_approx (x y : spec_float) :
  is_fin x = true -> is_fin y = true ->
  (Rabs (SFR x + SFR y) < pow2 1023)%R ->
  is_fin (SFadd prec emax x y) = true
  /\ approx (SFR x + SFR y) (SFR (SFadd prec emax x y)).
Proof.
  intros Fx Fy Hmag.
  destruct x as [sx | sx | | sx mx ex], y as [sy | sy | | sy my ey];
    try discriminate; cbn [SFadd SFR is_fin].
  - destruct sx, sy; split; try reflexivity; cbn [SFR];
      rewrite Rplus_0_l; apply approx_refl.
  - split; [reflexivity |]. rewrite Rplus_0_l. apply approx_refl.
  - split; [reflexivity |]. rewrite Rplus_0_r. apply approx_refl.
  - cbn [SFR] in Hmag. rewrite <- aligned_sum in *.
    apply binary_normalize_error. exact Hmag.
Qed.

Lemma SFsub_approx (x y : spec_float) :
  is_fin x = true -> is_fin y = true ->
  (Rabs (SFR x - SFR y) < pow2 1023)%R ->
  is_fin (SFsub prec emax x y) = true
  /\ approx (SFR x - SFR y) (SFR (SFsub prec emax x y)).
Proof.
  intros Fx Fy Hmag.
  destruct x as [sx | sx | | sx mx ex], y as [sy | sy | | sy my ey];
    try discriminate; cbn [SFsub SFR is_fin].
  - destruct sx, sy; split; try reflexivity; cbn [SFR];
      rewrite Rminus_0_r; apply approx_refl.
  - split; [reflexivity |]. cbn [SFR].
    replace (0 - signed sy (IZR (Z.pos my) * pow2 ey))%R
      with (signed (negb sy) (IZR (Z.pos my) * pow2 ey))
      by (destruct sy; cbn [signed negb]; lra).
    apply approx_refl.
  - split; [reflexivity |]. rewrite Rminus_0_r. apply approx_refl.
  - cbn [SFR] in Hmag.
    assert (E : (IZR (cond_Zopp sx (Z.pos (fst (shl_align mx ex (Z.min ex ey))))
                      - cond_Zopp sy (Z.pos (fst (shl_align my ey (Z.min ex ey)))))
                 * pow2 (Z.min ex ey)
                 = signed sx (IZR (Z.pos mx) * pow2 ex)
                   - signed sy (IZR (Z.pos my) * pow2 ey))%R).
    { pose proof (aligned_sum sx (negb sy) mx my ex ey) as H. cbn zeta in H.
      rewrite plus_IZR in H. rewrite minus_IZR.
      rewrite !cond_Zopp_IZR in *.
      destruct sy; cbn [signed negb] in *; lra. }
    rewrite <- E in *.
    apply binary_normalize_error. exact Hmag.
Qed.

(** A finite value minus itself is the positive zero. *)
Lemma SFsub_diag (x : spec_float) :
  is_fin x = true -> SFsub prec emax x x = S754_zero false.
Proof.
  destruct x as [s | s | | s m e]; try discriminate; intros _; cbn [SFsub].
  - destruct s; reflexivity.
  - rewrite Z.min_id.
    assert (E : fst (shl_align m e e) = m).
    { unfold shl_align. rewrite Z.sub_diag. reflexivity. }
    rewrite E, Z.sub_diag. reflexivity.
Qed.

(** ** Division *)

Lemma Zdigits2_lower (q k : Z) : 0 <= k -> 2 ^ k <= q -> k + 1 <= Zdigits2 q.
Proof.
  intros Hk Hq. assert (0 < 2 ^ k) by (apply Z.pow_pos_nonneg; lia).
  pose proof (Zdigits2_bounds q ltac:(lia)) as [_ Hhi].
  pose proof (Zdigits2_nonneg q).
  destruct (Z_le_gt_dec (k + 1) (Zdigits2 q)) as [| Hgt]; [assumption |].
  assert (2 ^ Zdigits2 q <= 2 ^ k) by (apply Z.pow_le_mono_r; lia). lia.
Qed.

Lemma signed_div (s1 s2 : bool) (a b : R) :
  b <> 0%R -> (signed s1 a / signed s2 b = signed (xorb s1 s2) (a / b))%R.
Proof. intros Hb. destruct s1, s2; cbn [signed xorb]; field; assumption. Qed.

Lemma SFdiv_approx (x y : spec_float) :
  valid_binary x = true -> valid_binary y = true ->
  is_fin x = true -> is_fin y = true ->
  SFR y <> 0%R ->
  (Rabs (SFR x / SFR y) < pow2 1023)%R ->
  is_fin (SFdiv prec emax x y) = true
  /\ approx (SFR x / SFR y) (SFR (SFdiv prec emax x y)).
Proof.
  intros Vx Vy Fx Fy Hy Hmag.
  destruct x as [sx | sx | | sx mx ex], y as [sy | sy | | sy my ey];
    try discriminate; cbn [SFR] in Hy; try (exfalso; apply Hy; reflexivity).
  - cbn [SFdiv SFR is_fin]. split; [reflexivity |].
    unfold Rdiv. rewrite Rmult_0_l. apply approx_refl.
  - cbn [SFR] in *.
    pose proof (pow2_pos ex) as Pex. pose proof (pow2_pos ey) as Pey.
    assert (Pmx : (0 < IZR (Z.pos mx))%R) by (apply IZR_lt; lia).
    assert (Pmy : (0 < IZR (Z.pos my))%R) by (apply IZR_lt; lia).
    assert (Hb : (IZR (Z.pos my) * pow2 ey <> 0)%R) by nra.
    rewrite signed_div in * by assumption.
    set (X := (IZR (Z.pos mx) * pow2 ex / (IZR (Z.pos my) * pow2 ey))%R) in *.
    assert (HX0 : (0 < X)%R).
    { unfold X. apply Rdiv_lt_0_compat; nra. }
    rewrite Rabs_signed in Hmag by lra.
    destruct (valid_digits sx mx ex Vx) as (Dx & Ex & Sx).
    destruct (valid_digits sy my ey Vy) as (Dy & Ey & Sy).
    cbn [SFdiv]. unfold SFdiv_core_binary.
    set (d1 := Zdigits2 (Z.pos mx)) in *. set (d2 := Zdigits2 (Z.pos my)) in *.
    set (e' := Z.min (fexp prec emax (d1 + ex - (d2 + ey))) (ex - ey)).
    set (s := ex - ey - e').
    assert (Hs : 0 <= s) by (unfold s, e'; lia).
    set (m' := match s with
               | 0 => Z.pos mx
               | Z.pos _ => Z.shiftl (Z.pos mx) s
               | Z.neg _ => 0
               end).
    assert (Hm' : m' = Z.pos mx * 2 ^ s).
    { unfold m'. destruct s as [| p | p]; [cbn; lia | | lia].
      rewrite Z.shiftl_mul_pow2 by lia. reflexivity. }
    clearbody m'.
    pose proof (Z.div_eucl_eq m' (Z.pos my) ltac:(lia)) as Heq.
    pose proof (Z.mod_pos_bound m' (Z.pos my) ltac:(lia)) as Hr.
    unfold Z.modulo in Hr.
    destruct (Z.div_eucl m' (Z.pos my)) as [q r] eqn:Ediv.
    assert (P2s : 0 < 2 ^ s) by (apply Z.pow_pos_nonneg; lia).
    assert (Hq0 : 0 <= q) by nia.
    (* the quotient brackets the exact value *)
    assert (HXe : (X = IZR m' / IZR (Z.pos my) * pow2 e')%R).
    { unfold X. rewrite Hm', mult_IZR, <- (pow2_nonneg_IZR s) by lia.
      replace ex with (s + e' + ey) by (unfold s; lia).
      rewrite !pow2_add. field. split; lra. }
    pose proof (pow2_pos e') as Pe'.
    assert (Ht : (IZR m' / IZR (Z.pos my) * IZR (Z.pos my) = IZR m')%R)
      by (field; lra).
    set (t := (IZR m' / IZR (Z.pos my))%R) in *.
    assert (Hqm : (IZR q * IZR (Z.pos my) <= IZR m')%R).
    { rewrite <- mult_IZR. apply IZR_le. lia. }
    assert (Hqm1 : (IZR m' < IZR (q + 1) * IZR (Z.pos my))%R).
    { rewrite <- mult_IZR. apply IZR_lt. lia. }
    assert (Hlo : (IZR q * pow2 e' <= X)%R).
    { rewrite HXe. apply Rmult_le_compat_r; [lra | nra]. }
    assert (Hhi : (X < IZR (q + 1) * pow2 e')%R).
    { rewrite HXe. apply Rmult_lt_compat_r; [lra | nra]. }
    (* the exponent is fine enough *)
    assert (Hfine : e' <= -1074 \/ (e' <= Zdigits2 q + e' - 53 /\ 0 < q)).
    { destruct (Z_le_gt_dec e' (-1074)) as [| Hgt]; [left; assumption | right].
      assert (He'D : e' <= d1 + ex - (d2 + ey) - 53).
      { unfold e' in *. rewrite fexp64 in *. lia. }
      assert (Hs1 : d2 - d1 + 53 <= s) by (unfold s; lia).
      pose proof (Zdigits2_bounds (Z.pos mx) ltac:(lia)) as [Xlo _].
      pose proof (Zdigits2_bounds (Z.pos my) ltac:(lia)) as [_ Yhi].
      fold d1 in Xlo. fold d2 in Yhi.
      assert (Hk : 0 <= d1 - 1 + s - d2) by lia.
      assert (Hq : 2 ^ (d1 - 1 + s - d2) <= q).
      { assert (Hd : q = m' / Z.pos my).
        { unfold Z.div. rewrite Ediv. reflexivity. }
        rewrite Hd. apply Z.div_le_lower_bound; [lia |].
        rewrite Hm'.
        assert (H1 : Z.pos my * 2 ^ (d1 - 1 + s - d2) <= 2 ^ d2 * 2 ^ (d1 - 1 + s - d2)).
        { apply Z.mul_le_mono_nonneg_r; [apply Z.pow_nonneg |]; lia. }
        rewrite <- Z.pow_add_r in H1 by lia.
        replace (d2 + (d1 - 1 + s - d2)) with (d1 - 1 + s) in H1 by lia.
        rewrite Z.pow_add_r in H1 by lia.
        assert (H2 : 2 ^ (d1 - 1) * 2 ^ s <= Z.pos mx * 2 ^ s).
        { apply Z.mul_le_mono_nonneg_r; lia. }
        lia. }
      pose proof (Zdigits2_lower q _ Hk Hq).
      assert (0 < 2 ^ (d1 - 1 + s - d2)) by (apply Z.pow_pos_nonneg; lia).
      split; lia. }
    apply round_aux_error.
    + exact Hq0.
    + rewrite fexp64. lia.
    + destruct (Z.eq_dec q 0) as [-> | Hq].
      * cbn [Zdigits2]. lia.
      * apply digits_mag; [lia | lra].
    + split; assumption.
Qed.

(** ** Order *)

(** Among canonical representations a smaller exponent is a smaller
    magnitude. *)
Lemma valid_exp_lt (s1 s2 : bool) (m1 m2 : positive) (e1 e2 : Z) :
  valid_binary (S754_finite s1 m1 e1) = true ->
  valid_binary (S754_finite s2 m2 e2) = true ->
  e1 < e2 -> (IZR (Z.pos m1) * pow2 e1 < IZR (Z.pos m2) * pow2 e2)%R.
Proof.
  intros V1 V2 He.
  destruct (valid_digits s1 m1 e1 V1) as (D1 & E1 & S1).
  destruct (valid_digits s2 m2 e2 V2) as (D2 & E2 & S2).
  pose proof (IZR_pow2_digits (Z.pos m1) ltac:(lia)) as [_ H1].
  pose proof (IZR_pow2_digits (Z.pos m2) ltac:(lia)) as [H2 _].
  assert (Zdigits2 (Z.pos m2) = 53) by lia.
  pose proof (pow2_pos e1). pose proof (pow2_pos e2).
  apply Rlt_le_trans with (pow2 (53 + e1)).
  - rewrite pow2_add. assert (pow2 (Zdigits2 (Z.pos m1)) <= pow2 53)%R
      by (apply pow2_le; lia). nra.
  - apply Rle_trans with (pow2 (52 + e2)); [apply pow2_le; lia |].
    rewrite pow2_add. replace (Zdigits2 (Z.pos m2) - 1) with 52 in H2 by lia. nra.
Qed.

Definition Rcmp (c : comparison) (a b : R) : Prop :=
  match c with
  | Lt => (a < b)%R
  | Eq => a = b
  | Gt => (b < a)%R
  end.

Lemma Rcmp_opp (c : comparison) (a b : R) : Rcmp c a b -> Rcmp (CompOpp c) (- a) (- b).
Proof. destruct c; cbn [Rcmp CompOpp]; intros; lra. Qed.

Lemma mag_compare (s1 s2 : bool) (m1 m2 : positive) (e1 e2 : Z) :
  valid_binary (S754_finite s1 m1 e1) = true ->
  valid_binary (S754_finite s2 m2 e2) = true ->
  Rcmp (match e1 ?= e2 with
        | Eq => Pos.compare_cont Eq m1 m2
        | Lt => Lt
        | Gt => Gt
        end) (IZR (Z.pos m1) * pow2 e1) (IZR (Z.pos m2) * pow2 e2).
Proof.
  intros V1 V2. destruct (Z.compare_spec e1 e2) as [E | E | E].
  - subst e2. change (Pos.compare_cont Eq m1 m2) with (Pos.compare m1 m2).
    pose proof (pow2_pos e1).
    destruct (Pos.compare_spec m1 m2) as [C | C | C]; cbn [Rcmp].
    + subst; reflexivity.
    + assert (IZR (Z.pos m1) < IZR (Z.pos m2))%R by (apply IZR_lt; lia). nra.
    + assert (IZR (Z.pos m2) < IZR (Z.pos m1))%R by (apply IZR_lt; lia). nra.
  - cbn [Rcmp]. eapply valid_exp_lt; eassumption.
  - cbn [Rcmp]. eapply valid_exp_lt; eassumption.
Qed.

(** On finite values [SFcompare] is the comparison of the reals. *)
Lemma SFcompare_real (x y : spec_float) :
  valid_binary x = true -> valid_binary y = true ->
  is_fin x = true -> is_fin y = true ->
  exists c, SFcompare x y = Some c /\ Rcmp c (SFR x) (SFR y).
Proof.
  intros Vx Vy Fx Fy.
  destruct x as [sx | sx | | sx mx ex], y as [sy | sy | | sy my ey];
    try discriminate; cbn [SFcompare SFR].
  - exists Eq. split; reflexivity.
  - assert (0 < IZR (Z.pos my) * pow2 ey)%R.
    { pose proof (pow2_pos ey). assert (0 < IZR (Z.pos my))%R by (apply IZR_lt; lia). nra. }
    destruct sy; eexists; (split; [reflexivity |]); cbn [Rcmp signed]; lra.
  - assert (0 < IZR (Z.pos mx) * pow2 ex)%R.
    { pose proof (pow2_pos ex). assert (0 < IZR (Z.pos mx))%R by (apply IZR_lt; lia). nra. }
    destruct sx; eexists; (split; [reflexivity |]); cbn [Rcmp signed]; lra.
  - assert (0 < IZR (Z.pos mx) * pow2 ex)%R.
    { pose proof (pow2_pos ex). assert (0 < IZR (Z.pos mx))%R by (apply IZR_lt; lia). nra. }
    assert (0 < IZR (Z.pos my) * pow2 ey)%R.
    { pose proof (pow2_pos ey). assert (0 < IZR (Z.pos my))%R by (apply IZR_lt; lia). nra. }
    pose proof (mag_compare sx sy mx my ex ey Vx Vy) as Hc.
    destruct sx, sy; eexists; (split; [reflexivity |]); cbn [signed].
    + apply Rcmp_opp in Hc.
      destruct (ex ?= ey); cbn [CompOpp] in *; exact Hc.
    + cbn [Rcmp]. lra.
    + cbn [Rcmp]. lra.
    + exact Hc.
Qed.

Lemma SFltb_real (x y : spec_float) :
  valid_binary x = true -> valid_binary y = true ->
  is_fin x = true -> is_fin y = true ->
  SFltb x y = true <-> (SFR x < SFR y)%R.
Proof.
  intros Vx Vy Fx Fy.
  destruct (SFcompare_real x y Vx Vy Fx Fy) as (c & Hc & Hr).
  unfold SFltb. rewrite Hc.
  destruct c; cbn [Rcmp] in Hr; split; intros H; try discriminate; try reflexivity; lra.
Qed.

Lemma SFleb_real (x y : spec_float) :
  valid_binary x = true -> valid_binary y = true ->
  is_fin x = true -> is_fin y = true ->
  SFleb x y = true <-> (SFR x <= SFR y)%R.
Proof.
  intros Vx Vy Fx Fy.
  destruct (SFcompare_real x y Vx Vy Fx Fy) as (c & Hc & Hr).
  unfold SFleb. rewrite Hc.
  destruct c; cbn [Rcmp] in Hr; split; intros H; try discriminate; try reflexivity; lra.
Qed.

Lemma SFeqb_real (x y : spec_float) :
  valid_binary x = true -> valid_binary y = true ->
  is_fin x = true -> is_fin y = true ->
  SFeqb x y = true <-> SFR x = SFR y.
Proof.
  intros Vx Vy Fx Fy.
  destruct (SFcompare_real x y Vx Vy Fx Fy) as (c & Hc & Hr).
  unfold SFeqb. rewrite Hc.
  destruct c; cbn [Rcmp] in Hr; split; intros H; try discriminate; try reflexivity; lra.
Qed.

(** ** Binary64 values of the kernel *)

(** The real number a [float] stands for (0 for NaN and the infinities),
    and the finite ones. *)
Definition F2R (x : float) : R := SFR (Prim2SF x).
Definition ffin (x : float) : Prop := is_fin (Prim2SF x) = true.

Lemma ffin_not_nan (x : float) : ffin x -> is_nan x = false.
Proof.
  unfold ffin. intros H. apply is_nan_false. unfold not_nan.
  destruct (Prim2SF x); [discriminate .. | discriminate | discriminate].
Qed.

Lemma fadd_approx (x y : float) :
  ffin x -> ffin y -> (Rabs (F2R x + F2R y) < pow2 1023)%R ->
  ffin (x + y) /\ approx (F2R x + F2R y) (F2R (x + y)).
Proof. unfold ffin, F2R. rewrite add_spec. apply SFadd_approx. Qed.

Lemma fsub_approx (x y : float) :
  ffin x -> ffin y -> (Rabs (F2R x - F2R y) < pow2 1023)%R ->
  ffin (x - y) /\ approx (F2R x - F2R y) (F2R (x - y)).
Proof. unfold ffin, F2R. rewrite sub_spec. apply SFsub_approx. Qed.

Lemma fmul_approx (x y : float) :
  ffin x -> ffin y -> (Rabs (F2R x * F2R y) < pow2 1023)%R ->
  ffin (x * y) /\ approx (F2R x * F2R y) (F2R (x * y)).
Proof.
  unfold ffin, F2R. rewrite mul_spec. apply SFmul_approx; apply Prim2SF_valid.
Qed.

Lemma fdiv_approx (x y : float) :
  ffin x -> ffin y -> F2R y <> 0%R -> (Rabs (F2R x / F2R y) < pow2 1023)%R ->
  ffin (x / y) /\ approx (F2R x / F2R y) (F2R (x / y)).
Proof.
  unfold ffin, F2R. rewrite div_spec. apply SFdiv_approx; apply Prim2SF_valid.
Qed.

Lemma fsub_diag (x : float) : ffin x -> (x - x)%float = zero.
Proof.
  intros H. apply Prim2SF_inj. rewrite sub_spec.
  unfold SF64sub. rewrite SFsub_diag by exact H. reflexivity.
Qed.

Lemma fltb_real (x y : float) :
  ffin x -> ffin y -> PrimFloat.ltb x y = true <-> (F2R x < F2R y)%R.
Proof.
  intros Fx Fy. rewrite ltb_spec. apply SFltb_real; auto using Prim2SF_valid.
Qed.

Lemma fleb_real (x y : float) :
  ffin x -> ffin y -> PrimFloat.leb x y = true <-> (F2R x <= F2R y)%R.
Proof.
  intros Fx Fy. rewrite leb_spec. apply SFleb_real; auto using Prim2SF_valid.
Qed.

Lemma feqb_real (x y : float) :
  ffin x -> ffin y -> PrimFloat.eqb x y = true <-> F2R x = F2R y.
Proof.
  intros Fx Fy. rewrite eqb_spec. apply SFeqb_real; auto using Prim2SF_valid.
Qed.

(** Two finite values with the same non-zero real value are the same
    value. *)
Lemma SFR_inj (x y : spec_float) :
  valid_binary x = true -> valid_binary y = true ->
  is_fin x = true -> is_fin y = true ->
  SFR x = SFR y -> SFR x <> 0%R -> x = y.
Proof.
  intros Vx Vy Fx Fy E Hnz.
  destruct (SFcompare_real x y Vx Vy Fx Fy) as (c & Hc & Hr).
  destruct c; cbn [Rcmp] in Hr; try lra. clear Hr.
  destruct x as [sx | sx | | sx mx ex], y as [sy | sy | | sy my ey];
    try discriminate; cbn [SFR] in *; try (exfalso; apply Hnz; reflexivity);
    try (exfalso; apply Hnz; symmetry; exact E); try (exfalso; lra).
  cbn [SFcompare] in Hc.
  change (Pos.compare_cont Eq mx my) with (Pos.compare mx my) in Hc.
  destruct sx, sy; try discriminate;
    destruct (Z.compare_spec ex ey) as [He | He | He]; try discriminate;
    destruct (Pos.compare_spec mx my) as [Hm | Hm | Hm]; try discriminate;
    subst; reflexivity.
Qed.

Lemma F2R_inj (x y : float) :
  ffin x -> ffin y -> F2R x = F2R y -> F2R x <> 0%R -> x = y.
Proof.
  intros Fx Fy E Hnz. apply Prim2SF_inj.
  apply SFR_inj; auto using Prim2SF_valid.
Qed.

(** ** Integers as binary64 values *)

Lemma binary_round_aux_opp (m e : Z) (l : location) :
  binary_round_aux prec emax true m e l
  = SFopp (binary_round_aux prec emax false m e l).
Proof.
  unfold binary_round_aux.
  destruct (shr_fexp prec emax m e l) as [mrs' e'].
  destruct (shr_fexp prec emax _ e' loc_Exact) as [mrs'' e''].
  destruct (shr_m mrs''); try reflexivity.
  destruct (e'' <=? emax - prec); reflexivity.
Qed.

Lemma binary_round_opp (m : positive) (e : Z) :
  binary_round prec emax true m e = SFopp (binary_round prec emax false m e).
Proof.
  unfold binary_round.
  destruct (shl_align m e _) as [mz ez]. apply binary_round_aux_opp.
Qed.

Lemma Prim2SF_of_Z (z : Z) :
  Z.abs z < 2 ^ 63 -> Prim2SF (JS.of_Z z) = binary_normalize prec emax z 0 false.
Proof.
  intros Hz.
  assert (Hpos : forall p, Z.pos p < 2 ^ 63 ->
            Prim2SF (JS.of_Z (Z.pos p)) = binary_normalize prec emax (Z.pos p) 0 false).
  { intros p Hp.
    assert (E : Z.pos p = Uint63.to_Z (Uint63.of_Z (Z.pos p))).
    { rewrite Uint63.of_Z_spec. symmetry. apply Z.mod_small.
      change Uint63.wB with (2 ^ 63). lia. }
    rewrite E at 1. rewrite of_Z_of_uint63, of_uint63_spec, <- E. reflexivity. }
  destruct z as [| p | p].
  - unfold JS.of_Z. cbn [binary_normalize]. apply Prim2SF_SF2Prim. reflexivity.
  - apply Hpos. lia.
  - assert (E : JS.of_Z (Z.neg p) = (- JS.of_Z (Z.pos p))%float).
    { unfold JS.of_Z at 1. cbn [binary_normalize].
      rewrite binary_round_opp.
      change (binary_round prec emax false p 0)
        with (binary_normalize prec emax (Z.pos p) 0 false).
      rewrite <- Hpos by lia. rewrite <- opp_spec. apply SF2Prim_Prim2SF. }
    rewrite E, opp_spec, Hpos by lia. cbn [binary_normalize].
    symmetry. apply binary_round_opp.
Qed.

Lemma Zdigits2_le (m k : Z) : 0 <= k -> 0 <= m < 2 ^ k -> Zdigits2 m <= k.
Proof.
  intros Hk [Hm0 Hm]. destruct (Z.eq_dec m 0) as [-> | Hne]; [cbn; lia |].
  pose proof (Zdigits2_bounds m ltac:(lia)) as [Hlo _].
  destruct (Z_le_gt_dec (Zdigits2 m) k) as [| Hgt]; [assumption |].
  assert (2 ^ k <= 2 ^ (Zdigits2 m - 1)) by (apply Z.pow_le_mono_r; lia). lia.
Qed.

(** An integer below [2^53] in magnitude is a binary64 value. *)
Lemma F2R_of_Z (z : Z) :
  Z.abs z < 2 ^ 53 -> ffin (JS.of_Z z) /\ F2R (JS.of_Z z) = IZR z.
Proof.
  intros Hz. unfold ffin, F2R. rewrite Prim2SF_of_Z by lia.
  pose proof (Zdigits2_le (Z.abs z) 53 ltac:(lia) ltac:(lia)).
  destruct (binary_normalize_exact z 0 false) as [Hf Hv]; try lia.
  split; [exact Hf |]. rewrite Hv, pow2_0. ring.
Qed.

(** ** Values of literals *)

Lemma pow2_neg (k : positive) : pow2 (Z.neg k) = (/ IZR (2 ^ Z.pos k))%R.
Proof.
  change (Z.neg k) with (- Z.pos k). unfold pow2.
  rewrite powerRZ_neg' , <- pow2_nonneg_IZR by lia. reflexivity.
Qed.

Lemma F2R_finite (x : float) (s : bool) (m : positive) (e : Z) :
  Prim2SF x = S754_finite s m e ->
  ffin x /\ F2R x = signed s (IZR (Z.pos m) * pow2 e).
Proof. unfold ffin, F2R. intros ->. split; reflexivity. Qed.

Lemma F2R_zero (x : float) (s : bool) :
  Prim2SF x = S754_zero s -> ffin x /\ F2R x = 0%R.
Proof. unfold ffin, F2R. intros ->. split; reflexivity. Qed.

(** ** Tolerances *)

(** Below [2^20] in magnitude one rounding moves a value by at most
    [tol = 2^-31]. *)
Definition tol : R := (/ 2147483648)%R.

Lemma ulp_rel_val : ulp_rel = (/ 4503599627370496)%R.
Proof. unfold ulp_rel. rewrite pow2_neg. f_equal. Qed.

Lemma ulp_abs_le : (ulp_abs <= / 4503599627370496)%R.
Proof.
  unfold ulp_abs. rewrite <- ulp_rel_val. unfold ulp_rel. apply pow2_le. lia.
Qed.

Lemma approx_tol (X v : R) :
  approx X v -> (-1048576 <= X <= 1048576)%R -> (- tol <= v - X <= tol)%R.
Proof.
  unfold approx. intros H HX.
  assert (Rabs X <= 1048576)%R by (apply Rabs_le; lra).
  pose proof ulp_abs_le. rewrite ulp_rel_val in H.
  assert (Hv : (Rabs (v - X) <= tol)%R) by (unfold tol; lra).
  revert Hv. unfold Rabs at 1. destruct (Rcase_abs (v - X)); unfold tol; lra.
Qed.

Lemma small_lt_huge (X : R) : (-1048576 <= X <= 1048576)%R -> (Rabs X < pow2 1023)%R.
Proof.
  intros H. apply Rle_lt_trans with 1048576%R; [apply Rabs_le; lra |].
  change 1048576%R with (IZR (2 ^ 20)). rewrite <- pow2_nonneg_IZR by lia.
  apply pow2_lt. lia.
Qed.

Lemma fadd_tol (x y : float) :
  ffin x -> ffin y -> (-1048576 <= F2R x + F2R y <= 1048576)%R ->
  ffin (x + y) /\ (- tol <= F2R (x + y) - (F2R x + F2R y) <= tol)%R.
Proof.
  intros Fx Fy H. destruct (fadd_approx x y Fx Fy (small_lt_huge _ H)) as [F A].
  split; [exact F | now apply approx_tol].
Qed.

Lemma fsub_tol (x y : float) :
  ffin x -> ffin y -> (-1048576 <= F2R x - F2R y <= 1048576)%R ->
  ffin (x - y) /\ (- tol <= F2R (x - y) - (F2R x - F2R y) <= tol)%R.
Proof.
  intros Fx Fy H. destruct (fsub_approx x y Fx Fy (small_lt_huge _ H)) as [F A].
  split; [exact F | now apply approx_tol].
Qed.

Lemma fmul_tol (x y : float) :
  ffin x -> ffin y -> (-1048576 <= F2R x * F2R y <= 1048576)%R ->
  ffin (x * y) /\ (- tol <= F2R (x * y) - F2R x * F2R y <= tol)%R.
Proof.
  intros Fx Fy H. destruct (fmul_approx x y Fx Fy (small_lt_huge _ H)) as [F A].
  split; [exact F | now apply approx_tol].
Qed.

Lemma fdiv_tol (x y : float) :
  ffin x -> ffin y -> F2R y <> 0%R -> (-1048576 <= F2R x / F2R y <= 1048576)%R ->
  ffin (x / y) /\ (- tol <= F2R (x / y) - F2R x / F2R y <= tol)%R.
Proof.
  intros Fx Fy Hy H. destruct (fdiv_approx x y Fx Fy Hy (small_lt_huge _ H)) as [F A].
  split; [exact F | now apply approx_tol].
Qed.

(** ** Sign operations and literals *)

Lemma fopp_F2R (x : float) : ffin x -> ffin (- x) /\ F2R (- x) = (- F2R x)%R.
Proof.
  unfold ffin, F2R. rewrite opp_spec.
  destruct (Prim2SF x) as [s | s | | s m e]; try discriminate; intros _;
    cbn [SFopp is_fin SFR]; (split; [reflexivity |]); try lra.
  destruct s; cbn [signed negb]; lra.
Qed.

Lemma fabs_F2R (x : float) : ffin x -> ffin (abs x) /\ F2R (abs x) = Rabs (F2R x).
Proof.
  unfold ffin, F2R. rewrite abs_spec.
  destruct (Prim2SF x) as [s | s | | s m e]; try discriminate; intros _;
    cbn [SFabs is_fin SFR]; (split; [reflexivity |]);
    try (symmetry; apply Rabs_R0).
  assert (0 <= IZR (Z.pos m) * pow2 e)%R.
  { pose proof (pow2_pos e). assert (0 < IZR (Z.pos m))%R by (apply IZR_lt; lia). nra. }
  rewrite Rabs_signed by assumption. reflexivity.
Qed.

(** The real value of a literal, as a quotient of integers. *)
Ltac F2R_lit c H :=
  let sf := eval vm_compute in (Prim2SF c) in
  lazymatch sf with
  | S754_finite ?s ?m ?e =>
      pose proof (F2R_finite c s m e ltac:(vm_compute; reflexivity)) as H;
      cbn [signed] in H;
      try rewrite pow2_neg in H;
      try rewrite pow2_nonneg_IZR in H by lia;
      repeat match type of H with
             | context [IZR (2 ^ ?k)] =>
                 let v := eval vm_compute in (2 ^ k) in
                 change (2 ^ k) with v in H
             end
  | S754_zero ?s =>
      pose proof (F2R_zero c s ltac:(vm_compute; reflexivity)) as H
  end.

Lemma lit_half : ffin 0.5 /\ F2R 0.5 = (1 / 2)%R.
Proof. F2R_lit 0.5%float H. destruct H as [F V]. split; [exact F |]. rewrite V. lra. Qed.

Lemma lit_one : ffin 1 /\ F2R 1 = 1%R.
Proof. F2R_lit 1%float H. destruct H as [F V]. split; [exact F |]. rewrite V. lra. Qed.

Lemma lit_zero : ffin 0 /\ F2R 0 = 0%R.
Proof. F2R_lit 0%float H. exact H. Qed.

Lemma lit_0_3 : ffin 0.3 /\ (29 / 100 <= F2R 0.3 <= 3 / 10)%R.
Proof. F2R_lit 0.3%float H. destruct H as [F V]. split; [exact F |]. rewrite V. lra. Qed.

Lemma lit_1_8 : ffin 1.8 /\ (179 / 100 <= F2R 1.8 <= 181 / 100)%R.
Proof. F2R_lit 1.8%float H. destruct H as [F V]. split; [exact F |]. rewrite V. lra. Qed.

Lemma lit_2p32 : ffin 4294967296 /\ F2R 4294967296 = 4294967296%R.
Proof.
  F2R_lit 4294967296%float H. destruct H as [F V]. split; [exact F |]. rewrite V. lra.
Qed.

Lemma tol_val : tol = (/ 2147483648)%R.
Proof. reflexivity. Qed.

(** ** The generator's numbers *)

(** Every number the generator returns is finite and, up to the rounding
    of the division, in [[0, 1]]. *)
Lemma rng_output_range (s : Z) :
  ffin (rng_output s) /\ (- tol <= F2R (rng_output s) <= 1 + tol)%R.
Proof.
  unfold rng_output, rng_call. cbn [fst].
  set (n := JS.uwrap32 _).
  assert (Hn : 0 <= n < 4294967296) by (apply Z.mod_pos_bound; lia).
  destruct (F2R_of_Z n ltac:(lia)) as [Fn Vn].
  destruct lit_2p32 as [Fc Vc].
  assert (Hn0 : (0 <= IZR n)%R) by (apply IZR_le; lia).
  assert (Hn1 : (IZR n <= 4294967296)%R) by (apply IZR_le; lia).
  destruct (fdiv_tol (JS.of_Z n) 4294967296 Fn Fc) as [F E].
  - rewrite Vc. lra.
  - rewrite Vn, Vc. lra.
  - split; [exact F |]. rewrite Vn, Vc in E. lra.
Qed.

(** ** The logits *)

Lemma Rmult_bounds (a b la ha lb hb : R) :
  (0 <= la <= a)%R -> (a <= ha)%R -> (0 <= lb <= b)%R -> (b <= hb)%R ->
  (la * lb <= a * b <= ha * hb)%R.
Proof.
  intros [Hla Ha] Hha [Hlb Hb] Hhb. split.
  - apply Rmult_le_compat; lra.
  - apply Rmult_le_compat; lra.
Qed.

Lemma logit_spec_bounds (k i : Z) (u : float) :
  0 <= k <= 5 -> 0 <= i <= 5 ->
  ffin u -> (- tol <= F2R u <= 1 + tol)%R ->
  let L := logit_spec (JS.of_Z k) i u in
  ffin L
  /\ (i = k -> (- (17 / 100) <= F2R L <= 17 / 100)%R)
  /\ (i <> k -> (-10 <= F2R L <= - (16 / 10))%R).
Proof.
  intros Hk Hi Fu Hu. unfold logit_spec. rewrite tol_val in *.
  destruct (F2R_of_Z k ltac:(lia)) as [Fk Vk].
  destruct (F2R_of_Z i ltac:(lia)) as [Fi Vi].
  assert (Bk : (0 <= IZR k <= 5)%R) by (split; apply IZR_le; lia).
  assert (Bi : (0 <= IZR i <= 5)%R) by (split; apply IZR_le; lia).
  destruct (fsub_tol (JS.of_Z i) (JS.of_Z k) Fi Fk) as [Fd Ed];
    [rewrite Vi, Vk; lra |]. rewrite Vi, Vk, tol_val in Ed.
  destruct (fabs_F2R _ Fd) as [Fa Va].
  destruct (fopp_F2R _ Fa) as [Fo Vo]. rewrite Va in Vo.
  destruct lit_1_8 as [F18 V18]. destruct lit_0_3 as [F03 V03].
  destruct lit_half as [F05 V05].
  set (d := (JS.of_Z i - JS.of_Z k)%float) in *.
  (* the distance: 0 up to rounding when i = k, between 1 and 5 otherwise *)
  assert (Hd : exists lo hi : R,
             (0 <= lo <= Rabs (F2R d))%R /\ (Rabs (F2R d) <= hi <= 6)%R
             /\ (i = k -> hi = (/ 2147483648)%R)
             /\ (i <> k -> lo = (1 - / 2147483648)%R /\ hi = (5 + / 2147483648)%R)).
  { destruct (Z.eq_dec i k) as [E | E].
    - exists 0%R, (/ 2147483648)%R. subst i.
      split; [split; [lra | apply Rabs_pos] |].
      split; [split; [apply Rabs_le |]; lra |]. split; [reflexivity | congruence].
    - exists (1 - / 2147483648)%R, (5 + / 2147483648)%R.
      split; [split; [lra |] |].
      + destruct (Z_lt_ge_dec i k) as [Hlt | Hge].
        * assert (IZR i + 1 <= IZR k)%R by (rewrite <- plus_IZR; apply IZR_le; lia).
          rewrite Rabs_left by lra. lra.
        * assert (IZR k + 1 <= IZR i)%R by (rewrite <- plus_IZR; apply IZR_le; lia).
          rewrite Rabs_right by lra. lra.
      + split; [split; [apply Rabs_le |]; lra |]. split; [congruence | split; reflexivity]. }
  destruct Hd as (lo & hi & Hlo & Hhi & Heq & Hne).
  pose proof (Rmult_bounds (Rabs (F2R d)) (F2R 1.8) lo hi (179 / 100) (181 / 100)
                Hlo (proj1 Hhi) ltac:(lra) ltac:(lra)) as Hprod.
  set (P := (Rabs (F2R d) * F2R 1.8)%R) in *.
  assert (HP : (0 <= P <= 11)%R).
  { pose proof (Rmult_bounds lo (179 / 100) 0 lo 0 (179 / 100)
                  ltac:(lra) ltac:(lra) ltac:(lra) ltac:(lra)).
    pose proof (Rmult_bounds hi (181 / 100) 0 6 0 (181 / 100)
                  ltac:(lra) ltac:(lra) ltac:(lra) ltac:(lra)).
    lra. }
  destruct (fmul_tol (- abs d) 1.8 Fo F18) as [Fm Em].
  { rewrite Vo. replace (- Rabs (F2R d) * F2R 1.8)%R with (- P)%R by (unfold P; ring). lra. }
  rewrite Vo, tol_val in Em.
  replace (- Rabs (F2R d) * F2R 1.8)%R with (- P)%R in Em by (unfold P; ring).
  destruct (fsub_tol u 0.5 Fu F05) as [Fs Es]; [rewrite V05; lra |].
  rewrite V05, tol_val in Es.
  (* the jitter *)
  set (w := F2R (u - 0.5)) in *.
  assert (HQ : (- (16 / 100) <= w * F2R 0.3 <= 16 / 100)%R).
  { destruct (Rle_lt_dec 0 w) as [Hw | Hw].
    - pose proof (Rmult_bounds w (F2R 0.3) 0 (51 / 100) 0 (3 / 10)
                    ltac:(lra) ltac:(lra) ltac:(lra) ltac:(lra)). lra.
    - pose proof (Rmult_bounds (- w) (F2R 0.3) 0 (51 / 100) 0 (3 / 10)
                    ltac:(lra) ltac:(lra) ltac:(lra) ltac:(lra)) as Hb.
      replace (- w * F2R 0.3)%R with (- (w * F2R 0.3))%R in Hb by ring. lra. }
  destruct (fmul_tol (u - 0.5) 0.3 Fs F03) as [Fj Ej]; [fold w; lra |].
  fold w in Ej. rewrite tol_val in Ej.
  destruct (fadd_tol (- abs d * 1.8) ((u - 0.5) * 0.3) Fm Fj) as [Fl El]; [lra |].
  rewrite tol_val in El.
  split; [exact Fl |]. split.
  - intros E. rewrite (Heq E) in Hprod. lra.
  - intros E. destruct (Hne E) as [-> ->]. lra.
Qed.

(** ** [Math.max] over a list with one largest element *)

Lemma Math_max_cases (a b : float) :
  is_nan a = false -> is_nan b = false ->
  JS.Math_max a b = a \/ JS.Math_max a b = b.
Proof.
  intros Ha Hb. unfold JS.Math_max. rewrite Ha, Hb. cbn [orb].
  destruct (PrimFloat.ltb a b); [now right |].
  destruct (PrimFloat.ltb b a); [now left |].
  destruct (JS.is_neg_zero a); [now right | now left].
Qed.

Lemma Math_max_lt (a b : float) :
  is_nan a = false -> is_nan b = false -> flt a b -> JS.Math_max a b = b.
Proof.
  intros Ha Hb H. unfold JS.Math_max. rewrite Ha, Hb. cbn [orb].
  unfold flt in H. now rewrite H.
Qed.

Lemma Math_max_gt (a b : float) :
  is_nan a = false -> is_nan b = false -> flt b a -> JS.Math_max a b = a.
Proof.
  intros Ha Hb H. unfold JS.Math_max. rewrite Ha, Hb. cbn [orb].
  assert (Hn : PrimFloat.ltb a b = false).
  { destruct (PrimFloat.ltb a b) eqn:E; [| reflexivity].
    exfalso. apply (flt_not_fle b a Hb Ha H). apply flt_fle; assumption. }
  rewrite Hn. unfold flt in H. now rewrite H.
Qed.

Lemma max_list_unique (pre post : list float) (x : float) :
  is_nan x = false -> flt neg_infinity x ->
  Forall (fun y => is_nan y = false /\ flt y x) pre ->
  Forall (fun y => is_nan y = false /\ flt y x) post ->
  JS.Math_max_list (pre ++ x :: post) = x.
Proof.
  intros Hx Hinf Hpre Hpost. unfold JS.Math_max_list.
  rewrite fold_left_app. cbn [fold_left].
  assert (H1 : forall acc, is_nan acc = false -> flt acc x ->
             is_nan (fold_left JS.Math_max pre acc) = false
             /\ flt (fold_left JS.Math_max pre acc) x).
  { induction Hpre as [| y pre [Hy Hyx] _ IH]; intros acc Ha Hax; [now split |].
    cbn [fold_left]. destruct (Math_max_cases acc y Ha Hy) as [-> | ->]; now apply IH. }
  destruct (H1 neg_infinity eq_refl Hinf) as [Hn Hl].
  rewrite (Math_max_lt _ x Hn Hx Hl).
  clear - Hx Hpost. induction Hpost as [| y post [Hy Hyx] _ IH]; [reflexivity |].
  cbn [fold_left]. rewrite (Math_max_gt x y Hx Hy Hyx). exact IH.
Qed.

Lemma flt_neg_infinity (x : float) : ffin x -> flt neg_infinity x.
Proof.
  unfold ffin, flt. rewrite ltb_spec.
  change (Prim2SF neg_infinity) with (S754_infinity true).
  destruct (Prim2SF x) as [s | s | | s m e]; try discriminate; reflexivity.
Qed.

Lemma feqb_infinite (x : float) :
  ffin x -> PrimFloat.eqb x infinity = false /\ PrimFloat.eqb x neg_infinity = false.
Proof.
  unfold ffin. rewrite !eqb_spec.
  change (Prim2SF infinity) with (S754_infinity false).
  change (Prim2SF neg_infinity) with (S754_infinity true).
  destruct (Prim2SF x) as [s | s | | s m e]; try discriminate; intros _;
    destruct s; split; reflexivity.
Qed.

(** A value between two finite values is finite. *)
Lemma fle_between (a e b : float) : ffin a -> ffin b -> fle a e -> fle e b -> ffin e.
Proof.
  unfold ffin, fle. rewrite !leb_spec. unfold SFleb.
  destruct (Prim2SF a) as [sa | sa | | sa ma ea]; try discriminate;
    destruct (Prim2SF b) as [sb | sb | | sb mb eb]; try discriminate;
    destruct (Prim2SF e) as [s | s | | s m ee]; intros _ _; cbn [SFcompare is_fin];
    try reflexivity; try discriminate; destruct s; try discriminate;
    try destruct sa; try destruct sb; discriminate.
Qed.

(** ** Sums of binary64 values *)

Definition Rsum (l : list float) : R := fold_right (fun p a => (F2R p + a)%R) 0%R l.

Lemma Rsum_app (l1 l2 : list float) : Rsum (l1 ++ l2) = (Rsum l1 + Rsum l2)%R.
Proof.
  unfold Rsum. induction l1 as [| a l1 IH]; cbn [app fold_right]; [lra | rewrite IH; lra].
Qed.

Definition unit_range (e : float) : Prop := ffin e /\ (0 <= F2R e <= 1)%R.

Lemma Rsum_unit_range (l : list float) :
  Forall unit_range l -> (0 <= Rsum l <= INR (length l))%R.
Proof.
  induction 1 as [| e l [_ He] _ IH]; [cbn; lra |].
  cbn [Rsum fold_right length]. fold (Rsum l). rewrite S_INR. lra.
Qed.

(** The running sum [exps.reduce((a, b) => a + b, acc)] is the real sum up
    to one [tol] per addition. *)
Lemma sum_error (l : list float) :
  Forall unit_range l ->
  forall acc : float,
    ffin acc ->
    (- 100000 <= F2R acc - INR (length l) * tol)%R ->
    (F2R acc + INR (length l) * (1 + tol) <= 100000)%R ->
    let r := fold_left (fun a b => (a + b)%float) l acc in
    ffin r
    /\ (- (INR (length l) * tol) <= F2R r - (F2R acc + Rsum l)
        <= INR (length l) * tol)%R.
Proof.
  rewrite tol_val.
  induction 1 as [| e l [Fe He] _ IH]; intros acc Fa Hlo Hhi.
  - cbn. split; [exact Fa | lra].
  - cbn [fold_left length Rsum fold_right] in *. fold (Rsum l).
    rewrite S_INR in *. pose proof (pos_INR (length l)) as Hn.
    destruct (fadd_tol acc e Fa Fe) as [Fs Es]; [lra |]. rewrite tol_val in Es.
    destruct (IH (acc + e)%float Fs) as [Fr Er]; [lra | lra |].
    split; [exact Fr | lra].
Qed.

(** Dividing every term by the sum [s]: the real sum of the quotients is
    the quotient of the real sum up to one [tol] per division. *)
Lemma div_sum_error (s : float) (l : list float) :
  ffin s -> (99 / 100 <= F2R s)%R ->
  Forall unit_range l ->
  Forall ffin (map (fun v => (v / s)%float) l)
  /\ (- (INR (length l) * tol)
      <= Rsum (map (fun v => (v / s)%float) l) - Rsum l / F2R s
      <= INR (length l) * tol)%R.
Proof.
  intros Fs Hs. rewrite tol_val.
  assert (Hq : (0 < / F2R s <= 100 / 99)%R).
  { split; [apply Rinv_0_lt_compat; lra |].
    replace (100 / 99)%R with (/ (99 / 100))%R by lra.
    apply Rinv_le_contravar; lra. }
  induction 1 as [| e l [Fe He] _ [IHf IHs]].
  - cbn. split; [constructor |]. unfold Rdiv. lra.
  - cbn [map length Rsum fold_right]. fold (Rsum l).
    fold (Rsum (map (fun v => (v / s)%float) l)).
    rewrite S_INR.
    pose proof (Rmult_bounds (F2R e) (/ F2R s) 0 1 0 (100 / 99)
                  ltac:(lra) ltac:(lra) ltac:(lra) ltac:(lra)) as Hp.
    destruct (fdiv_tol e s Fe Fs) as [Fd Ed]; [lra | unfold Rdiv; lra |].
    rewrite tol_val in Ed. split; [constructor; assumption |].
    unfold Rdiv in *. rewrite Rmult_plus_distr_r. lra.
Qed.

(** ** [softmax] over logits with one that leads by more than 1.2 *)

Lemma lit_minus_one : ffin (-1) /\ F2R (-1) = (-1)%R.
Proof. F2R_lit (-1)%float H. destruct H as [F V]. split; [exact F |]. rewrite V. lra. Qed.

Section Softmax.

Variable exp_impl : float -> float.

(** What is asked of the engine's [Math.exp]: at arguments of at most -1
    it returns a number between 0 and 0.5 (the exact value is below
    0.368 there). *)
Hypothesis exp_small :
  forall x : float, fle x (-1) -> fle 0 (exp_impl x) /\ fle (exp_impl x) 0.5.

Lemma exp_small_real (x : float) :
  ffin x -> (F2R x <= -1)%R ->
  ffin (exp_impl x) /\ (0 <= F2R (exp_impl x) <= 1 / 2)%R.
Proof.
  intros Fx Hx. destruct lit_minus_one as [Fm Vm].
  destruct lit_zero as [F0 V0]. destruct lit_half as [Fh Vh].
  destruct (exp_small x) as [H0 H1].
  { apply fleb_real; [assumption .. |]. rewrite Vm. exact Hx. }
  assert (Fe : ffin (exp_impl x)) by (apply (fle_between 0 _ 0.5); assumption).
  split; [exact Fe |].
  apply fleb_real in H0; [| assumption ..]. apply fleb_real in H1; [| assumption ..].
  rewrite V0 in H0. rewrite Vh in H1. lra.
Qed.

(** The exponential of [x - x] is 1. *)
Lemma exp_at_max (x : float) : ffin x -> JS.Math_exp exp_impl (x - x) = 1%float.
Proof. intros Fx. rewrite fsub_diag by exact Fx. reflexivity. Qed.

Lemma exp_below_max (y x : float) :
  ffin y -> ffin x ->
  (-1000 <= F2R y)%R -> (F2R y <= F2R x - 12 / 10)%R -> (F2R x <= 1000)%R ->
  let e := JS.Math_exp exp_impl (y - x) in
  ffin e /\ (0 <= F2R e <= 1 / 2)%R.
Proof.
  intros Fy Fx Hlo Hgap Hhi.
  destruct (fsub_tol y x Fy Fx) as [Fd Ed]; [lra |]. rewrite tol_val in Ed.
  assert (Hd : (F2R (y - x) <= -1)%R) by lra.
  cbv zeta. unfold JS.Math_exp.
  rewrite (ffin_not_nan _ Fd).
  destruct lit_zero as [F0 V0].
  assert (Hz : PrimFloat.eqb (y - x) zero = false).
  { destruct (PrimFloat.eqb (y - x) zero) eqn:E; [| reflexivity].
    apply feqb_real in E; [| assumption ..]. change zero with 0%float in E.
    rewrite V0 in E. lra. }
  rewrite Hz. destruct (feqb_infinite _ Fd) as [-> ->].
  now apply exp_small_real.
Qed.

Definition leads (x : float) (y : float) : Prop :=
  ffin y /\ (-1000 <= F2R y)%R /\ (F2R y <= F2R x - 12 / 10)%R.

(** For logits [pre ++ x :: post] in which [x] leads every other logit by
    more than 1.2, [softmax] divides each exponential by the running sum;
    the quotient at [x] is strictly the largest, every quotient is finite
    and their real sum is 1 up to [3 * n * tol]. *)
Lemma softmax_leader (pre post : list float) (x : float) :
  ffin x -> (-1000 <= F2R x <= 1000)%R ->
  Forall (leads x) pre -> Forall (leads x) post ->
  (length (pre ++ x :: post) <= 1000)%nat ->
  exists P : float -> float,
    softmax exp_impl (pre ++ x :: post) = map P (pre ++ x :: post)
    /\ ffin (P x)
    /\ (forall y, leads x y -> ffin (P y) /\ (F2R (P y) < F2R (P x))%R)
    /\ (Rabs (Rsum (map P (pre ++ x :: post)) - 1)
        <= 3 * INR (length (pre ++ x :: post)) * tol)%R.
Proof.
  intros Fx Hx Hpre Hpost Hlen.
  set (logits := pre ++ x :: post) in *.
  assert (Hmax : JS.Math_max_list logits = x).
  { apply max_list_unique.
    - now apply ffin_not_nan.
    - now apply flt_neg_infinity.
    - eapply Forall_impl; [| exact Hpre]. intros y (Fy & _ & Hy).
      split; [now apply ffin_not_nan | apply fltb_real; [assumption .. | lra]].
    - eapply Forall_impl; [| exact Hpost]. intros y (Fy & _ & Hy).
      split; [now apply ffin_not_nan | apply fltb_real; [assumption .. | lra]]. }
  unfold softmax. rewrite Hmax.
  set (E := fun v : float => JS.Math_exp exp_impl (v - x)).
  set (exps := map E logits).
  set (sum := fold_left (fun a b : float => (a + b)%float) exps 0%float).
  destruct lit_one as [F1 V1]. destruct lit_zero as [F0 V0].
  assert (HEx : E x = 1%float) by (apply exp_at_max; exact Fx).
  assert (HE : forall y, leads x y -> ffin (E y) /\ (0 <= F2R (E y) <= 1 / 2)%R).
  { intros y (Fy & Hlo & Hgap). apply exp_below_max; try assumption; lra. }
  assert (Hunit_x : unit_range (E x)).
  { rewrite HEx. split; [exact F1 | rewrite V1; lra]. }
  assert (Hunit : forall l, Forall (leads x) l -> Forall unit_range (map E l)).
  { induction 1 as [| y l Hy _ IH]; cbn [map]; constructor; [| exact IH].
    destruct (HE y Hy) as [F B]. split; [exact F | lra]. }
  assert (Hexps : Forall unit_range exps).
  { unfold exps, logits. rewrite map_app. cbn [map].
    apply Forall_app. split; [now apply Hunit |].
    constructor; [exact Hunit_x | now apply Hunit]. }
  assert (Hn : length exps = length logits) by (unfold exps; apply length_map).
  assert (Hn1 : (1 <= INR (length exps) <= 1000)%R).
  { rewrite Hn. split.
    - change 1%R with (INR 1). apply le_INR. unfold logits.
      rewrite length_app. cbn [length]. lia.
    - change 1000%R with (IZR (Z.of_nat 1000)). rewrite <- INR_IZR_INZ.
      apply le_INR. exact Hlen. }
  pose proof (Rsum_unit_range exps Hexps) as Hsum_r.
  assert (Hsum1 : (1 <= Rsum exps)%R).
  { unfold exps, logits. rewrite map_app, Rsum_app. cbn [map].
    change (Rsum (E x :: map E post)) with (F2R (E x) + Rsum (map E post))%R.
    pose proof (Rsum_unit_range _ (Hunit pre Hpre)).
    pose proof (Rsum_unit_range _ (Hunit post Hpost)).
    rewrite HEx, V1. lra. }
  destruct (sum_error exps Hexps 0%float F0) as [Fs Es];
    [rewrite V0, tol_val; lra | rewrite V0, tol_val; lra |].
  fold sum in Fs, Es. rewrite V0, tol_val in Es.
  set (total := F2R sum) in *.
  assert (HS : (99 / 100 <= total <= 1001)%R) by lra.
  assert (Hq : (/ 1001 <= / total <= 100 / 99)%R).
  { split.
    - apply Rinv_le_contravar; lra.
    - replace (100 / 99)%R with (/ (99 / 100))%R by lra.
      apply Rinv_le_contravar; lra. }
  exists (fun v => (E v / sum)%float).
  split; [unfold exps; rewrite map_map; reflexivity |].
  (* the quotient at the maximum *)
  assert (HEx1 : F2R (E x) = 1%R) by (rewrite HEx; exact V1).
  destruct (fdiv_tol (E x) sum) as [Fpx Epx]; try (rewrite HEx; exact F1);
    try exact Fs; [fold total; lra | fold total; rewrite HEx1; unfold Rdiv; lra |].
  fold total in Epx. rewrite tol_val, HEx1 in Epx.
  split; [exact Fpx |]. split.
  - intros y Hy. destruct (HE y Hy) as [Fe Be].
    pose proof (Rmult_bounds (F2R (E y)) (/ total) 0 (1 / 2) 0 (/ total)
                  ltac:(lra) ltac:(lra) ltac:(lra) ltac:(lra)) as Hp.
    destruct (fdiv_tol (E y) sum Fe Fs) as [Fpy Epy];
      [fold total; lra | fold total; unfold Rdiv; lra |].
    fold total in Epy. rewrite tol_val in Epy.
    split; [exact Fpy |].
    unfold Rdiv in *. lra.
  - destruct (div_sum_error sum exps Fs ltac:(fold total; lra) Hexps) as [_ Ed].
    fold total in Ed. rewrite tol_val in Ed.
    rewrite <- (map_map E (fun v => (v / sum)%float)). fold exps.
    rewrite <- Hn, tol_val.
    set (T := Rsum exps) in *. set (n := INR (length exps)) in *.
    set (D := Rsum (map (fun v => (v / sum)%float) exps)) in *.
    (* T / total - 1 = (T - total) / total *)
    assert (HTS : (- (n * / 2147483648 * (100 / 99)) <= T / total - 1
                   <= n * / 2147483648 * (100 / 99))%R).
    { replace (T / total - 1)%R with ((T - total) * / total)%R by (field; lra).
      destruct (Rle_lt_dec 0 (T - total)) as [Hs | Hs].
      - pose proof (Rmult_bounds (T - total) (/ total) 0 (n * / 2147483648) 0 (100 / 99)
                      ltac:(lra) ltac:(lra) ltac:(lra) ltac:(lra)). lra.
      - pose proof (Rmult_bounds (- (T - total)) (/ total) 0 (n * / 2147483648) 0 (100 / 99)
                      ltac:(lra) ltac:(lra) ltac:(lra) ltac:(lra)).
        replace (- (T - total) * / total)%R with (- ((T - total) * / total))%R in * by ring. lra. }
    apply Rabs_le. lra.
Qed.

End Softmax.

(** ** [buildResult] over probabilities with one strictly largest *)

Lemma buildResult_strict_max (probs : list float) (k : nat) :
  length probs = 6%nat ->
  Forall (fun p => is_nan p = false) probs ->
  (k < 6)%nat ->
  (forall j, (j < 6)%nat -> j <> k -> flt (nth j probs nan) (nth k probs nan)) ->
  predictedClass (buildResult probs) = nth k TURBIDITY_CLASSES ultra_cloudy.
Proof.
  intros Hlen Hnan Hk Hmax.
  assert (Hinit : argmax_inv probs 0 0 neg_infinity).
  { repeat split; try reflexivity; intros; lia. }
  destruct (build_loop_spec probs Hnan TURBIDITY_CLASSES 0 0 neg_infinity
              ltac:(cbn [length TURBIDITY_CLASSES]; lia) Hinit)
    as (m & mp & Hloop & Hinv).
  cbn [length TURBIDITY_CLASSES Nat.add] in Hinv.
  destruct Hinv as (_ & Hle & _ & _ & Hpos).
  destruct (Hpos ltac:(lia)) as [Hm Hmp].
  unfold buildResult. rewrite Hloop. cbn [predictedClass].
  destruct (Nat.eq_dec m k) as [-> | Hne]; [reflexivity | exfalso].
  specialize (Hmax m Hm Hne).
  assert (Hkp : nth_error probs k = Some (nth k probs nan)).
  { apply nth_error_nth'. lia. }
  rewrite (nth_error_nth _ _ nan Hmp) in Hmax.
  pose proof (Hle k _ Hk Hkp) as Hfle.
  assert (N1 : is_nan mp = false).
  { rewrite Forall_forall in Hnan. apply Hnan. eapply nth_error_In; eauto. }
  assert (N2 : is_nan (nth k probs nan) = false).
  { rewrite Forall_forall in Hnan. apply Hnan. eapply nth_error_In; eauto. }
  exact (flt_not_fle _ _ N1 N2 Hmax Hfle).
Qed.

(** ** The centre index *)

(** [TURBIDITY_CLASSES[x]] for a number [x]: the element when [x] is an
    integer index of the array, [undefined] ([None]) otherwise (NaN and
    fractional numbers name no element). *)
Definition class_at (x : float) : option TurbidityClass :=
  match JS.trunc x with
  | Some z => if PrimFloat.eqb (JS.of_Z z) x then elem TURBIDITY_CLASSES z else None
  | None => None
  end.

Lemma not_nan_cases (x : float) :
  is_nan x = false -> ffin x \/ x = infinity \/ x = neg_infinity.
Proof.
  intros H. apply is_nan_false in H. unfold not_nan in H. unfold ffin.
  destruct (Prim2SF x) as [s | s | | s m e] eqn:E; try congruence; try (left; reflexivity).
  right. rewrite <- (SF2Prim_Prim2SF x), E. destruct s; [right | left]; reflexivity.
Qed.

(** [Math.round] of a finite number is a finite integer. *)
Lemma Math_round_spec (y : float) :
  ffin y ->
  ffin (JS.Math_round y) /\ exists z : Z, F2R (JS.Math_round y) = IZR z.
Proof.
  unfold JS.Math_round, ffin at 1. pose proof (Prim2SF_valid y) as V.
  destruct (Prim2SF y) as [s | s | | s m e] eqn:E; try discriminate; intros _.
  - split; [unfold ffin; rewrite E; reflexivity |].
    exists 0. unfold F2R. rewrite E. reflexivity.
  - destruct e as [| p | k].
    + split; [unfold ffin; rewrite E; reflexivity |].
      exists (if s then - Z.pos m else Z.pos m).
      unfold F2R. rewrite E. cbn [SFR]. rewrite pow2_0.
      destruct s; cbn [signed]; rewrite ?opp_IZR; lra.
    + split; [unfold ffin; rewrite E; reflexivity |].
      exists (if s then - (Z.pos m * 2 ^ Z.pos p) else Z.pos m * 2 ^ Z.pos p).
      unfold F2R. rewrite E. cbn [SFR]. rewrite pow2_nonneg_IZR by lia.
      destruct s; cbn [signed]; rewrite ?opp_IZR, mult_IZR; lra.
    + set (n := if s then Z.neg m else Z.pos m).
      set (r := (2 * n + Z.shiftl 1 (Z.pos k)) / Z.shiftl 1 (Z.pos k + 1)).
      destruct (Z.eqb_spec r 0) as [Hr | Hr].
      * split; [destruct s; reflexivity |]. exists 0. destruct s; reflexivity.
      * assert (Hsmall : Z.abs r < 2 ^ 53).
        { destruct (valid_digits s m (Z.neg k) V) as (Dm & _ & _).
          pose proof (Zdigits2_bounds (Z.pos m) ltac:(lia)) as [_ Hm].
          assert (Hm53 : Z.pos m < 2 ^ 53).
          { eapply Z.lt_le_trans; [exact Hm |]. apply Z.pow_le_mono_r; lia. }
          assert (Hn : - 2 ^ 53 < n < 2 ^ 53) by (unfold n; destruct s; lia).
          unfold r. rewrite !Z.shiftl_1_l.
          replace (Z.pos k + 1) with (Z.succ (Z.pos k)) by lia.
          rewrite Z.pow_succ_r by lia.
          set (P := 2 ^ Z.pos k).
          assert (HP : 2 <= P).
          { unfold P. change 2 with (2 ^ 1) at 1. apply Z.pow_le_mono_r; lia. }
          assert (Hup : (2 * n + P) / (2 * P) < 2 ^ 52 + 1).
          { apply Z.div_lt_upper_bound; [lia |].
            change (2 ^ 53) with (2 * 2 ^ 52) in Hn. nia. }
          assert (Hdn : - 2 ^ 52 <= (2 * n + P) / (2 * P)).
          { apply Z.div_le_lower_bound; [lia |].
            change (2 ^ 53) with (2 * 2 ^ 52) in Hn. nia. }
          change (2 ^ 53) with (2 * 2 ^ 52). lia. }
        destruct (F2R_of_Z r Hsmall) as [Fr Vr].
        split; [exact Fr |]. exists r. exact Vr.
Qed.

Lemma Math_round_ffin_inv (y : float) : ffin (JS.Math_round y) -> ffin y.
Proof.
  unfold JS.Math_round, ffin.
  destruct (Prim2SF y) as [s | s | | s m e] eqn:E; intros H; try reflexivity;
    rewrite E in H; discriminate.
Qed.

(** What [Math.round] returns, when finite, is an integer. *)
Lemma Math_round_integer (y : float) :
  ffin (JS.Math_round y) -> exists z : Z, F2R (JS.Math_round y) = IZR z.
Proof. intros H. apply Math_round_spec. now apply Math_round_ffin_inv. Qed.

Lemma is_nan_nan : is_nan nan = true.
Proof. reflexivity. Qed.

(** A centre that is a number is one of the indices 0 .. 5. *)
Lemma center_index (b : float) :
  is_nan (center_of b) = false ->
  exists k : Z, 0 <= k <= 5 /\ center_of b = JS.of_Z k.
Proof.
  unfold center_of. rewrite of_Z_5.
  set (r := JS.Math_round _). intros Hc.
  assert (Hr : is_nan r = false).
  { destruct (is_nan r) eqn:E; [| reflexivity]. exfalso.
    unfold JS.Math_max in Hc. rewrite E, orb_true_r in Hc.
    unfold JS.Math_min in Hc. rewrite is_nan_nan, orb_true_r in Hc.
    rewrite is_nan_nan in Hc. discriminate. }
  clear Hc.
  assert (Ht : JS.Math_max 0 r = (if PrimFloat.ltb 0 r then r else 0)%float).
  { unfold JS.Math_max. rewrite Hr. cbn [orb].
    change (is_nan 0) with false. cbn [orb].
    destruct (PrimFloat.ltb 0 r); [reflexivity |].
    destruct (PrimFloat.ltb r 0); reflexivity. }
  rewrite Ht. destruct (PrimFloat.ltb 0 r) eqn:H0.
  2:{ exists 0. split; [lia |]. vm_compute. reflexivity. }
  unfold JS.Math_min. rewrite Hr. change (is_nan 5) with false. cbn [orb].
  destruct (PrimFloat.ltb 5 r) eqn:H5.
  { exists 5. split; [lia |]. vm_compute. reflexivity. }
  assert (Hcr : (if PrimFloat.ltb r 5 then r else if JS.is_neg_zero 5 then 5%float else r)
                = r).
  { destruct (PrimFloat.ltb r 5); reflexivity. }
  rewrite Hcr.
  (* r is finite, above 0 and at most 5 *)
  destruct (not_nan_cases r Hr) as [Fr | [E | E]];
    [| rewrite E in H5; vm_compute in H5; discriminate
     | rewrite E in H0; vm_compute in H0; discriminate].
  destruct lit_zero as [F0 V0].
  assert (F5 : ffin 5 /\ F2R 5 = 5%R).
  { change 5%float with (JS.of_Z 5). apply (F2R_of_Z 5). lia. }
  destruct F5 as [F5 V5].
  apply fltb_real in H0; [| assumption ..]. rewrite V0 in H0.
  assert (H5' : (F2R r <= 5)%R).
  { destruct (Rle_lt_dec (F2R r) 5) as [| Hgt]; [assumption | exfalso].
    rewrite <- V5 in Hgt. apply fltb_real in Hgt; [| assumption ..]. congruence. }
  destruct (Math_round_integer _ Fr) as [z Hz]. fold r in Hz.
  rewrite Hz in H0, H5'. apply lt_IZR in H0. apply le_IZR in H5'.
  exists z. split; [lia |].
  destruct (F2R_of_Z z ltac:(lia)) as [Fz Vz].
  apply F2R_inj; try assumption.
  - congruence.
  - rewrite Hz. apply not_0_IZR. lia.
Qed.

Lemma class_at_of_Z (k : Z) :
  0 <= k <= 5 ->
  class_at (JS.of_Z k) = Some (nth (Z.to_nat k) TURBIDITY_CLASSES ultra_cloudy).
Proof.
  intros Hk.
  assert (H : k = 0 \/ k = 1 \/ k = 2 \/ k = 3 \/ k = 4 \/ k = 5) by lia.
  destruct H as [-> | [-> | [-> | [-> | [-> | ->]]]]]; vm_compute; reflexivity.
Qed.

(** ** [predict]: the probabilities and the predicted class *)

Lemma buildResult_probabilities (probs : list float) :
  length probs = 6%nat ->
  Forall (fun p => is_nan p = false) probs ->
  map probability (probabilities (buildResult probs)) = probs.
Proof.
  intros Hlen Hnan.
  assert (Hinit : argmax_inv probs 0 0 neg_infinity).
  { repeat split; try reflexivity; intros; lia. }
  destruct (build_loop_spec probs Hnan TURBIDITY_CLASSES 0 0 neg_infinity
              ltac:(cbn [length TURBIDITY_CLASSES]; lia) Hinit)
    as (m & mp & Hloop & _).
  unfold buildResult. rewrite Hloop. cbn [probabilities skipn].
  do 7 (destruct probs as [| ? probs]; try discriminate Hlen). reflexivity.
Qed.

Section Predict.

Variable exp_impl : float -> float.

Hypothesis exp_small :
  forall x : float, fle x (-1) -> fle 0 (exp_impl x) /\ fle (exp_impl x) 0.5.

(** Whenever the centre is a number it is an index [k] of the class list;
    the six probabilities are then finite, the one at [k] is the largest,
    so that the predicted class is the class at [k], and they add up to 1
    but for the roundings. *)
Lemma predict_probs (image : PreprocessedImage) :
  is_nan (center_of (brightness_of image)) = false ->
  exists k : Z,
    0 <= k <= 5
    /\ center_of (brightness_of image) = JS.of_Z k
    /\ let probs := softmax exp_impl (fst (predict_logits image)) in
       length probs = 6%nat
       /\ Forall ffin probs
       /\ predictedClass (buildResult probs)
          = nth (Z.to_nat k) TURBIDITY_CLASSES ultra_cloudy
       /\ (Rabs (Rsum probs - 1) <= 18 * tol)%R.
Proof.
  intros Hc. destruct (center_index _ Hc) as (kz & Hk & Ec).
  exists kz. split; [exact Hk |]. split; [exact Ec |].
  unfold predict_logits. rewrite Ec.
  set (seed := hashTensor (data image)).
  rewrite <- state_after_0.
  rewrite (logits_loop_spec (JS.of_Z kz) seed TURBIDITY_CLASSES 0) by lia.
  cbn [fst]. change (length TURBIDITY_CLASSES) with 6%nat.
  set (f := fun j : nat =>
              logit_spec (JS.of_Z kz) (0 + Z.of_nat j)
                (rng_output (state_after seed (0 + Z.of_nat j)))).
  set (k := Z.to_nat kz).
  assert (Hk6 : (k < 6)%nat) by (unfold k; lia).
  (* the logits around index k *)
  assert (Hb : forall j, (j < 6)%nat ->
             ffin (f j)
             /\ (j = k -> (- (17 / 100) <= F2R (f j) <= 17 / 100)%R)
             /\ (j <> k -> (-10 <= F2R (f j) <= - (16 / 10))%R)).
  { intros j Hj. unfold f.
    destruct (rng_output_range (state_after seed (0 + Z.of_nat j))) as [Fu Hu].
    destruct (logit_spec_bounds kz (0 + Z.of_nat j) _ Hk ltac:(lia) Fu Hu)
      as (FL & Heq & Hne).
    split; [exact FL |]. split.
    - intros E. apply Heq. unfold k in E. lia.
    - intros E. apply Hne. unfold k in E. lia. }
  destruct (Hb k Hk6) as (Fx & Hx & _). specialize (Hx eq_refl).
  assert (Hleads : forall j, (j < 6)%nat -> j <> k -> leads (f k) (f j)).
  { intros j Hj Hne. destruct (Hb j Hj) as (Fj & _ & Hj'). specialize (Hj' Hne).
    split; [exact Fj |]. lra. }
  assert (Hsplit : map f (seq 0 6)
                   = map f (seq 0 k) ++ f k :: map f (seq (S k) (5 - k))).
  { replace 6%nat with (k + S (5 - k))%nat at 1 by lia.
    rewrite seq_app, map_app. reflexivity. }
  destruct (softmax_leader exp_impl exp_small
              (map f (seq 0 k)) (map f (seq (S k) (5 - k))) (f k) Fx)
    as (P & Hsm & FPx & HP & Hsum).
  - lra.
  - apply Forall_map, Forall_forall. intros j Hj. apply in_seq in Hj.
    apply Hleads; lia.
  - apply Forall_map, Forall_forall. intros j Hj. apply in_seq in Hj.
    apply Hleads; lia.
  - rewrite <- Hsplit, length_map, length_seq. lia.
  - rewrite <- Hsplit in Hsm, Hsum. cbv zeta. rewrite Hsm.
    assert (Hall : forall j, (j < 6)%nat -> ffin (P (f j))).
    { intros j Hj. destruct (Nat.eq_dec j k) as [-> | Hne]; [exact FPx |].
      apply HP. now apply Hleads. }
    assert (Hnth : forall j, (j < 6)%nat ->
               nth j (map P (map f (seq 0 6))) nan = P (f j)).
    { intros j Hj. do 6 (destruct j as [| j]; [reflexivity |]). lia. }
    assert (Hfin : Forall ffin (map P (map f (seq 0 6)))).
    { cbn [seq map]. repeat constructor; apply Hall; lia. }
    split; [reflexivity |]. split; [exact Hfin |]. split.
    + apply buildResult_strict_max.
      * reflexivity.
      * eapply Forall_impl; [| exact Hfin]. intros p. apply ffin_not_nan.
      * exact Hk6.
      * intros j Hj Hne. rewrite !Hnth by assumption.
        apply fltb_real; [now apply Hall | exact FPx |].
        apply HP. now apply Hleads.
    + rewrite length_map, length_seq in Hsum.
      replace (18 * tol)%R with (3 * INR 6 * tol)%R; [exact Hsum |].
      rewrite (INR_IZR_INZ 6). change (Z.of_nat 6) with 6. ring.
Qed.

End Predict.

(** The reference exponential with the bound asked of [Math.exp] made
    part of it: below -1 a value outside [[0, 0.5]] is replaced by 0. *)
Definition exp_checked (x : float) : float :=
  let y := exp_ref x in
  if PrimFloat.leb x (-1)
  then (if PrimFloat.leb 0 y && PrimFloat.leb y 0.5 then y else 0%float)
  else y.

Lemma exp_checked_small (x : float) :
  fle x (-1) -> fle 0 (exp_checked x) /\ fle (exp_checked x) 0.5.
Proof.
  unfold fle, exp_checked. intros ->.
  destruct (PrimFloat.leb 0 (exp_ref x) && PrimFloat.leb (exp_ref x) 0.5) eqn:E.
  - apply andb_true_iff in E. exact E.
  - split; reflexivity.
Defined.

(** ** The tensor of a preprocessed image *)

(** Every entry of the tensor is a normalised byte, a finite number
    between -3 and 3. *)
Definition in_range3 (v : float) : bool :=
  PrimFloat.leb (-3) v && PrimFloat.leb v 3.

Definition tensor_value (v : float) : Prop := ffin v /\ (-3 <= F2R v <= 3)%R.

Lemma lit_3 : ffin 3 /\ F2R 3 = 3%R.
Proof. F2R_lit 3%float H. destruct H as [F V]. split; [exact F |]. rewrite V. lra. Qed.

Lemma lit_minus_3 : ffin (-3) /\ F2R (-3) = (-3)%R.
Proof. F2R_lit (-3)%float H. destruct H as [F V]. split; [exact F |]. rewrite V. lra. Qed.

Lemma in_range3_value (v : float) : in_range3 v = true -> tensor_value v.
Proof.
  unfold in_range3. intros H. apply andb_true_iff in H. destruct H as [Hlo Hhi].
  destruct lit_3 as [F3 V3]. destruct lit_minus_3 as [Fm Vm].
  assert (Fv : ffin v) by (apply (fle_between (-3) v 3); assumption).
  split; [exact Fv |].
  apply fleb_real in Hlo; [| assumption ..]. apply fleb_real in Hhi; [| assumption ..].
  lra.
Qed.

Lemma normalized_in_range (c : nat) (b : byte) :
  in_range3 (normalized c (Some b)) = true.
Proof. destruct c as [| [| c]]; destruct b; vm_compute; reflexivity. Qed.

Lemma planes_values (n : nat) :
  forall balanced : Buffer,
    (3 * n <= length balanced)%nat ->
    let '(pR, pG, pB) := planes n balanced in
    Forall tensor_value pR /\ Forall tensor_value pG /\ Forall tensor_value pB.
Proof.
  induction n as [| n IH]; intros balanced Hlen.
  - cbn. repeat split; constructor.
  - destruct balanced as [| r [| g [| b rest]]]; cbn [length] in Hlen; try lia.
    cbn [planes skipn nth_error].
    specialize (IH rest ltac:(lia)).
    destruct (planes n rest) as [[pR pG] pB]. destruct IH as (HR & HG & HB).
    repeat split; constructor; try assumption;
      apply in_range3_value, normalized_in_range.
Qed.

Lemma to_tensor_values (balanced : Buffer) :
  len balanced = TARGET_SIZE * TARGET_SIZE * 3 ->
  Forall tensor_value (to_tensor balanced).
Proof.
  intros Hlen. unfold to_tensor.
  pose proof (planes_values (Z.to_nat (TARGET_SIZE * TARGET_SIZE)) balanced) as H.
  destruct (planes (Z.to_nat (TARGET_SIZE * TARGET_SIZE)) balanced) as [[pR pG] pB].
  destruct H as (HR & HG & HB).
  { unfold len, TARGET_SIZE in *. lia. }
  apply Forall_app. split; [exact HR |]. apply Forall_app. split; assumption.
Qed.

(** ** The brightness of a preprocessed image *)

Lemma Rmult_abs_bound (a b A B : R) :
  (- A <= a <= A)%R -> (0 <= b <= B)%R -> (- (A * B) <= a * b <= A * B)%R.
Proof.
  intros Ha Hb. destruct (Rle_lt_dec 0 a) as [H | H].
  - pose proof (Rmult_bounds a b 0 A 0 B ltac:(lra) ltac:(lra) ltac:(lra) ltac:(lra)).
    lra.
  - pose proof (Rmult_bounds (- a) b 0 A 0 B ltac:(lra) ltac:(lra) ltac:(lra) ltac:(lra))
      as Hp.
    replace (- a * b)%R with (- (a * b))%R in Hp by ring. lra.
Qed.

Lemma lit_stds (c : nat) : ffin (stds c) /\ (2 / 10 <= F2R (stds c) <= 3 / 10)%R.
Proof.
  destruct c as [| [| c]]; cbn [stds].
  - F2R_lit 0.229%float H. destruct H as [F V]. split; [exact F |]. rewrite V. lra.
  - F2R_lit 0.224%float H. destruct H as [F V]. split; [exact F |]. rewrite V. lra.
  - F2R_lit 0.225%float H. destruct H as [F V]. split; [exact F |]. rewrite V. lra.
Qed.

Lemma lit_means (c : nat) : ffin (means c) /\ (4 / 10 <= F2R (means c) <= 5 / 10)%R.
Proof.
  destruct c as [| [| c]]; cbn [means].
  - F2R_lit 0.485%float H. destruct H as [F V]. split; [exact F |]. rewrite V. lra.
  - F2R_lit 0.456%float H. destruct H as [F V]. split; [exact F |]. rewrite V. lra.
  - F2R_lit 0.406%float H. destruct H as [F V]. split; [exact F |]. rewrite V. lra.
Qed.

Definition small_term (t : float) : Prop := ffin t /\ (-2 <= F2R t <= 2)%R.

(** [value * stds[c] + means[c]] for a tensor entry. *)
Lemma unnormalized_small (v : float) (c : nat) :
  tensor_value v -> small_term (v * stds c + means c)%float.
Proof.
  intros [Fv Hv]. destruct (lit_stds c) as [Fs Hs]. destruct (lit_means c) as [Fm Hm].
  pose proof (Rmult_abs_bound (F2R v) (F2R (stds c)) 3 (3 / 10) Hv ltac:(lra)) as Hp.
  destruct (fmul_tol v (stds c) Fv Fs) as [Fp Ep]; [lra |]. rewrite tol_val in Ep.
  destruct (fadd_tol (v * stds c) (means c) Fp Fm) as [Fa Ea]; [lra |].
  rewrite tol_val in Ea. split; [exact Fa | lra].
Qed.

(** A running sum of small terms stays finite: three per term bound it. *)
Lemma fsum_bound (l : list float) :
  Forall small_term l ->
  forall (acc : float) (B : R),
    ffin acc -> (0 <= B)%R -> (- B <= F2R acc <= B)%R ->
    (B + 3 * INR (length l) <= 1000000)%R ->
    let r := fold_left (fun a b => (a + b)%float) l acc in
    ffin r /\ (- (B + 3 * INR (length l)) <= F2R r <= B + 3 * INR (length l))%R.
Proof.
  induction 1 as [| t l [Ft Ht] _ IH]; intros acc B Fa HB Ha Hmax.
  - cbn. split; [exact Fa | lra].
  - cbn [fold_left length] in *. rewrite S_INR in *.
    pose proof (pos_INR (length l)) as Hn.
    destruct (fadd_tol acc t Fa Ft) as [Fs Es]; [lra |]. rewrite tol_val in Es.
    destruct (IH (acc + t)%float (B + 3)%R Fs) as [Fr Er]; try lra.
    split; [exact Fr | lra].
Qed.

Lemma lit_50176 : ffin 50176 /\ F2R 50176 = 50176%R.
Proof.
  change 50176%float with (JS.of_Z 50176). apply (F2R_of_Z 50176). lia.
Qed.

Lemma channel_mean_small (tensor : Float32Array) (c : nat) :
  Forall tensor_value tensor ->
  Z.of_nat c * 50176 + 50176 <= len tensor ->
  ffin (channel_mean tensor c) /\ (-4 <= F2R (channel_mean tensor c) <= 4)%R.
Proof.
  intros Hval Hlen. unfold len in Hlen. unfold channel_mean, float_sum.
  destruct lit_zero as [F0 V0]. destruct lit_50176 as [Fn Vn].
  destruct (fsum_bound (map (unnormalized tensor c) (seq 0 (224 * 224)))) with
    (acc := 0%float) (B := 0%R) as [Fs Hs]; try assumption; try lra.
  - apply Forall_map, Forall_forall. intros i Hi. apply in_seq in Hi.
    unfold unnormalized. apply unnormalized_small.
    rewrite Forall_forall in Hval. apply Hval, nth_In. lia.
  - rewrite length_map, length_seq, mult_INR, (INR_IZR_INZ 224).
    change (Z.of_nat 224) with 224. lra.
  - rewrite length_map, length_seq, mult_INR, (INR_IZR_INZ 224) in Hs.
    change (Z.of_nat 224) with 224 in Hs.
    set (s := fold_left _ _ _) in *.
    destruct (fdiv_tol s 50176 Fs Fn) as [Fd Ed]; [rewrite Vn; lra | rewrite Vn; lra |].
    rewrite Vn, tol_val in Ed. split; [exact Fd | lra].
Qed.

Lemma brightness_small (tensor : Float32Array) :
  Forall tensor_value tensor -> len tensor = 3 * TARGET_SIZE * TARGET_SIZE ->
  ffin (brightness_spec tensor) /\ (-5 <= F2R (brightness_spec tensor) <= 5)%R.
Proof.
  intros Hval Hlen. unfold TARGET_SIZE in Hlen.
  unfold brightness_spec, float_sum. cbn [map fold_left].
  destruct (channel_mean_small tensor 0 Hval ltac:(lia)) as [F0 H0].
  destruct (channel_mean_small tensor 1 Hval ltac:(lia)) as [F1 H1].
  destruct (channel_mean_small tensor 2 Hval ltac:(lia)) as [F2 H2].
  destruct lit_zero as [Fz Vz]. destruct lit_3 as [F3 V3].
  destruct (fadd_tol 0 (channel_mean tensor 0) Fz F0) as [Fa Ea]; [lra |].
  rewrite Vz, tol_val in Ea.
  destruct (fadd_tol _ (channel_mean tensor 1) Fa F1) as [Fb Eb]; [lra |].
  rewrite tol_val in Eb.
  destruct (fadd_tol _ (channel_mean tensor 2) Fb F2) as [Fc Ec]; [lra |].
  rewrite tol_val in Ec.
  destruct (fdiv_tol _ 3 Fc F3) as [Fd Ed]; [rewrite V3; lra | rewrite V3; lra |].
  rewrite V3, tol_val in Ed. split; [exact Fd | lra].
Qed.

(** ** The centre of a bounded brightness *)

Lemma Math_min_cases (a b : float) :
  is_nan a = false -> is_nan b = false ->
  JS.Math_min a b = a \/ JS.Math_min a b = b.
Proof.
  intros Ha Hb. unfold JS.Math_min. rewrite Ha, Hb. cbn [orb].
  destruct (PrimFloat.ltb a b); [now left |].
  destruct (PrimFloat.ltb b a); [now right |].
  destruct (JS.is_neg_zero a); [now left | now right].
Qed.

Lemma center_of_not_nan (b : float) :
  ffin b -> (-1000 <= F2R b <= 1000)%R -> is_nan (center_of b) = false.
Proof.
  intros Fb Hb. unfold center_of. rewrite of_Z_5.
  destruct lit_one as [F1 V1].
  assert (F5 : ffin 5 /\ F2R 5 = 5%R).
  { change 5%float with (JS.of_Z 5). apply (F2R_of_Z 5). lia. }
  destruct F5 as [F5 V5].
  destruct (fsub_tol 1 b F1 Fb) as [Fs Es]; [rewrite V1; lra |].
  rewrite V1, tol_val in Es.
  pose proof (Rmult_abs_bound (F2R (1 - b)) (F2R 5) 1002 5 ltac:(lra) ltac:(lra)) as Hp.
  destruct (fmul_tol (1 - b) 5 Fs F5) as [Fm _]; [lra |].
  destruct (Math_round_spec _ Fm) as [Fr _].
  set (r := JS.Math_round _) in *.
  assert (Hr : is_nan r = false) by now apply ffin_not_nan.
  assert (Ht : is_nan (JS.Math_max 0 r) = false).
  { destruct (Math_max_cases 0 r eq_refl Hr) as [-> | ->]; [reflexivity | exact Hr]. }
  destruct (Math_min_cases 5 _ eq_refl Ht) as [-> | ->]; [reflexivity | exact Ht].
Qed.

(** ** The tensor and the probabilities of a preprocessed image *)

Lemma preprocessed_center (balanced : Buffer) :
  len balanced = TARGET_SIZE * TARGET_SIZE * 3 ->
  let image := {| data := to_tensor balanced; channels := 3;
                  height := TARGET_SIZE; width := TARGET_SIZE |} in
  is_nan (center_of (brightness_of image)) = false.
Proof.
  intros Hlen image.
  rewrite brightness_of_spec by reflexivity. cbn [data image].
  destruct (brightness_small (to_tensor balanced)) as [Fb Hb].
  - now apply to_tensor_values.
  - apply to_tensor_layout.
  - apply center_of_not_nan; [exact Fb | lra].
Qed.

Section TensorAndProbabilities.

Variable exp_impl : float -> float.
Variable sharp : Buffer -> Result Thrown RawImage.

Hypothesis exp_small :
  forall x : float, fle x (-1) -> fle 0 (exp_impl x) /\ fle (exp_impl x) 0.5.

Hypothesis sharp_shape : forall buf raw,
  sharp buf = Ok raw ->
  info_width raw = RESIZE_SIZE /\ info_height raw = RESIZE_SIZE
  /\ len (raw_data raw) = RESIZE_SIZE * RESIZE_SIZE * 3.

(** C2: the tensor of a successfully preprocessed image has
    [3 * 224 * 224] entries in channel-first layout, entry
    [c * 224 * 224 + i] being [(balanced[i * 3 + c] / 255 - mean[c]) / std[c]]
    as the [Float32Array] keeps it, where [balanced] is the gray-world
    balanced centre crop; and [predict] over it returns six finite
    probabilities whose sum is 1 within [1e-6].  Asked of the decoder: a
    256x256 RGB image; of [Math.exp]: a value between 0 and 0.5 at every
    argument of at most -1. *)
Theorem tensor_layout_and_probabilities (buf : Buffer) (image : PreprocessedImage) :
  preprocessImage sharp buf = Ok image ->
  exists resized cropped,
    sharp buf = Ok resized
    /\ center_crop resized = Ok cropped
    /\ len (data image) = 3 * TARGET_SIZE * TARGET_SIZE
    /\ (forall c i, 0 <= c < 3 -> 0 <= i < TARGET_SIZE * TARGET_SIZE ->
          exists b,
            elem (applyGrayWorld cropped) (i * 3 + c) = Some b
            /\ elem (data image) (c * TARGET_SIZE * TARGET_SIZE + i)
               = Some (JS.fround ((JS.of_byte b / 255 - IMAGENET_MEAN (Z.to_nat c))
                                  / IMAGENET_STD (Z.to_nat c))%float))
    /\ let ps := map probability (probabilities (predict exp_impl image)) in
       length ps = 6%nat
       /\ Forall ffin ps
       /\ (Rabs (Rsum ps - 1) <= / 1000000)%R.
Proof.
  intros Hok. destruct (sharp buf) as [raw | t] eqn:Hs.
  2:{ unfold preprocessImage, preprocess_body in Hok. rewrite Hs in Hok.
      cbn [bind] in Hok. destruct t; discriminate Hok. }
  destruct (preprocess_body_ok sharp sharp_shape buf raw Hs) as (cropped & Hc & Hl & Hp).
  rewrite Hp in Hok. inversion Hok; subst image. clear Hok.
  exists raw, cropped. split; [reflexivity |]. split; [exact Hc |].
  set (balanced := applyGrayWorld cropped).
  assert (Hbl : len balanced = TARGET_SIZE * TARGET_SIZE * 3).
  { unfold balanced. rewrite applyGrayWorld_length. exact Hl. }
  destruct (to_tensor_layout balanced) as [Hlen Hlay].
  cbn [data]. split; [exact Hlen |]. split.
  - intros c i Hc' Hi.
    assert (Hidx : 0 <= i * 3 + c < len balanced) by (unfold TARGET_SIZE in *; lia).
    destruct (elem balanced (i * 3 + c)) as [b |] eqn:Eb.
    + exists b. split; [reflexivity |]. rewrite Hlay, Eb by assumption. reflexivity.
    + exfalso. rewrite elem_nth_error in Eb by lia.
      apply nth_error_None in Eb. unfold len in Hidx. lia.
  - pose proof (preprocessed_center balanced Hbl) as Hcen. cbv zeta in Hcen.
    destruct (predict_probs exp_impl exp_small _ Hcen)
      as (k & _ & _ & Hn & Hfin & _ & Hsum).
    cbv zeta. unfold predict. rewrite buildResult_probabilities.
    + split; [exact Hn |]. split; [exact Hfin |].
      rewrite tol_val in Hsum. lra.
    + exact Hn.
    + eapply Forall_impl; [| exact Hfin]. intros p. apply ffin_not_nan.
Qed.

End TensorAndProbabilities.

(** What the pipeline makes of the mid-gray image. *)
Definition image_of (r : Result AppError PreprocessedImage) : PreprocessedImage :=
  match r with
  | Ok image => image
  | Throw _ => gray_image
  end.

Definition gray_preprocessed : PreprocessedImage :=
  image_of (preprocessImage sharp_gray [x00]).

Lemma preprocess_gray_ok : preprocessImage sharp_gray [x00] = Ok gray_preprocessed.
Proof.
  unfold gray_preprocessed.
  destruct (preprocess_body_ok sharp_gray sharp_gray_shape [x00] gray_raw eq_refl)
    as (cropped & _ & _ & ->).
  reflexivity.
Defined.

Lemma tensor_layout_and_probabilities_witness :
  exists resized cropped,
    sharp_gray [x00] = Ok resized
    /\ center_crop resized = Ok cropped
    /\ len (data gray_preprocessed) = 3 * TARGET_SIZE * TARGET_SIZE
    /\ (forall c i, 0 <= c < 3 -> 0 <= i < TARGET_SIZE * TARGET_SIZE ->
          exists b,
            elem (applyGrayWorld cropped) (i * 3 + c) = Some b
            /\ elem (data gray_preprocessed) (c * TARGET_SIZE * TARGET_SIZE + i)
               = Some (JS.fround ((JS.of_byte b / 255 - IMAGENET_MEAN (Z.to_nat c))
                                  / IMAGENET_STD (Z.to_nat c))%float))
    /\ let ps := map probability (probabilities (predict exp_checked gray_preprocessed)) in
       length ps = 6%nat
       /\ Forall ffin ps
       /\ (Rabs (Rsum ps - 1) <= / 1000000)%R.
Proof.
  exact (tensor_layout_and_probabilities exp_checked sharp_gray exp_checked_small
           sharp_gray_shape [x00] gray_preprocessed preprocess_gray_ok).
Defined.

(** ** Exact rounding of representable values *)

(* ================================================================== *)
(** * Binary64 arithmetic: exact operations on integers *)
(* ================================================================== *)

(** ** Shifts that drop only zero bits *)

Lemma shr_1_clean (m : Z) :
  0 <= m -> (2 | m) ->
  shr_1 (Build_shr_record m false false) = Build_shr_record (m / 2) false false.
Proof.
  intros Hm [c Hc]. destruct m as [| p | p]; [reflexivity | | lia].
  destruct p as [p | p |]; cbn [shr_1 orb].
  - exfalso. lia.
  - f_equal. rewrite Pos2Z.inj_xO. apply (Z.div_unique _ 2 (Z.pos p) 0); lia.
  - exfalso. lia.
Qed.

Lemma divide_pow2_half (m k : Z) :
  0 <= k -> (2 ^ (k + 1) | m) -> (2 | m) /\ (2 ^ k | m / 2).
Proof.
  intros Hk [c Hc]. rewrite Z.pow_add_r, Z.pow_1_r in Hc by lia. split.
  - exists (c * 2 ^ k). lia.
  - exists c. subst m. replace (c * (2 ^ k * 2)) with (c * 2 ^ k * 2) by lia.
    now rewrite Z.div_mul by lia.
Qed.

Lemma divide_pow2_split (m a b : Z) :
  0 <= a -> 0 <= b -> (2 ^ (a + b) | m) -> (2 ^ a | m) /\ (2 ^ b | m / 2 ^ a).
Proof.
  intros Ha Hb [c Hc]. rewrite Z.pow_add_r in Hc by lia.
  assert (0 < 2 ^ a) by (apply Z.pow_pos_nonneg; lia). split.
  - exists (c * 2 ^ b). lia.
  - exists c. subst m. replace (c * (2 ^ a * 2 ^ b)) with (c * 2 ^ b * 2 ^ a) by lia.
    now rewrite Z.div_mul by lia.
Qed.

Lemma iter_shr_clean (p : positive) :
  forall m : Z, 0 <= m -> (2 ^ Z.pos p | m) ->
    SpecFloat.iter_pos shr_1 p (Build_shr_record m false false)
    = Build_shr_record (m / 2 ^ Z.pos p) false false.
Proof.
  induction p as [p IH | p IH |]; intros m Hm Hd; cbn [SpecFloat.iter_pos].
  - replace (Z.pos p~1) with (1 + (Z.pos p + Z.pos p)) in Hd by lia.
    destruct (divide_pow2_split m 1 (Z.pos p + Z.pos p)) as [H1 H2]; try lia; [exact Hd |].
    rewrite Z.pow_1_r in H1, H2.
    destruct (divide_pow2_split (m / 2) (Z.pos p) (Z.pos p)) as [H3 H4]; try lia;
      [exact H2 |].
    assert (0 <= m / 2) by (apply Z.div_pos; lia).
    assert (0 <= m / 2 / 2 ^ Z.pos p) by (apply Z.div_pos; lia).
    rewrite shr_1_clean, IH, IH by assumption.
    f_equal. rewrite !Z.div_div by lia. f_equal. symmetry. apply pow2_xI.
  - replace (Z.pos p~0) with (Z.pos p + Z.pos p) in Hd by lia.
    destruct (divide_pow2_split m (Z.pos p) (Z.pos p)) as [H3 H4]; try lia; [exact Hd |].
    assert (0 <= m / 2 ^ Z.pos p) by (apply Z.div_pos; lia).
    rewrite IH, IH by assumption.
    f_equal. rewrite Z.div_div by lia. f_equal. symmetry. apply pow2_xO.
  - rewrite Z.pow_1_r in Hd. rewrite shr_1_clean by assumption. reflexivity.
Qed.

(** ** Rounding a representable value *)

(** When the bits that the shift to the target exponent drops are all
    zero, [binary_round_aux] returns the value itself. *)
Lemma round_aux_exact (s : bool) (m e : Z) :
  0 < m ->
  e <= fexp prec emax (Zdigits2 m + e) ->
  (2 ^ (fexp prec emax (Zdigits2 m + e) - e) | m) ->
  Zdigits2 m + e <= 1023 ->
  let r := binary_round_aux prec emax s m e loc_Exact in
  is_fin r = true /\ SFR r = signed s (IZR m * pow2 e).
Proof.
  intros Hm Hfine Hdiv Hmag r.
  set (e1 := fexp prec emax (Zdigits2 m + e)) in *.
  destruct (Z.eq_dec e1 e) as [E | E].
  - destruct (round_aux_spec s m e loc_Exact) as (m1 & _ & Hex & Hfin & Hval);
      try lia; try assumption.
    fold e1 in Hex, Hval. fold r in Hfin, Hval.
    split; [exact Hfin |]. rewrite Hval, (Hex eq_refl E), E. reflexivity.
  - set (n := e1 - e) in *. assert (Hn : 0 < n) by (unfold n; lia).
    set (q := m / 2 ^ n).
    assert (P2 : 0 < 2 ^ n) by (apply Z.pow_pos_nonneg; lia).
    assert (Hmq : m = q * 2 ^ n).
    { destruct Hdiv as [c Hc]. fold n in Hc.
      assert (Hqc : q = c) by (unfold q; rewrite Hc; apply Z.div_mul; lia).
      rewrite Hqc. exact Hc. }
    assert (Hq : 0 < q) by nia.
    assert (Hdq : Zdigits2 q + e1 = Zdigits2 m + e).
    { pose proof (Zdigits2_shift q n Hq ltac:(lia)) as Hdm.
      rewrite <- Hmq in Hdm. unfold n in Hdm. lia. }
    (* the first shift of [m] leaves what the first shift of [q] leaves *)
    assert (Hsame : r = binary_round_aux prec emax s q e1 loc_Exact).
    { unfold r, binary_round_aux, shr_fexp. fold e1. fold n.
      rewrite Hdq. fold e1. rewrite Z.sub_diag.
      assert (Hp : exists p, n = Z.pos p) by (destruct n; try lia; eauto).
      destruct Hp as [p Hp]. rewrite Hp in Hdiv.
      replace (e + n) with e1 by (unfold n; lia).
      unfold q. rewrite Hp. cbn [shr shr_record_of_loc].
      rewrite iter_shr_clean by (first [exact Hdiv | lia]).
      replace (e + Z.pos p) with e1 by (unfold n in Hp; lia). reflexivity. }
    destruct (round_aux_spec s q e1 loc_Exact) as (m1 & _ & Hex & Hfin & Hval);
      try lia.
    + rewrite Hdq. fold e1. lia.
    + rewrite Hdq in Hex, Hval. fold e1 in Hex, Hval.
      rewrite <- Hsame in Hfin, Hval. split; [exact Hfin |].
      rewrite Hval, (Hex eq_refl eq_refl). f_equal.
      rewrite Hmq, mult_IZR. replace e1 with (n + e) by (unfold n; lia).
      rewrite pow2_add, (pow2_nonneg_IZR n) by lia. ring.
Qed.

(** A mantissa and exponent that stand for an integer below [2^53]. *)
Lemma binary_round_int (s : bool) (m : positive) (e N : Z) :
  (IZR (Z.pos m) * pow2 e = IZR N)%R -> N < 2 ^ 53 -> -1074 <= e ->
  is_fin (binary_round prec emax s m e) = true
  /\ SFR (binary_round prec emax s m e) = signed s (IZR N).
Proof.
  intros Hval HN He.
  assert (HN0 : 0 < N).
  { apply lt_IZR. rewrite <- Hval. pose proof (pow2_pos e).
    assert (0 < IZR (Z.pos m))%R by (apply IZR_lt; lia). nra. }
  assert (HdN : Zdigits2 N <= 53) by (apply Zdigits2_le; lia).
  pose proof (Zdigits2_bounds N HN0) as [_ HNhi].
  pose proof (Zdigits2_nonneg N) as HdN0.
  (* digits m + e = digits N *)
  assert (Hd : Zdigits2 (Z.pos m) + e = Zdigits2 N
               /\ (e < 0 -> Z.pos m = N * 2 ^ (- e))).
  { destruct (Z_lt_ge_dec e 0) as [Hneg | Hpos].
    - assert (Hm : Z.pos m = N * 2 ^ (- e)).
      { apply eq_IZR. rewrite mult_IZR, <- (pow2_nonneg_IZR (- e)) by lia.
        rewrite <- Hval, Rmult_assoc, <- pow2_add.
        replace (e + - e) with 0 by lia. rewrite pow2_0. ring. }
      split; [| intros _; exact Hm]. rewrite Hm, Zdigits2_shift by lia. lia.
    - assert (Hm : N = Z.pos m * 2 ^ e).
      { apply eq_IZR. rewrite mult_IZR, <- (pow2_nonneg_IZR e) by lia.
        symmetry. exact Hval. }
      split; [| lia]. rewrite Hm, Zdigits2_shift by lia. lia. }
  destruct Hd as [Hd Hm].
  unfold binary_round.
  pose proof (shl_align_spec m e (fexp prec emax (Z.pos (digits2_pos m) + e)))
    as (Hv & Hez & Hdz).
  destruct (shl_align m e (fexp prec emax (Z.pos (digits2_pos m) + e)))
    as [mz ez] eqn:Es.
  cbn [fst snd] in Hv, Hez, Hdz.
  change (Z.pos (digits2_pos m)) with (Zdigits2 (Z.pos m)) in Hez.
  rewrite Hd, fexp64 in Hez.
  assert (Hfix : fexp prec emax (Zdigits2 (Z.pos mz) + ez)
                 = Z.max (Zdigits2 N - 53) (-1074)).
  { rewrite Hdz, Hd, fexp64. reflexivity. }
  destruct (round_aux_exact s (Z.pos mz) ez) as [Hf Hr];
    [lia | rewrite Hfix; lia | | |].
  - rewrite Hfix. set (e1 := Z.max (Zdigits2 N - 53) (-1074)) in *.
    destruct (Z_le_gt_dec e1 ez) as [Hle | Hgt].
    + replace (e1 - ez) with 0 by lia. exists (Z.pos mz). cbn. lia.
    + (* no left shift happened: mz = m, ez = e < 0 *)
      assert (Hee : ez = e) by lia. rewrite Hee in *.
      assert (Hmz : Z.pos mz = Z.pos m).
      { apply eq_IZR. pose proof (pow2_pos e).
        apply Rmult_eq_reg_r with (pow2 e); [exact Hv | lra]. }
      rewrite Hmz, (Hm ltac:(lia)).
      exists (N * 2 ^ (- e - (e1 - e))).
      rewrite <- Z.mul_assoc, <- Z.pow_add_r by lia. do 2 f_equal. lia.
  - rewrite Hdz, Hd. lia.
  - split; [exact Hf |]. rewrite Hr, Hv, Hval. reflexivity.
Qed.

Lemma binary_normalize_int (M e N : Z) (sz : bool) :
  (IZR M * pow2 e = IZR N)%R -> Z.abs N < 2 ^ 53 -> -1074 <= e ->
  is_fin (binary_normalize prec emax M e sz) = true
  /\ SFR (binary_normalize prec emax M e sz) = IZR N.
Proof.
  intros Hval HN He. pose proof (pow2_pos e) as Hp.
  destruct M as [| p | p]; cbn [binary_normalize].
  - split; [reflexivity |]. cbn [SFR]. rewrite <- Hval. ring.
  - assert (0 < IZR (Z.pos p))%R by (apply IZR_lt; lia).
    assert (0 < N) by (apply lt_IZR; rewrite <- Hval; nra).
    apply (binary_round_int false p e N); try assumption. lia.
  - assert (0 < IZR (Z.pos p))%R by (apply IZR_lt; lia).
    assert (E : (IZR (Z.neg p) = - IZR (Z.pos p))%R).
    { change (Z.neg p) with (- Z.pos p). apply opp_IZR. }
    assert (N < 0) by (apply lt_IZR; rewrite <- Hval, E; nra).
    destruct (binary_round_int true p e (- N)) as [Hf Hr]; try lia.
    + rewrite opp_IZR, <- Hval, E. ring.
    + split; [exact Hf |]. rewrite Hr. cbn [signed]. rewrite opp_IZR. ring.
Qed.

(** ** Sums and differences of integers *)

Lemma IZR_eq_0 (a : Z) : IZR a = 0%R -> a = 0.
Proof. intros H. apply eq_IZR. exact H. Qed.

(** The sum of two values that stand for integers, when it is below
    [2^53] in magnitude, is computed exactly. *)
Lemma SFadd_int (x y : spec_float) (a b : Z) :
  valid_binary x = true -> valid_binary y = true ->
  is_fin x = true -> is_fin y = true ->
  SFR x = IZR a -> SFR y = IZR b -> Z.abs (a + b) < 2 ^ 53 ->
  is_fin (SFadd prec emax x y) = true
  /\ SFR (SFadd prec emax x y) = IZR (a + b).
Proof.
  intros Vx Vy Fx Fy Ha Hb Hsum.
  destruct x as [sx | sx | | sx mx ex], y as [sy | sy | | sy my ey];
    try discriminate; cbn [SFadd SFR is_fin] in *.
  - rewrite plus_IZR, <- Ha, <- Hb.
    destruct sx, sy; split; try reflexivity; cbn [SFR]; lra.
  - rewrite plus_IZR, <- Ha, <- Hb. split; [reflexivity | cbn [SFR]; lra].
  - rewrite plus_IZR, <- Ha, <- Hb. split; [reflexivity | cbn [SFR]; lra].
  - destruct (valid_digits sx mx ex Vx) as (_ & Ex & _).
    destruct (valid_digits sy my ey Vy) as (_ & Ey & _).
    apply binary_normalize_int; try lia.
    pose proof (aligned_sum sx sy mx my ex ey) as H. cbn zeta in H.
    rewrite H, plus_IZR, Ha, Hb. reflexivity.
Qed.

Lemma SFsub_int (x y : spec_float) (a b : Z) :
  valid_binary x = true -> valid_binary y = true ->
  is_fin x = true -> is_fin y = true ->
  SFR x = IZR a -> SFR y = IZR b -> Z.abs (a - b) < 2 ^ 53 ->
  is_fin (SFsub prec emax x y) = true
  /\ SFR (SFsub prec emax x y) = IZR (a - b).
Proof.
  intros Vx Vy Fx Fy Ha Hb Hsum.
  destruct x as [sx | sx | | sx mx ex], y as [sy | sy | | sy my ey];
    try discriminate; cbn [SFsub SFR is_fin] in *.
  - rewrite minus_IZR, <- Ha, <- Hb.
    destruct sx, sy; split; try reflexivity; cbn [SFR]; lra.
  - rewrite minus_IZR, <- Ha, <- Hb. split; [reflexivity |]. cbn [SFR].
    destruct sy; cbn [signed negb]; lra.
  - rewrite minus_IZR, <- Ha, <- Hb. split; [reflexivity | cbn [SFR]; lra].
  - destruct (valid_digits sx mx ex Vx) as (_ & Ex & _).
    destruct (valid_digits sy my ey Vy) as (_ & Ey & _).
    apply binary_normalize_int; try lia.
    pose proof (aligned_sum sx (negb sy) mx my ex ey) as H. cbn zeta in H.
    rewrite plus_IZR in H. rewrite !minus_IZR.
    rewrite !cond_Zopp_IZR in *. rewrite <- Ha, <- Hb.
    destruct sy; cbn [signed negb] in *; lra.
Qed.

Lemma fadd_int (x y : float) (a b : Z) :
  ffin x -> ffin y -> F2R x = IZR a -> F2R y = IZR b -> Z.abs (a + b) < 2 ^ 53 ->
  ffin (x + y) /\ F2R (x + y) = IZR (a + b).
Proof.
  unfold ffin, F2R. rewrite add_spec. apply SFadd_int; apply Prim2SF_valid.
Qed.

Lemma fsub_int (x y : float) (a b : Z) :
  ffin x -> ffin y -> F2R x = IZR a -> F2R y = IZR b -> Z.abs (a - b) < 2 ^ 53 ->
  ffin (x - y) /\ F2R (x - y) = IZR (a - b).
Proof.
  unfold ffin, F2R. rewrite sub_spec. apply SFsub_int; apply Prim2SF_valid.
Qed.

(** ** [ToInt32] and [Math.round] on real values *)

(** The truncation of a value that stands for an integer is that
    integer. *)
Lemma trunc_int (x : float) (z : Z) :
  ffin x -> F2R x = IZR z -> JS.trunc x = Some z.
Proof.
  unfold ffin, F2R, JS.trunc.
  destruct (Prim2SF x) as [s | s | | s m e]; try discriminate; intros _ H;
    cbn [SFR] in H.
  - f_equal. symmetry. now apply IZR_eq_0.
  - f_equal.
    assert (Hmag : forall v : Z, (IZR (Z.pos m) * pow2 e = IZR v)%R ->
              match e with
              | Z.neg k => Z.shiftr (Z.pos m) (Z.pos k)
              | _ => Z.shiftl (Z.pos m) e
              end = v).
    { intros v Hv. destruct e as [| p | k].
      - rewrite pow2_0, Rmult_1_r in Hv. apply eq_IZR in Hv. cbn. exact Hv.
      - rewrite Z.shiftl_mul_pow2 by lia. apply eq_IZR.
        rewrite mult_IZR, <- pow2_nonneg_IZR by lia. exact Hv.
      - rewrite Z.shiftr_div_pow2 by lia.
        assert (Hm : Z.pos m = v * 2 ^ Z.pos k).
        { apply eq_IZR. rewrite mult_IZR, <- pow2_nonneg_IZR by lia.
          rewrite <- Hv, Rmult_assoc, <- pow2_add.
          replace (Z.neg k + Z.pos k) with 0 by lia. rewrite pow2_0. ring. }
        rewrite Hm. apply Z.div_mul. apply Z.pow_nonzero; lia. }
    destruct s; cbn [signed] in H.
    + rewrite (Hmag (- z)); [lia |]. rewrite opp_IZR. lra.
    + now rewrite (Hmag z).
Qed.

Lemma ToInt32_int (x : float) (z : Z) :
  ffin x -> F2R x = IZR z -> JS.ToInt32 x = JS.wrap32 z.
Proof. intros F H. unfold JS.ToInt32. now rewrite (trunc_int x z F H). Qed.

(** [r] is the integer [Math.round] returns at [x]: the nearest one,
    the larger of the two at a tie. *)
Definition rounds_to (x : float) (r : Z) : Prop :=
  (IZR r - 1 / 2 <= F2R x < IZR r + 1 / 2)%R.

Lemma rounds_to_unique (x : float) (r r' : Z) :
  rounds_to x r -> rounds_to x r' -> r = r'.
Proof.
  unfold rounds_to. intros H H'.
  assert (IZR r - IZR r' < 1)%R by lra. assert (IZR r' - IZR r < 1)%R by lra.
  rewrite <- minus_IZR in *. apply lt_IZR in H0, H1. lia.
Qed.

Lemma Math_round_real (x : float) :
  ffin x ->
  exists r : Z,
    ffin (JS.Math_round x) /\ F2R (JS.Math_round x) = IZR r /\ rounds_to x r.
Proof.
  unfold JS.Math_round, rounds_to, ffin at 1, F2R at 2 3.
  pose proof (Prim2SF_valid x) as V.
  destruct (Prim2SF x) as [s | s | | s m e] eqn:E; try discriminate; intros _.
  - exists 0. split; [unfold ffin; rewrite E; reflexivity |].
    split; [unfold F2R; rewrite E; reflexivity |]. cbn [SFR]. lra.
  - destruct e as [| p | k].
    + exists (if s then - Z.pos m else Z.pos m).
      split; [unfold ffin; rewrite E; reflexivity |].
      assert (Hv : SFR (S754_finite s m 0) = IZR (if s then - Z.pos m else Z.pos m)).
      { cbn [SFR]. rewrite pow2_0.
        destruct s; cbn [signed]; rewrite ?opp_IZR; lra. }
      split; [unfold F2R; rewrite E; exact Hv |]. rewrite Hv. lra.
    + exists (if s then - (Z.pos m * 2 ^ Z.pos p) else Z.pos m * 2 ^ Z.pos p).
      split; [unfold ffin; rewrite E; reflexivity |].
      assert (Hv : SFR (S754_finite s m (Z.pos p))
                   = IZR (if s then - (Z.pos m * 2 ^ Z.pos p)
                          else Z.pos m * 2 ^ Z.pos p)).
      { cbn [SFR]. rewrite pow2_nonneg_IZR by lia.
        destruct s; cbn [signed]; rewrite ?opp_IZR, mult_IZR; lra. }
      split; [unfold F2R; rewrite E; exact Hv |]. rewrite Hv. lra.
    + set (n := if s then Z.neg m else Z.pos m).
      set (r := (2 * n + Z.shiftl 1 (Z.pos k)) / Z.shiftl 1 (Z.pos k + 1)).
      assert (Hval : SFR (S754_finite s m (Z.neg k)) = (IZR n * / IZR (2 ^ Z.pos k))%R).
      { cbn [SFR]. rewrite pow2_neg. unfold n.
        destruct s; cbn [signed]; [| reflexivity].
        change (Z.neg m) with (- Z.pos m). rewrite opp_IZR. ring. }
      (* r is the floor of n / 2^k + 1/2 *)
      set (P := 2 ^ Z.pos k) in *.
      assert (HP : 2 <= P).
      { unfold P. change 2 with (2 ^ 1) at 1. apply Z.pow_le_mono_r; lia. }
      assert (Hr : 2 * P * r <= 2 * n + P < 2 * P * r + 2 * P).
      { unfold r. rewrite !Z.shiftl_1_l.
        replace (Z.pos k + 1) with (Z.succ (Z.pos k)) by lia.
        rewrite Z.pow_succ_r by lia. fold P.
        pose proof (Z.div_mod (2 * n + P) (2 * P) ltac:(lia)) as Hdm.
        pose proof (Z.mod_pos_bound (2 * n + P) (2 * P) ltac:(lia)). lia. }
      assert (HPr : (0 < IZR P)%R) by (apply IZR_lt; lia).
      assert (Hreal : (IZR r - 1 / 2 <= IZR n * / IZR P < IZR r + 1 / 2)%R).
      { destruct Hr as [Hlo Hhi]. apply IZR_le in Hlo. apply IZR_lt in Hhi.
        repeat rewrite plus_IZR in Hlo. repeat rewrite mult_IZR in Hlo.
        repeat rewrite plus_IZR in Hhi. repeat rewrite mult_IZR in Hhi.
        set (t := (IZR n * / IZR P)%R).
        assert (Ht : (t * IZR P = IZR n)%R) by (unfold t; field; lra).
        split.
        - apply Rmult_le_reg_r with (IZR P); [exact HPr |]. rewrite Ht. lra.
        - apply Rmult_lt_reg_r with (IZR P); [exact HPr |]. rewrite Ht. lra. }
      rewrite Hval.
      assert (Hsmall : Z.abs r < 2 ^ 53).
      { destruct (valid_digits s m (Z.neg k) V) as (Dm & _ & _).
        pose proof (Zdigits2_bounds (Z.pos m) ltac:(lia)) as [_ Hm].
        assert (Hm53 : Z.pos m < 2 ^ 53).
        { eapply Z.lt_le_trans; [exact Hm |]. apply Z.pow_le_mono_r; lia. }
        assert (Hn : - 2 ^ 53 < n < 2 ^ 53) by (unfold n; destruct s; lia).
        change (2 ^ 53) with (2 * 2 ^ 52) in *. nia. }
      destruct (Z.eqb_spec r 0) as [Hr0 | Hr0].
      * exists 0. rewrite Hr0 in Hreal.
        split; [destruct s; reflexivity |].
        split; [destruct s; reflexivity | exact Hreal].
      * exists r. destruct (F2R_of_Z r Hsmall) as [Fr Vr].
        split; [exact Fr |]. split; [exact Vr | exact Hreal].
Qed.

(** ** [hashTensor]: the accumulation over the integers *)

Lemma wrap32_small (z : Z) : -2147483648 <= z < 2147483648 -> JS.wrap32 z = z.
Proof. intros H. unfold JS.wrap32. rewrite Z.mod_small by lia. lia. Qed.

Lemma wrap32_idem_sub (a b c : Z) :
  JS.wrap32 (JS.wrap32 a - b + c) = JS.wrap32 (a - b + c).
Proof.
  replace (JS.wrap32 a - b + c) with (JS.wrap32 a + (c - b)) by lia.
  rewrite wrap32_idem_add. f_equal. lia.
Qed.

(** The integer [Math.round((value + 3) * 10000)] contributes for an
    entry [value]: the argument is a finite number, [r] is the integer
    nearest to it (the larger one at a tie), and [r] is small enough for
    the sum with the shifted hash to be exact. *)
Definition rounded_term (value : float) (r : Z) : Prop :=
  ffin ((value + 3) * 10000) /\ rounds_to ((value + 3) * 10000) r
  /\ Z.abs r <= 2 ^ 51.

(** The accumulation the loop performs, on integers:
    [(hash << 5) - hash + r], kept to 32 signed bits. *)
Definition accumulate (hash r : Z) : Z :=
  JS.wrap32 (Z.shiftl hash 5 - hash + r).

Lemma hash_step_accumulate (hash : Z) (value : float) (r : Z) :
  -2147483648 <= hash < 2147483648 -> rounded_term value r ->
  hash_step hash value = accumulate hash r.
Proof.
  intros Hh (Fx & Hr & Hsmall). unfold hash_step, accumulate.
  assert (Hshl : shl32 hash 5 = JS.wrap32 (Z.shiftl hash 5)).
  { unfold shl32. now rewrite (wrap32_small hash Hh). }
  pose proof (wrap32_range (Z.shiftl hash 5)) as HA. rewrite <- Hshl in HA.
  change (2 ^ 51) with 2251799813685248 in Hsmall.
  destruct (F2R_of_Z (shl32 hash 5)) as [FA VA];
    [change (2 ^ 53) with 9007199254740992; lia |].
  destruct (F2R_of_Z hash) as [Fh Vh];
    [change (2 ^ 53) with 9007199254740992; lia |].
  destruct (fsub_int _ _ _ _ FA Fh VA Vh) as [Fd Vd];
    [change (2 ^ 53) with 9007199254740992; lia |].
  destruct (Math_round_real _ Fx) as (r' & Fr & Vr & Hr').
  assert (r' = r) by (eapply rounds_to_unique; eassumption). subst r'.
  destruct (fadd_int _ _ _ _ Fd Fr Vd Vr) as [Fs Vs];
    [change (2 ^ 53) with 9007199254740992; lia |].
  rewrite (ToInt32_int _ _ Fs Vs), Hshl. apply wrap32_idem_sub.
Qed.

(** A NaN entry resets the hash: [(... + NaN) | 0] is 0. *)
Lemma hash_step_nan (hash : Z) : hash_step hash nan = 0.
Proof.
  unfold hash_step.
  assert (E : forall x : float, (x + nan)%float = nan).
  { intros x. apply Prim2SF_inj. rewrite add_spec.
    change (Prim2SF nan) with S754_nan. now destruct (Prim2SF x). }
  change (JS.Math_round ((nan + 3) * 10000)) with nan. rewrite E. reflexivity.
Qed.

Lemma lit_10000 : ffin 10000 /\ F2R 10000 = 10000%R.
Proof.
  F2R_lit 10000%float H. destruct H as [F V]. split; [exact F |]. rewrite V. lra.
Qed.

(** Every entry of a normalised tensor has such an integer. *)
Lemma tensor_value_rounded (v : float) :
  tensor_value v -> exists r : Z, rounded_term v r.
Proof.
  intros [Fv Hv]. destruct lit_3 as [F3 V3]. destruct lit_10000 as [Fk Vk].
  pose proof tol_val as Ht.
  destruct (fadd_tol v 3 Fv F3) as [Fs Hs]; [rewrite V3; lra |]. rewrite V3 in Hs.
  assert (Hsum : (- 1 <= F2R (v + 3) <= 7)%R) by lra.
  assert (Hprod : (- 70000 <= F2R (v + 3) * F2R 10000 <= 70000)%R).
  { rewrite Vk. lra. }
  destruct (fmul_tol (v + 3) 10000 Fs Fk) as [Fp Hp]; [lra |].
  destruct (Math_round_real _ Fp) as (r & _ & _ & Hr).
  exists r. split; [exact Fp |]. split; [exact Hr |].
  unfold rounds_to in Hr.
  assert (Hlo : (IZR r < IZR 70002)%R) by lra.
  assert (Hhi : (IZR (- 70002) < IZR r)%R) by lra.
  apply lt_IZR in Hlo, Hhi. change (2 ^ 51) with 2251799813685248. lia.
Qed.

Lemma fold_accumulate (vs : list float) (rs : list Z) :
  Forall2 rounded_term vs rs ->
  forall h, -2147483648 <= h < 2147483648 ->
    fold_left hash_step vs h = fold_left accumulate rs h.
Proof.
  induction 1 as [| v r vs rs Hvr _ IH]; intros h Hh; cbn [fold_left];
    [reflexivity |].
  rewrite (hash_step_accumulate h v r Hh Hvr). apply IH. apply wrap32_range.
Qed.

Lemma sampled_values_ok (tensor : Float32Array) :
  Forall tensor_value tensor -> Forall tensor_value (sampled_values tensor).
Proof.
  intros Hall. unfold sampled_values. apply Forall_forall. intros v Hin.
  apply in_map_iff in Hin. destruct Hin as (i & <- & Hi).
  apply sampled_indices_range in Hi; [| lia].
  rewrite Forall_forall in Hall. apply Hall. apply nth_In.
  unfold len in Hi. lia.
Qed.

Lemma rounded_terms_exist (vs : list float) :
  Forall tensor_value vs -> exists rs, Forall2 rounded_term vs rs.
Proof.
  induction 1 as [| v vs Hv _ (rs & IH)].
  - exists []. constructor.
  - destruct (tensor_value_rounded v Hv) as (r & Hr).
    exists (r :: rs). now constructor.
Qed.

(** C5: the stride is [max(1, floor(length / 256))]; the loop visits the
    positions [0, step, 2 * step, ...] below the length; on an entry whose
    term [round((value + 3) * 10000)] is the integer [r], one pass takes
    [hash] to [(hash << 5) - hash + r] reduced to 32 signed bits; the seed
    is the absolute value of that accumulation over the sampled entries,
    from 0; every entry of a normalised tensor has such a term; the seed is
    non-negative; tensors of one length that agree on the sampled positions
    (identical tensors among them) have the same seed. *)
Theorem hashTensor_seed (tensor : Float32Array) :
  hash_stride tensor = Z.max 1 (len tensor / 256)
  /\ hashTensor tensor = hash_spec tensor
  /\ (forall hash value r,
        -2147483648 <= hash < 2147483648 -> rounded_term value r ->
        hash_step hash value
        = (Z.shiftl hash 5 - hash + r + 2147483648) mod 4294967296 - 2147483648)
  /\ (forall rs, Forall2 rounded_term (sampled_values tensor) rs ->
        hashTensor tensor = Z.abs (fold_left accumulate rs 0))
  /\ (Forall tensor_value tensor ->
        exists rs, Forall2 rounded_term (sampled_values tensor) rs)
  /\ (forall hash value, -2147483648 <= hash_step hash value < 2147483648)
  /\ 0 <= hashTensor tensor <= 2147483648
  /\ (forall tensor',
        len tensor' = len tensor ->
        (forall i, In i (sampled_indices (len tensor) (hash_stride tensor)) ->
                   nth (Z.to_nat i) tensor' nan = nth (Z.to_nat i) tensor nan) ->
        hashTensor tensor' = hashTensor tensor).
Proof.
  split; [reflexivity |]. split; [apply hashTensor_eq_spec |].
  split; [intros hash value r Hh Hr; apply (hash_step_accumulate hash value r Hh Hr) |].
  split.
  { intros rs Hrs. rewrite hashTensor_sampled. f_equal.
    apply fold_accumulate; [exact Hrs | lia]. }
  split.
  { intros Hall. apply rounded_terms_exist. now apply sampled_values_ok. }
  split; [apply hash_step_range |]. split.
  - rewrite hashTensor_eq_spec. unfold hash_spec. cbv zeta.
    pose proof (fold_hash_range
                  (sampled_indices (len tensor) (Z.max 1 (len tensor / 256)))
                  (fun i => nth (Z.to_nat i) tensor nan) 0 ltac:(lia)) as H.
    cbv beta in H. lia.
  - intros tensor' Hlen Hsame. rewrite !hashTensor_sampled. do 2 f_equal.
    unfold sampled_values. rewrite Hlen. apply map_ext_in. intros i Hi.
    apply Hsame. exact Hi.
Qed.

(** The seed of a three-entry tensor, by evaluation and by the
    accumulation of the three terms 35000, 17500 and 50000. *)
Example hashTensor_three_entries :
  hashTensor [0.5; -1.25; 2]%float = 34227500
  /\ Z.abs (fold_left accumulate [35000; 17500; 50000] 0) = 34227500
  /\ Forall2 rounded_term (sampled_values [0.5; -1.25; 2]%float) [35000; 17500; 50000].
Proof.
  split; [vm_compute; reflexivity |]. split; [vm_compute; reflexivity |].
  assert (H : forall (v : float) (r : Z),
             F2R ((v + 3) * 10000) = IZR r -> ffin ((v + 3) * 10000) ->
             Z.abs r <= 2 ^ 51 -> rounded_term v r).
  { intros v r Hv Fv Hr. split; [exact Fv |]. split; [| exact Hr].
    unfold rounds_to. rewrite Hv. lra. }
  change (sampled_values [0.5; -1.25; 2]%float) with [0.5; -1.25; 2]%float.
  apply Forall2_cons; [| apply Forall2_cons; [| apply Forall2_cons; [| apply Forall2_nil]]].
  - apply H; [| vm_compute; reflexivity | vm_compute; discriminate].
    F2R_lit ((0.5 + 3) * 10000)%float E. destruct E as [_ E]. rewrite E. lra.
  - apply H; [| vm_compute; reflexivity | vm_compute; discriminate].
    F2R_lit ((-1.25 + 3) * 10000)%float E. destruct E as [_ E]. rewrite E. lra.
  - apply H; [| vm_compute; reflexivity | vm_compute; discriminate].
    F2R_lit ((2 + 3) * 10000)%float E. destruct E as [_ E]. rewrite E. lra.
Qed.

(** ** The predicted class of a normalised tensor *)

(** The tensors [predict] is written for: 224x224, three planes, every
    entry a finite number between -3 and 3 (a normalised byte is one). *)
Definition normalised (image : PreprocessedImage) : Prop :=
  height image = TARGET_SIZE /\ width image = TARGET_SIZE
  /\ len (data image) = 3 * TARGET_SIZE * TARGET_SIZE
  /\ Forall tensor_value (data image).

Lemma normalised_center (image : PreprocessedImage) :
  normalised image -> is_nan (center_of (brightness_of image)) = false.
Proof.
  intros (Hh & Hw & Hlen & Hval).
  rewrite brightness_of_spec by assumption.
  destruct (brightness_small (data image) Hval Hlen) as [Fb Hb].
  apply center_of_not_nan; [exact Fb | lra].
Qed.

(** The six logits around the centre [k]: the one at [k] is the jitter
    alone, within 0.17 of 0; every other one is at most -1.6. *)
Lemma predict_logits_gap (image : PreprocessedImage) (k : Z) :
  0 <= k <= 5 -> center_of (brightness_of image) = JS.of_Z k ->
  forall j : nat, (j < 6)%nat ->
    let L := nth j (fst (predict_logits image)) nan in
    ffin L
    /\ (Z.of_nat j = k -> (- (17 / 100) <= F2R L <= 17 / 100)%R)
    /\ (Z.of_nat j <> k -> (F2R L <= - (16 / 10))%R).
Proof.
  intros Hk Ec j Hj. unfold predict_logits. rewrite Ec.
  set (seed := hashTensor (data image)).
  rewrite <- state_after_0.
  rewrite (logits_loop_spec (JS.of_Z k) seed TURBIDITY_CLASSES 0) by lia.
  cbn [fst]. change (length TURBIDITY_CLASSES) with 6%nat.
  set (f := fun i : nat =>
              logit_spec (JS.of_Z k) (0 + Z.of_nat i)
                (rng_output (state_after seed (0 + Z.of_nat i)))).
  assert (Hnth : nth j (map f (seq 0 6)) nan = f j).
  { do 6 (destruct j as [| j]; [reflexivity |]). lia. }
  cbv zeta. rewrite Hnth. unfold f.
  destruct (rng_output_range (state_after seed (0 + Z.of_nat j))) as [Fu Hu].
  destruct (logit_spec_bounds k (0 + Z.of_nat j) _ Hk ltac:(lia) Fu Hu)
    as (FL & Heq & Hne).
  split; [exact FL |]. split.
  - intros E. apply Heq. lia.
  - intros E. apply Hne. lia.
Qed.

Section ClassAtCenter.

Variable exp_impl : float -> float.
Variable sharp : Buffer -> Result Thrown RawImage.

Hypothesis exp_small :
  forall x : float, fle x (-1) -> fle 0 (exp_impl x) /\ fle (exp_impl x) 0.5.

Hypothesis sharp_shape : forall buf raw,
  sharp buf = Ok raw ->
  info_width raw = RESIZE_SIZE /\ info_height raw = RESIZE_SIZE
  /\ len (raw_data raw) = RESIZE_SIZE * RESIZE_SIZE * 3.

(** Every tensor [preprocessImage] returns is a normalised one. *)
Lemma preprocessed_normalised (buf : Buffer) (image : PreprocessedImage) :
  preprocessImage sharp buf = Ok image -> normalised image.
Proof.
  intros Hok. destruct (sharp buf) as [raw | t] eqn:Hs.
  2:{ unfold preprocessImage, preprocess_body in Hok. rewrite Hs in Hok.
      cbn [bind] in Hok. destruct t; discriminate Hok. }
  destruct (preprocess_body_ok sharp sharp_shape buf raw Hs) as (cropped & Hc & Hl & Hp).
  rewrite Hp in Hok. inversion Hok; subst image. clear Hok.
  assert (Hbl : len (applyGrayWorld cropped) = TARGET_SIZE * TARGET_SIZE * 3).
  { rewrite applyGrayWorld_length. exact Hl. }
  split; [reflexivity |]. split; [reflexivity |]. cbn [data]. split.
  - apply to_tensor_layout.
  - now apply to_tensor_values.
Qed.

(** C6: for every normalised 224x224 tensor, and so for every tensor
    [preprocessImage] returns, the class [predict] returns is the class at
    the centre index [clamp(round((1 - brightness) * 5), 0, 5)] of the
    canonical list.  The centre is an index [k] between 0 and 5; the
    logit at [k] is the jitter alone, within 0.17 of 0, every other logit
    is at most -1.6, and the largest probability stays at [k].  Asked of
    the decoder: a 256x256 RGB image; of [Math.exp]: a value between 0
    and 0.5 at every argument of at most -1. *)
Theorem predicted_class_at_center (image : PreprocessedImage) :
  normalised image \/ (exists buf, preprocessImage sharp buf = Ok image) ->
  class_at (center_of (brightness_of image))
  = Some (predictedClass (predict exp_impl image))
  /\ exists k : Z,
       0 <= k <= 5
       /\ center_of (brightness_of image) = JS.of_Z k
       /\ predictedClass (predict exp_impl image)
          = nth (Z.to_nat k) TURBIDITY_CLASSES ultra_cloudy
       /\ forall j : nat, (j < 6)%nat ->
            let L := nth j (fst (predict_logits image)) nan in
            ffin L
            /\ (Z.of_nat j = k -> (- (17 / 100) <= F2R L <= 17 / 100)%R)
            /\ (Z.of_nat j <> k -> (F2R L <= - (16 / 10))%R).
Proof.
  intros H.
  assert (Hn : normalised image).
  { destruct H as [H | (buf & H)]; [exact H | exact (preprocessed_normalised buf image H)]. }
  pose proof (normalised_center image Hn) as Hc.
  destruct (predict_probs exp_impl exp_small image Hc) as (k & Hk & Ec & _ & _ & Hp & _).
  split.
  - rewrite Ec, class_at_of_Z by exact Hk. unfold predict. rewrite Hp. reflexivity.
  - exists k. split; [exact Hk |]. split; [exact Ec |]. split.
    + unfold predict. exact Hp.
    + exact (predict_logits_gap image k Hk Ec).
Qed.

End ClassAtCenter.

Lemma predicted_class_at_center_witness :
  class_at (center_of (brightness_of gray_preprocessed))
  = Some (predictedClass (predict exp_checked gray_preprocessed))
  /\ exists k : Z,
       0 <= k <= 5
       /\ center_of (brightness_of gray_preprocessed) = JS.of_Z k
       /\ predictedClass (predict exp_checked gray_preprocessed)
          = nth (Z.to_nat k) TURBIDITY_CLASSES ultra_cloudy
       /\ forall j : nat, (j < 6)%nat ->
            let L := nth j (fst (predict_logits gray_preprocessed)) nan in
            ffin L
            /\ (Z.of_nat j = k -> (- (17 / 100) <= F2R L <= 17 / 100)%R)
            /\ (Z.of_nat j <> k -> (F2R L <= - (16 / 10))%R).
Proof.
  exact (predicted_class_at_center exp_checked sharp_gray exp_checked_small
           sharp_gray_shape gray_preprocessed
           (or_intror (ex_intro _ [x00] preprocess_gray_ok))).
Defined.

(* ================================================================== *)
(** * The request handler and the error handler *)
(* ================================================================== *)

(** ** [src/middleware/error-handler.ts] *)

Inductive NodeEnv : Type := development | production | test.

(** The two settings of [src/config/index.ts] the handler reads. *)
Record Config : Type := {
  NODE_ENV : NodeEnv;
  MAX_FILE_SIZE_MB : float
}.

(** What [next(err)] can hand to the handler, as far as its [instanceof]
    tests tell values apart: an [AppError], a [MulterError] with its code
    and message, another [Error] with its message, anything else. *)
Inductive Raised : Type :=
  | RaisedAppError (e : AppError)
  | RaisedMulterError (multer_code : String.string) (msg : String.string)
  | RaisedError (msg : String.string)
  | RaisedOther.

Module Response.
Record ErrorResponse : Type := { error : String.string; code : String.string }.
End Response.

(** The [ErrorCode] as the string it is. *)
Definition code_name (c : ErrorCode) : String.string :=
  match c with
  | VALIDATION_ERROR => "VALIDATION_ERROR"
  | INFERENCE_FAILED => "INFERENCE_FAILED"
  | IMAGE_PROCESSING_FAILED => "IMAGE_PROCESSING_FAILED"
  | INTERNAL_ERROR => "INTERNAL_ERROR"
  end%string.

Section Handlers.

Variable config : Config.

(** The text a template literal makes of a number. *)
Variable Number_toString : float -> String.string.

(** [errorHandler]: the status and the JSON body it sends (the log lines
    it writes are left out). *)
Definition errorHandler (err : Raised) : Z * Response.ErrorResponse :=
  match err with
  | RaisedAppError e =>
      (statusCode e,
       {| Response.error := message e; Response.code := code_name (code e) |})
  | RaisedMulterError multer_code msg =>
      let message :=
        if String.eqb multer_code "LIMIT_FILE_SIZE"
        then String.append "File too large. Maximum size is "
               (String.append (Number_toString (MAX_FILE_SIZE_MB config)) " MB.")
        else msg in
      (400, {| Response.error := message; Response.code := "VALIDATION_ERROR" |})
  | RaisedError _ | RaisedOther =>
      let message :=
        match err with
        | RaisedError msg => msg
        | _ => "Unknown error"%string
        end in
      (500,
       {| Response.error :=
            match NODE_ENV config with
            | production => "Internal server error"%string
            | _ => message
            end;
          Response.code := "INTERNAL_ERROR" |})
  end%string.

(** ** [src/routes/predict.ts]: the handler from the image buffer on *)

Inductive Json : Type :=
  | JsonResult (result : PredictionResult)
  | JsonError (body : Response.ErrorResponse).

Variable exp_impl : float -> float.
Variable sharp : Buffer -> Result Thrown RawImage.

(** [try { res.json(predict(await preprocessImage(imageBuffer))) }
     catch (err) { next(err) }], [next] leading to [errorHandler]. *)
Definition predict_route (imageBuffer : Buffer) : Z * Json :=
  match classify exp_impl sharp imageBuffer with
  | Ok result => (200, JsonResult result)
  | Throw e =>
      let '(status, body) := errorHandler (RaisedAppError e) in
      (status, JsonError body)
  end.

End Handlers.

(** ** [src/middleware/validation.ts]: the base64 schema *)

Definition comma : Ascii.ascii := Ascii.ascii_of_N 44.

(** [s.includes(",")]. *)
Fixpoint includes_comma (s : String.string) : bool :=
  match s with
  | EmptyString => false
  | String a rest => Ascii.eqb a comma || includes_comma rest
  end.

(** The text before the first comma, and what follows that comma. *)
Fixpoint before_comma (s : String.string) : String.string :=
  match s with
  | EmptyString => EmptyString
  | String a rest => if Ascii.eqb a comma then EmptyString else String a (before_comma rest)
  end.

Fixpoint after_comma (s : String.string) : option String.string :=
  match s with
  | EmptyString => None
  | String a rest => if Ascii.eqb a comma then Some rest else after_comma rest
  end.

(** [s.split(",")[1]!]: the second of the pieces the commas cut [s] into
    ([undefined], here [None], when there is no comma). *)
Definition split_second (s : String.string) : option String.string :=
  match after_comma s with
  | Some rest => Some (before_comma rest)
  | None => None
  end.

(** [s.includes(",") ? s.split(",")[1]! : s]. *)
Definition base64_payload (s : String.string) : String.string :=
  if includes_comma s
  then match split_second s with
       | Some raw => raw
       | None => EmptyString
       end
  else s.

(** One character of [[A-Za-z0-9+/=]]. *)
Definition is_base64_char (a : Ascii.ascii) : bool :=
  let n := Ascii.N_of_ascii a in
  ((65 <=? n) && (n <=? 90) || (97 <=? n) && (n <=? 122)
   || (48 <=? n) && (n <=? 57) || (n =? 43) || (n =? 47) || (n =? 61))%N.

Fixpoint all_chars (p : Ascii.ascii -> bool) (s : String.string) : bool :=
  match s with
  | EmptyString => true
  | String a rest => p a && all_chars p rest
  end.

(** The schema of the [image] field: the [min(1)] check and the
    refinement, both of which have to pass. *)
Definition base64ImageSchema (image : String.string) : bool :=
  (1 <=? String.length image)%nat
  && (let raw := base64_payload image in
      (0 <? String.length raw)%nat && all_chars is_base64_char raw).

(** ** Responses *)

Section RouteResponses.

Variable config : Config.
Variable Number_toString : float -> String.string.
Variable exp_impl : float -> float.
Variable sharp : Buffer -> Result Thrown RawImage.

Hypothesis sharp_shape : forall buf raw,
  sharp buf = Ok raw ->
  info_width raw = RESIZE_SIZE /\ info_height raw = RESIZE_SIZE
  /\ len (raw_data raw) = RESIZE_SIZE * RESIZE_SIZE * 3.

Hypothesis sharp_throws : forall buf t,
  sharp buf = Throw t -> forall e, t <> ThrownAppError e.

(** What the route answers, by what the decoder does with the bytes: 200
    and the prediction over a normalised tensor when it decodes them; 422
    with the code [IMAGE_PROCESSING_FAILED] and the decoder's message
    behind the prefix when it throws.  Asked of the decoder: a 256x256 RGB
    image, and no [AppError] among what it throws. *)
Theorem predict_route_response (buf : Buffer) :
  match sharp buf with
  | Ok _ =>
      exists image,
        preprocessImage sharp buf = Ok image
        /\ normalised image
        /\ predict_route config Number_toString exp_impl sharp buf
           = (200, JsonResult (predict exp_impl image))
  | Throw t =>
      predict_route config Number_toString exp_impl sharp buf
      = (422,
         JsonError
           {| Response.error :=
                String.append "Image processing failed: "
                  match t with
                  | ThrownError msg => msg
                  | _ => "Unknown error"
                  end;
              Response.code := "IMAGE_PROCESSING_FAILED" |})
  end%string.
Proof.
  destruct (sharp buf) as [raw | t] eqn:Hs.
  - destruct (preprocess_body_ok sharp sharp_shape buf raw Hs) as (cropped & _ & _ & Hp).
    eexists. split; [exact Hp |]. split.
    + exact (preprocessed_normalised sharp sharp_shape buf _ Hp).
    + unfold predict_route, classify. rewrite Hp. reflexivity.
  - unfold predict_route, classify. rewrite (preprocess_throw sharp buf t Hs).
    destruct t as [e | msg |].
    + exfalso. exact (sharp_throws buf _ Hs e eq_refl).
    + reflexivity.
    + reflexivity.
Qed.

End RouteResponses.

Lemma predict_route_response_witness :
  predict_route {| NODE_ENV := production; MAX_FILE_SIZE_MB := 10 |}
    (fun _ => "10"%string) exp_ref sharp_gray []
  = (422,
     JsonError
       {| Response.error :=
            String.append "Image processing failed: " "Input Buffer is empty";
          Response.code := "IMAGE_PROCESSING_FAILED" |})%string.
Proof.
  exact (predict_route_response {| NODE_ENV := production; MAX_FILE_SIZE_MB := 10 |}
           (fun _ => "10"%string) exp_ref sharp_gray sharp_gray_shape
           sharp_gray_throws []).
Defined.


(** ** The base64 schema *)

Lemma base64_char_not_comma (a : Ascii.ascii) :
  is_base64_char a = true -> Ascii.eqb a comma = false.
Proof.
  intros H. destruct (Ascii.eqb_spec a comma) as [-> | ]; [| reflexivity].
  vm_compute in H. discriminate H.
Qed.

Lemma base64_no_comma (s : String.string) :
  all_chars is_base64_char s = true -> includes_comma s = false.
Proof.
  induction s as [| a s IH]; cbn [all_chars includes_comma]; [reflexivity |].
  intros H. apply andb_true_iff in H. destruct H as [Ha Hs].
  now rewrite (base64_char_not_comma a Ha), IH.
Qed.

Lemma before_comma_no_comma (s : String.string) :
  includes_comma (before_comma s) = false.
Proof.
  induction s as [| a s IH]; cbn [before_comma]; [reflexivity |].
  destruct (Ascii.eqb a comma) eqn:E; [reflexivity |].
  cbn [includes_comma]. now rewrite E, IH.
Qed.

(** An [image] string the schema accepts: the text the route hands to
    [Buffer.from(raw, "base64")] is not empty, is made of the characters
    [A-Z a-z 0-9 + / =] only, and holds no comma; it is the whole string
    when that has no comma, the text between the first and the second
    comma otherwise. *)
Theorem base64ImageSchema_sound (image : String.string) :
  base64ImageSchema image = true ->
  let raw := base64_payload image in
  (0 < String.length raw)%nat
  /\ all_chars is_base64_char raw = true
  /\ includes_comma raw = false
  /\ (includes_comma image = false -> raw = image)
  /\ (includes_comma image = true ->
      exists rest, after_comma image = Some rest /\ raw = before_comma rest).
Proof.
  unfold base64ImageSchema. intros H. apply andb_true_iff in H.
  destruct H as [_ H]. cbv zeta in H. apply andb_true_iff in H.
  destruct H as [Hlen Hall]. cbv zeta.
  split; [now apply Nat.ltb_lt |]. split; [exact Hall |].
  split; [now apply base64_no_comma |]. split.
  - intros Hc. unfold base64_payload. now rewrite Hc.
  - intros Hc. unfold base64_payload, split_second. rewrite Hc.
    assert (Hex : exists rest, after_comma image = Some rest).
    { clear -Hc. induction image as [| a s IH]; [discriminate Hc |].
      cbn [includes_comma] in Hc. cbn [after_comma].
      destruct (Ascii.eqb a comma); [now exists s | apply IH, Hc]. }
    destruct Hex as (rest & ->). now exists rest.
Qed.

Lemma base64ImageSchema_sound_witness :
  let raw := base64_payload "data:image/png;base64,iVBORw0KGgo=" in
  (0 < String.length raw)%nat
  /\ all_chars is_base64_char raw = true
  /\ includes_comma raw = false
  /\ (includes_comma "data:image/png;base64,iVBORw0KGgo=" = false
      -> raw = "data:image/png;base64,iVBORw0KGgo="%string)
  /\ (includes_comma "data:image/png;base64,iVBORw0KGgo=" = true ->
      exists rest,
        after_comma "data:image/png;base64,iVBORw0KGgo=" = Some rest
        /\ raw = before_comma rest).
Proof.
  apply (base64ImageSchema_sound "data:image/png;base64,iVBORw0KGgo=").
  vm_compute. reflexivity.
Defined.

(** ** What [hashTensor] reads *)

Lemma sampled_indices_length (n step : Z) :
  length (sampled_indices n step) = Z.to_nat ((n + step - 1) / step).
Proof. unfold sampled_indices. now rewrite length_map, length_seq. Qed.


(** A NaN entry makes the loop forget what it has accumulated: the hash
    after it is 0, whatever came before. *)
Theorem hash_forgets_before_nan (before after : list float) (hash : Z) :
  fold_left hash_step (before ++ nan :: after) hash
  = fold_left hash_step after 0.
Proof.
  rewrite fold_left_app. cbn [fold_left]. now rewrite hash_step_nan.
Qed.

(** ** The generator's sequence *)

(** The [k]-th call of the generator made from [seed] runs in the state
    [seed + k * 0x6d2b79f5] (to 32 signed bits), leaves the next one, and
    returns a finite number between 0 and 1, the rounding of the division
    apart. *)
Theorem rng_sequence (seed k : Z) :
  state_after seed 0 = createRng seed
  /\ snd (rng_call (state_after seed k)) = state_after seed (k + 1)
  /\ -2147483648 <= state_after seed k < 2147483648
  /\ rng_output (state_after seed k) = fst (rng_call (state_after seed k))
  /\ ffin (rng_output (state_after seed k))
  /\ (- / 2147483648 <= F2R (rng_output (state_after seed k))
      <= 1 + / 2147483648)%R.
Proof.
  split; [apply state_after_0 |]. split; [apply state_after_succ |].
  split; [apply wrap32_range |]. split; [reflexivity |].
  destruct (rng_output_range (state_after seed k)) as [F H].
  split; [exact F |]. rewrite tol_val in H. exact H.
Qed.

(** ** The entries of a preprocessed tensor *)

Section TensorEntries.

Variable sharp : Buffer -> Result Thrown RawImage.

Hypothesis sharp_shape : forall buf raw,
  sharp buf = Ok raw ->
  info_width raw = RESIZE_SIZE /\ info_height raw = RESIZE_SIZE
  /\ len (raw_data raw) = RESIZE_SIZE * RESIZE_SIZE * 3.

(** No entry of the tensor [preprocessImage] returns is NaN or infinite:
    each is between -3 and 3; the brightness [predict] reconstructs from
    it is finite and the centre index is a number.  Asked of the decoder:
    a 256x256 RGB image. *)
Theorem preprocessed_entries (buf : Buffer) (image : PreprocessedImage) :
  preprocessImage sharp buf = Ok image ->
  Forall (fun v => is_nan v = false /\ ffin v /\ (-3 <= F2R v <= 3)%R) (data image)
  /\ ffin (brightness_of image)
  /\ (-5 <= F2R (brightness_of image) <= 5)%R
  /\ is_nan (center_of (brightness_of image)) = false.
Proof.
  intros Hok.
  pose proof (preprocessed_normalised sharp sharp_shape buf image Hok) as Hn.
  pose proof (normalised_center image Hn) as Hc.
  destruct Hn as (Hh & Hw & Hlen & Hval).
  split.
  - eapply Forall_impl; [| exact Hval]. intros v [Fv Hv].
    split; [now apply ffin_not_nan |]. split; assumption.
  - pose proof (brightness_of_spec image Hh Hw) as Eb.
    destruct (brightness_small (data image) Hval Hlen) as [Fb Hb].
    rewrite <- Eb in Fb, Hb.
    split; [exact Fb |]. split; [exact Hb | exact Hc].
Qed.

End TensorEntries.

Lemma preprocessed_entries_witness :
  Forall (fun v => is_nan v = false /\ ffin v /\ (-3 <= F2R v <= 3)%R)
    (data gray_preprocessed)
  /\ ffin (brightness_of gray_preprocessed)
  /\ (-5 <= F2R (brightness_of gray_preprocessed) <= 5)%R
  /\ is_nan (center_of (brightness_of gray_preprocessed)) = false.
Proof.
  exact (preprocessed_entries sharp_gray sharp_gray_shape [x00] gray_preprocessed
           preprocess_gray_ok).
Defined.
